(** * Asynchronous UDP sockets over IOCP, io_uring and kqueue

  A shallow embedding of [udp_async_sketch.cpp]: the three backend socket
  classes and their event loops, written as state transformers over an
  explicit world (the static tables and members of the classes, the part
  of the kernel the code talks to, and a trace of what the code did).

  Conventions.
  - Every system call's outcome is an argument of the function that makes
    the call (the return value and [errno], or the completion the kernel
    posts), so each function is a total, executable function of its inputs.
  - A completion handler is an opaque closure.  The model records each
    invocation in the trace.  What a handler does to the backend while it
    runs comes in two layers: in the functions named after the source a
    handler does nothing, or calls [stop()] on the loop ([h_stops]); in
    their counterparts whose names end in [_with] the calls the handler
    makes before it returns -- sends, receives, [stop()] -- are an argument
    of the function that invokes it, and the handlers of those calls are
    treated likewise.
  - Integers of the source are [Z]; byte order conversions are written out
    for a little-endian host. *)

From Stdlib Require Import ZArith Lia List Bool.
From stdpp Require Import base tactics option list gmap.
Import ListNotations.

Local Open Scope Z_scope.

(** ** Common types (lines 25-51 of the source) *)

Module Common.

(** [htons]/[ntohs] and [htonl]/[ntohl] on a little-endian host: the bytes
    of the 16-bit, respectively 32-bit, value are reversed. *)
Definition bswap16 (x : Z) : Z :=
  Z.lor (Z.shiftl (Z.land x 255) 8) (Z.land (Z.shiftr x 8) 255).

Definition bswap32 (x : Z) : Z :=
  Z.lor (Z.lor (Z.shiftl (Z.land x 255) 24)
               (Z.shiftl (Z.land (Z.shiftr x 8) 255) 16))
        (Z.lor (Z.shiftl (Z.land (Z.shiftr x 16) 255) 8)
               (Z.land (Z.shiftr x 24) 255)).

Definition htons := bswap16.
Definition ntohs := bswap16.
Definition htonl := bswap32.
Definition ntohl := bswap32.

(** [sockaddr_in], fields in network byte order.  A [sockaddr_storage]
    that the code only ever reads through a [sockaddr_in*] after testing
    [ss_family] is modelled by the same record. *)
Record sockaddr_in := mk_sockaddr_in {
  sin_family : Z;
  sin_port : Z;
  sin_addr : Z
}.

Definition sockaddr_zero : sockaddr_in := mk_sockaddr_in 0 0 0.

(** [struct endpoint]: the numeric address and port, and the anonymous
    union whose [sin] member is the kernel-format address. *)
Record endpoint := mk_endpoint {
  address : Z;
  port : Z;
  sin : sockaddr_in
}.

(** [endpoint ep{}] *)
Definition endpoint_zero : endpoint := mk_endpoint 0 0 sockaddr_zero.

(** [std::span]: a borrowed pointer and a length. *)
Record span := mk_span {
  data : Z;
  size : Z
}.

Definition span_empty : span := mk_span 0 0.

(** A [completion_handler] or [receive_handler] closure. *)
Record handler := mk_handler {
  h_id : nat;
  h_stops : bool
}.

(** One call of a handler with the arguments it received; the error code
    is its numeric value, [0] for a default-constructed [std::error_code]. *)
Inductive invocation :=
| send_done (h : handler) (ec : Z) (bytes : Z)
| recv_done (h : handler) (ec : Z) (bytes : Z) (from : endpoint).

Definition handler_of (i : invocation) : handler :=
  match i with
  | send_done h _ _ => h
  | recv_done h _ _ _ => h
  end.

Definition error_of (i : invocation) : Z :=
  match i with
  | send_done _ ec _ => ec
  | recv_done _ ec _ _ => ec
  end.

Definition bytes_of (i : invocation) : Z :=
  match i with
  | send_done _ _ n => n
  | recv_done _ _ n _ => n
  end.

(** Requests the code makes to the operating system outside a ring. *)
Inductive syscall :=
| sys_sendto (fd : Z) (buf : span) (dest : sockaddr_in)
| sys_recvfrom (fd : Z) (buf : span)
| sys_kevent_add (kq ident filter udata : Z)
| sys_kevent_delete (kq ident filter : Z)
| sys_close (fd : Z).

(** What the code did, in program order: [new] of an operation record
    (with the handler moved into it), a handler call, [delete] of a record,
    a system call. *)
Inductive event :=
| ev_new (r : nat) (h : handler)
| ev_call (i : invocation)
| ev_delete (r : nat)
| ev_sys (s : syscall).

#[global] Instance sockaddr_in_eq_dec : EqDecision sockaddr_in.
Proof. solve_decision. Defined.
#[global] Instance endpoint_eq_dec : EqDecision endpoint.
Proof. solve_decision. Defined.
#[global] Instance span_eq_dec : EqDecision span.
Proof. solve_decision. Defined.
#[global] Instance handler_eq_dec : EqDecision handler.
Proof. solve_decision. Defined.
#[global] Instance invocation_eq_dec : EqDecision invocation.
Proof. solve_decision. Defined.
#[global] Instance syscall_eq_dec : EqDecision syscall.
Proof. solve_decision. Defined.
#[global] Instance event_eq_dec : EqDecision event.
Proof. solve_decision. Defined.

(** The handler calls of a trace, in order. *)
Definition calls (t : list event) : list invocation :=
  omap (fun e => match e with ev_call i => Some i | _ => None end) t.

(** The handlers called in a trace, in order. *)
Definition called (t : list event) : list handler :=
  handler_of <$> calls t.

(** The source endpoints handed to receive handlers in a trace, in order. *)
Definition sources (t : list event) : list endpoint :=
  omap (fun e => match e with
                 | ev_call (recv_done _ _ _ ep) => Some ep
                 | _ => None
                 end) t.

(** The records created, and the records destroyed, in a trace. *)
Definition created (t : list event) : list nat :=
  omap (fun e => match e with ev_new r _ => Some r | _ => None end) t.

Definition deleted (t : list event) : list nat :=
  omap (fun e => match e with ev_delete r => Some r | _ => None end) t.

(** The outcome of a system call that returns a count or [-1] and sets
    [errno]. *)
Record sys_result := mk_sys_result {
  ret : Z;
  errno : Z
}.

(** The outcome of [recvfrom]: the count or [-1], [errno], and the sender
    address the kernel stored. *)
Record recv_result := mk_recv_result {
  r_ret : Z;
  r_errno : Z;
  r_addr : sockaddr_in
}.

(** *** The life of operation records in a trace

    A trace in which a record is destroyed only by the two events
    "its handler is called, it is deleted", after it was created with that
    handler. *)
Inductive lifecycle : list event → Prop :=
| lc_nil : lifecycle []
| lc_new t r h : lifecycle t → lifecycle (t ++ [ev_new r h])
| lc_sys t s : lifecycle t → lifecycle (t ++ [ev_sys s])
| lc_complete t i r :
    lifecycle t → ev_new r (handler_of i) ∈ t →
    lifecycle (t ++ [ev_call i; ev_delete r]).

(** *** Accounting for handlers

    A backend, seen from the handlers: [fired w] lists the handlers called
    so far, and [slot w k] is the handler the backend holds under the key
    [k] (a direction of a descriptor, or an operation record). *)
Section Accounting.

Context {World Key : Type}.
Variable fired : World → list handler.
Variable slot : World → Key → option handler.

(** Every handler called or held was handed to the backend ([used]); a
    handler held has not been called and is held once; no handler has been
    called twice. *)
Record accounted (used : list handler) (w : World) : Prop := mk_accounted {
  acc_called : ∀ h, h ∈ fired w → h ∈ used;
  acc_held : ∀ k h, slot w k = Some h → h ∈ used ∧ h ∉ fired w;
  acc_inj : ∀ k1 k2 h, slot w k1 = Some h → slot w k2 = Some h → k1 = k2;
  acc_once : NoDup (fired w)
}.

(** [moves sub w w']: from [w] to [w'] the backend was handed handlers
    among [sub], and every handler it called was one it held or one it was
    just handed.  Slots are emptied freely; a slot is filled only with a
    handler just handed over. *)
Inductive moves : list handler → World → World → Prop :=
| mv_unused w sub : moves sub w w
| mv_quiet w w' :
    fired w' = fired w →
    (∀ k, slot w' k = slot w k ∨ slot w' k = None) →
    moves [] w w'
| mv_fire w w' k h :
    slot w k = Some h →
    fired w' = fired w ++ [h] →
    slot w' k = None →
    (∀ k', slot w' k' = slot w k' ∨ slot w' k' = None) →
    moves [] w w'
| mv_submit_fire w w' h :
    fired w' = fired w ++ [h] →
    (∀ k, slot w' k = slot w k ∨ slot w' k = None) →
    moves [h] w w'
| mv_submit_store w w' k h :
    fired w' = fired w →
    slot w' k = Some h →
    (∀ k', k' ≠ k → slot w' k' = slot w k' ∨ slot w' k' = None) →
    moves [h] w w'
| mv_trans s1 s2 w w1 w2 :
    moves s1 w w1 → moves s2 w1 w2 → moves (s1 ++ s2) w w2.

End Accounting.

End Common.

Import Common.

(** ** The readiness backend: kqueue (lines 469-741 of the source) *)

Module Kqueue.

(** Constants of <sys/socket.h>, <errno.h> and <sys/event.h>. *)
Class constants := {
  AF_INET : Z;
  EAGAIN : Z;
  EWOULDBLOCK : Z;
  EINTR : Z;
  EVFILT_READ : Z;
  EVFILT_WRITE : Z
}.

Section Backend.

Context {K : constants}.

(** [struct pending_ops]; a [std::unique_ptr] is an [option]. *)
Record pending_ops := mk_pending_ops {
  send_handler : option handler;
  send_buffer : span;
  send_endpoint : endpoint;
  recv_handler : option handler;
  recv_buffer : span
}.

(** The value [std::map::operator[]] inserts for a missing key. *)
Definition pending_ops_default : pending_ops :=
  mk_pending_ops None span_empty endpoint_zero None span_empty.

(** Everything the sockets and the loop share: the static table
    [pending_operations_], the static [global_kq_], the loop's [running_]
    flag, the (ident, filter) pairs registered in the kernel queue, and
    the trace. *)
Record world := mk_world {
  pending_operations_ : gmap Z pending_ops;
  global_kq_ : Z;
  running_ : bool;
  registered : gset (Z * Z);
  trace : list event
}.

(** The members of [kqueue_udp_socket]. *)
Record kqueue_udp_socket := mk_socket {
  fd_ : Z;
  kq_ : Z
}.

Definition set_pending (m : gmap Z pending_ops) (w : world) : world :=
  mk_world m (global_kq_ w) (running_ w) (registered w) (trace w).

Definition set_running (b : bool) (w : world) : world :=
  mk_world (pending_operations_ w) (global_kq_ w) b (registered w) (trace w).

Definition set_registered (r : gset (Z * Z)) (w : world) : world :=
  mk_world (pending_operations_ w) (global_kq_ w) (running_ w) r (trace w).

Definition emit (e : event) (w : world) : world :=
  mk_world (pending_operations_ w) (global_kq_ w) (running_ w) (registered w)
           (trace w ++ [e]).

(** [kqueue_event_loop::stop] (lines 737-740): clears the flag and does
    nothing else. *)
Definition stop (w : world) : world := set_running false w.

(** Calling a handler: the call is recorded; a handler that stops the
    loop runs [stop] before it returns.  What else a handler does while it
    runs is not part of its value: it is given, call by call, to the
    functions of the last part of this module. *)
Definition invoke (i : invocation) (w : world) : world :=
  let w := emit (ev_call i) w in
  if h_stops (handler_of i) then stop w else w.

(** The [sockaddr_in] built from the numeric fields of an endpoint
    (lines 533-536 and 638-641). *)
Definition sockaddr_of (ep : endpoint) : sockaddr_in :=
  mk_sockaddr_in AF_INET (htons (port ep)) (htonl (address ep)).

(** The endpoint built after a receive (lines 578-583 and 670-675):
    zero-initialised, the numeric fields filled in for an [AF_INET]
    sender. *)
Definition endpoint_from (addr : sockaddr_in) : endpoint :=
  if sin_family addr =? AF_INET
  then mk_endpoint (ntohl (sin_addr addr)) (ntohs (sin_port addr)) sockaddr_zero
  else endpoint_zero.

Definition reset_send (ops : pending_ops) : pending_ops :=
  mk_pending_ops None (send_buffer ops) (send_endpoint ops)
                 (recv_handler ops) (recv_buffer ops).

Definition reset_recv (ops : pending_ops) : pending_ops :=
  mk_pending_ops (send_handler ops) (send_buffer ops) (send_endpoint ops)
                 None (recv_buffer ops).

(** The [kevent] call that adds one filter: recorded; the kernel adds the
    registration when the call succeeds. *)
Definition kevent_add (kq ident filter : Z) (res : sys_result) (w : world) : world :=
  let w := emit (ev_sys (sys_kevent_add kq ident filter ident)) w in
  if ret res <? 0 then w
  else set_registered ({[ (ident, filter) ]} ∪ registered w) w.

(** The [kevent] call that deletes one filter; the code ignores its
    result. *)
Definition kevent_delete (kq ident filter : Z) (w : world) : world :=
  let w := emit (ev_sys (sys_kevent_delete kq ident filter)) w in
  set_registered (registered w ∖ {[ (ident, filter) ]}) w.

(** [kqueue_udp_socket::async_send_to] (lines 530-566).  [snd] is the
    outcome of [sendto], [kev] the outcome of the [kevent] registration
    (read only on the would-block path). *)
Definition async_send_to (s : kqueue_udp_socket) (buf : span) (ep : endpoint)
    (h : handler) (snd kev : sys_result) (w : world) : world :=
  let addr := sockaddr_of ep in
  let w := emit (ev_sys (sys_sendto (fd_ s) buf addr)) w in
  if 0 <=? ret snd then
    invoke (send_done h 0 (ret snd)) w
  else if negb (errno snd =? EAGAIN) && negb (errno snd =? EWOULDBLOCK) then
    invoke (send_done h (errno snd) 0) w
  else
    let ops := default pending_ops_default (pending_operations_ w !! fd_ s) in
    let ops := mk_pending_ops (Some h) buf ep (recv_handler ops) (recv_buffer ops) in
    let w := set_pending (<[fd_ s := ops]> (pending_operations_ w)) w in
    let w := kevent_add (kq_ s) (fd_ s) EVFILT_WRITE kev w in
    if ret kev <? 0 then
      let w := invoke (send_done h (errno kev) 0) w in
      set_pending (alter reset_send (fd_ s) (pending_operations_ w)) w
    else w.

(** [kqueue_udp_socket::async_receive_from] (lines 568-606). *)
Definition async_receive_from (s : kqueue_udp_socket) (buf : span)
    (h : handler) (rcv : recv_result) (kev : sys_result) (w : world) : world :=
  let w := emit (ev_sys (sys_recvfrom (fd_ s) buf)) w in
  if 0 <=? r_ret rcv then
    invoke (recv_done h 0 (r_ret rcv) (endpoint_from (r_addr rcv))) w
  else if negb (r_errno rcv =? EAGAIN) && negb (r_errno rcv =? EWOULDBLOCK) then
    invoke (recv_done h (r_errno rcv) 0 endpoint_zero) w
  else
    let ops := default pending_ops_default (pending_operations_ w !! fd_ s) in
    let ops := mk_pending_ops (send_handler ops) (send_buffer ops)
                              (send_endpoint ops) (Some h) buf in
    let w := set_pending (<[fd_ s := ops]> (pending_operations_ w)) w in
    let w := kevent_add (kq_ s) (fd_ s) EVFILT_READ kev w in
    if ret kev <? 0 then
      let w := invoke (recv_done h (errno kev) 0 endpoint_zero) w in
      set_pending (alter reset_recv (fd_ s) (pending_operations_ w)) w
    else w.

(** [kqueue_udp_socket::close] (lines 608-622): both filters are deleted
    (one [kevent] call with two changes, recorded as two deletions), the
    table entry is erased, the descriptor is closed. *)
Definition close (s : kqueue_udp_socket) (w : world) : kqueue_udp_socket * world :=
  if 0 <=? fd_ s then
    let w := kevent_delete (kq_ s) (fd_ s) EVFILT_READ w in
    let w := kevent_delete (kq_ s) (fd_ s) EVFILT_WRITE w in
    let w := set_pending (delete (fd_ s) (pending_operations_ w)) w in
    let w := emit (ev_sys (sys_close (fd_ s))) w in
    (mk_socket (-1) (kq_ s), w)
  else (s, w).

(** The first block of [handle_ready] (lines 636-659): a write notification
    while a send is stored.  [ops] is a reference to the table entry, so the
    block reads the table as it is when the block starts.  [snd] is the
    outcome of the [sendto]. *)
Definition ready_write (fd filter : Z) (snd : sys_result) (w : world) : world :=
  match pending_operations_ w !! fd with
  | Some ops =>
    match send_handler ops with
    | Some h =>
      if filter =? EVFILT_WRITE then
        let addr := sockaddr_of (send_endpoint ops) in
        let w := emit (ev_sys (sys_sendto fd (send_buffer ops) addr)) w in
        let w := if 0 <=? ret snd
                 then invoke (send_done h 0 (ret snd)) w
                 else invoke (send_done h (errno snd) 0) w in
        let w := set_pending (alter reset_send fd (pending_operations_ w)) w in
        kevent_delete (global_kq_ w) fd EVFILT_WRITE w
      else w
    | None => w
    end
  | None => w
  end.

(** The second block of [handle_ready] (lines 661-690): a read notification
    while a receive is stored.  [rcv] is the outcome of the [recvfrom]. *)
Definition ready_read (fd filter : Z) (rcv : recv_result) (w : world) : world :=
  match pending_operations_ w !! fd with
  | Some ops =>
    match recv_handler ops with
    | Some h =>
      if filter =? EVFILT_READ then
        let w := emit (ev_sys (sys_recvfrom fd (recv_buffer ops))) w in
        let ep := if 0 <=? r_ret rcv then endpoint_from (r_addr rcv)
                  else endpoint_zero in
        let w := if 0 <=? r_ret rcv
                 then invoke (recv_done h 0 (r_ret rcv) ep) w
                 else invoke (recv_done h (r_errno rcv) 0 ep) w in
        let w := set_pending (alter reset_recv fd (pending_operations_ w)) w in
        kevent_delete (global_kq_ w) fd EVFILT_READ w
      else w
    | None => w
    end
  | None => w
  end.

(** [kqueue_udp_socket::handle_ready] (lines 628-691): nothing for a
    descriptor without a table entry, otherwise the two blocks in turn. *)
Definition handle_ready (fd filter : Z) (snd : sys_result) (rcv : recv_result)
    (w : world) : world :=
  match pending_operations_ w !! fd with
  | None => w
  | Some _ => ready_read fd filter rcv (ready_write fd filter snd w)
  end.

(** One entry of the array [kevent] fills, with the outcomes of the system
    calls [handle_ready] makes for it. *)
Record ready := mk_ready {
  udata : Z;
  filter : Z;
  send_outcome : sys_result;
  recv_outcome : recv_result
}.

(** What one blocking [kevent] call of the loop returns: a batch of ready
    entries, or [-1] with an [errno]. *)
Inductive wait_outcome :=
| wait_events (evs : list ready)
| wait_error (e : Z).

(** How a call of [run] ends: it returns, or it stays blocked in [kevent]
    because the kernel has nothing more to report. *)
Inductive run_result :=
| Returned
| Blocked.

(** The [for] loop of [run] (lines 730-733). *)
Definition dispatch (evs : list ready) (w : world) : world :=
  fold_left (fun w e => handle_ready (udata e) (filter e)
                                     (send_outcome e) (recv_outcome e) w)
            evs w.

(** [run] from the point where the thread calls [kevent] (line 722) with
    the flag already tested; [env] lists what the successive blocking
    calls return. *)
Fixpoint run_wait (env : list wait_outcome) (w : world) : run_result * world :=
  match env with
  | [] => (Blocked, w)
  | wait_error e :: env' =>
    if e =? EINTR
    then (if running_ w then run_wait env' w else (Returned, w))
    else (Returned, w)
  | wait_events evs :: env' =>
    let w := dispatch evs w in
    if running_ w then run_wait env' w else (Returned, w)
  end.

(** [kqueue_event_loop::run] (lines 717-735). *)
Definition run (env : list wait_outcome) (w : world) : run_result * world :=
  run_wait env (set_running true w).

(** The handler stored for a descriptor and a direction, if any. *)
Definition pending_send (w : world) (fd : Z) : option handler :=
  pending_operations_ w !! fd ≫= send_handler.

Definition pending_recv (w : world) (fd : Z) : option handler :=
  pending_operations_ w !! fd ≫= recv_handler.

(** The handler held for a descriptor in one direction ([true]: send). *)
Definition slot (w : world) (k : Z * bool) : option handler :=
  if k.2 then pending_send w k.1 else pending_recv w k.1.

(** The handlers called so far. *)
Definition fired (w : world) : list handler := called (trace w).

(** What the application, the loop thread and the kernel can do to the
    world, one call at a time. *)
Inductive action :=
| act_send (s : kqueue_udp_socket) (buf : span) (ep : endpoint) (h : handler)
           (snd kev : sys_result)
| act_receive (s : kqueue_udp_socket) (buf : span) (h : handler)
              (rcv : recv_result) (kev : sys_result)
| act_close (s : kqueue_udp_socket)
| act_stop
| act_ready (fd filter : Z) (snd : sys_result) (rcv : recv_result)
| act_run (env : list wait_outcome).

Definition exec (w : world) (a : action) : world :=
  match a with
  | act_send s buf ep h snd kev => async_send_to s buf ep h snd kev w
  | act_receive s buf h rcv kev => async_receive_from s buf h rcv kev w
  | act_close s => (close s w).2
  | act_stop => stop w
  | act_ready fd filter snd rcv => handle_ready fd filter snd rcv w
  | act_run env => (run env w).2
  end.

(** The handler an action hands to the backend. *)
Definition submitted (a : action) : list handler :=
  match a with
  | act_send _ _ _ h _ _ => [h]
  | act_receive _ _ h _ _ => [h]
  | _ => []
  end.

(** A fresh process: nothing pending, nothing registered, nothing done. *)
Definition initial (kq : Z) : world := mk_world ∅ kq false ∅ [].

(** *** Handlers that call back into the socket

    What a handler does while it runs is its own business; the backend
    sees only the calls the handler makes before it returns.  A [call] is
    one of them: a send or a receive, with the outcomes of the system calls
    it makes and with [then_], the calls its own handler makes if that
    handler runs before the call returns; or [stop()].  The functions
    below are the entry points again, each with the calls made by the
    handler it invokes ([body]) at the place where the source calls the
    handler.

    [close()] is not among the calls of a handler: a handler called
    through the table entry (lines 562, 602, 648-650 and 678-681) that
    closes its socket leaves the caller with a reference to an erased
    entry, which the caller then resets.  A handler called through the
    table entry that stores a handler for its own direction replaces the
    callable that is running; the code does not use that callable again
    once it has returned, and resets whatever the slot then holds. *)
#[local] Unset Elimination Schemes.
Inductive call :=
| call_send (s : kqueue_udp_socket) (buf : span) (ep : endpoint) (h : handler)
            (snd kev : sys_result) (then_ : list call)
| call_receive (s : kqueue_udp_socket) (buf : span) (h : handler)
               (rcv : recv_result) (kev : sys_result) (then_ : list call)
| call_stop.
#[local] Set Elimination Schemes.

(** [async_send_to] (lines 530-566).  On the path where the registration
    fails the handler is called through the table entry, and the entry is
    reset after the handler has returned. *)
Definition async_send_to_with (body : world → world) (s : kqueue_udp_socket)
    (buf : span) (ep : endpoint) (h : handler) (snd kev : sys_result)
    (w : world) : world :=
  let addr := sockaddr_of ep in
  let w := emit (ev_sys (sys_sendto (fd_ s) buf addr)) w in
  if 0 <=? ret snd then
    body (invoke (send_done h 0 (ret snd)) w)
  else if negb (errno snd =? EAGAIN) && negb (errno snd =? EWOULDBLOCK) then
    body (invoke (send_done h (errno snd) 0) w)
  else
    let ops := default pending_ops_default (pending_operations_ w !! fd_ s) in
    let ops := mk_pending_ops (Some h) buf ep (recv_handler ops) (recv_buffer ops) in
    let w := set_pending (<[fd_ s := ops]> (pending_operations_ w)) w in
    let w := kevent_add (kq_ s) (fd_ s) EVFILT_WRITE kev w in
    if ret kev <? 0 then
      let w := body (invoke (send_done h (errno kev) 0) w) in
      set_pending (alter reset_send (fd_ s) (pending_operations_ w)) w
    else w.

(** [async_receive_from] (lines 568-606). *)
Definition async_receive_from_with (body : world → world)
    (s : kqueue_udp_socket) (buf : span) (h : handler) (rcv : recv_result)
    (kev : sys_result) (w : world) : world :=
  let w := emit (ev_sys (sys_recvfrom (fd_ s) buf)) w in
  if 0 <=? r_ret rcv then
    body (invoke (recv_done h 0 (r_ret rcv) (endpoint_from (r_addr rcv))) w)
  else if negb (r_errno rcv =? EAGAIN) && negb (r_errno rcv =? EWOULDBLOCK) then
    body (invoke (recv_done h (r_errno rcv) 0 endpoint_zero) w)
  else
    let ops := default pending_ops_default (pending_operations_ w !! fd_ s) in
    let ops := mk_pending_ops (send_handler ops) (send_buffer ops)
                              (send_endpoint ops) (Some h) buf in
    let w := set_pending (<[fd_ s := ops]> (pending_operations_ w)) w in
    let w := kevent_add (kq_ s) (fd_ s) EVFILT_READ kev w in
    if ret kev <? 0 then
      let w := body (invoke (recv_done h (errno kev) 0 endpoint_zero) w) in
      set_pending (alter reset_recv (fd_ s) (pending_operations_ w)) w
    else w.

(** The calls of a handler, one after the other. *)
Fixpoint perform (c : call) (w : world) : world :=
  match c with
  | call_send s buf ep h snd kev then_ =>
    async_send_to_with (fun w => fold_left (fun w c => perform c w) then_ w)
                       s buf ep h snd kev w
  | call_receive s buf h rcv kev then_ =>
    async_receive_from_with (fun w => fold_left (fun w c => perform c w) then_ w)
                            s buf h rcv kev w
  | call_stop => stop w
  end.

Definition performs (cs : list call) (w : world) : world :=
  fold_left (fun w c => perform c w) cs w.

(** The two blocks of [handle_ready] (lines 636-659 and 661-690): the
    stored handler is called, and only after it has returned is the entry
    reset and the filter deleted -- whatever the handler has stored or
    registered in that direction in the meantime. *)
Definition ready_write_with (body : world → world) (fd filter : Z)
    (snd : sys_result) (w : world) : world :=
  match pending_operations_ w !! fd with
  | Some ops =>
    match send_handler ops with
    | Some h =>
      if filter =? EVFILT_WRITE then
        let addr := sockaddr_of (send_endpoint ops) in
        let w := emit (ev_sys (sys_sendto fd (send_buffer ops) addr)) w in
        let w := if 0 <=? ret snd
                 then invoke (send_done h 0 (ret snd)) w
                 else invoke (send_done h (errno snd) 0) w in
        let w := body w in
        let w := set_pending (alter reset_send fd (pending_operations_ w)) w in
        kevent_delete (global_kq_ w) fd EVFILT_WRITE w
      else w
    | None => w
    end
  | None => w
  end.

Definition ready_read_with (body : world → world) (fd filter : Z)
    (rcv : recv_result) (w : world) : world :=
  match pending_operations_ w !! fd with
  | Some ops =>
    match recv_handler ops with
    | Some h =>
      if filter =? EVFILT_READ then
        let w := emit (ev_sys (sys_recvfrom fd (recv_buffer ops))) w in
        let ep := if 0 <=? r_ret rcv then endpoint_from (r_addr rcv)
                  else endpoint_zero in
        let w := if 0 <=? r_ret rcv
                 then invoke (recv_done h 0 (r_ret rcv) ep) w
                 else invoke (recv_done h (r_errno rcv) 0 ep) w in
        let w := body w in
        let w := set_pending (alter reset_recv fd (pending_operations_ w)) w in
        kevent_delete (global_kq_ w) fd EVFILT_READ w
      else w
    | None => w
    end
  | None => w
  end.

(** One entry of the array [kevent] fills, with what the handler of each
    block does when that block calls it. *)
Record notice := mk_notice {
  n_ready : ready;
  on_write : list call;
  on_read : list call
}.

Definition handle_ready_with (n : notice) (w : world) : world :=
  let e := n_ready n in
  match pending_operations_ w !! udata e with
  | None => w
  | Some _ =>
    ready_read_with (performs (on_read n)) (udata e) (filter e) (recv_outcome e)
      (ready_write_with (performs (on_write n)) (udata e) (filter e)
                        (send_outcome e) w)
  end.

Inductive wait_outcome_with :=
| wait_notices (ns : list notice)
| wait_error_with (e : Z).

Definition dispatch_with (ns : list notice) (w : world) : world :=
  fold_left (fun w n => handle_ready_with n w) ns w.

Fixpoint run_wait_with (env : list wait_outcome_with) (w : world)
    : run_result * world :=
  match env with
  | [] => (Blocked, w)
  | wait_error_with e :: env' =>
    if e =? EINTR
    then (if running_ w then run_wait_with env' w else (Returned, w))
    else (Returned, w)
  | wait_notices ns :: env' =>
    let w := dispatch_with ns w in
    if running_ w then run_wait_with env' w else (Returned, w)
  end.

Definition run_with (env : list wait_outcome_with) (w : world)
    : run_result * world :=
  run_wait_with env (set_running true w).

(** What the application, the loop thread and the kernel can do, with
    handlers that call back. *)
Inductive step :=
| step_call (c : call)
| step_close (s : kqueue_udp_socket)
| step_ready (n : notice)
| step_run (env : list wait_outcome_with).

Definition exec_with (w : world) (a : step) : world :=
  match a with
  | step_call c => perform c w
  | step_close s => (close s w).2
  | step_ready n => handle_ready_with n w
  | step_run env => (run_with env w).2
  end.

(** The handlers handed to the backend by a call, those handed over by the
    handlers it invokes included. *)
Fixpoint call_handlers (c : call) : list handler :=
  match c with
  | call_send _ _ _ h _ _ then_ => h :: flat_map call_handlers then_
  | call_receive _ _ h _ _ then_ => h :: flat_map call_handlers then_
  | call_stop => []
  end.

Definition notice_handlers (n : notice) : list handler :=
  flat_map call_handlers (on_write n) ++ flat_map call_handlers (on_read n).

Definition outcome_handlers (o : wait_outcome_with) : list handler :=
  match o with
  | wait_notices ns => flat_map notice_handlers ns
  | wait_error_with _ => []
  end.

Definition step_handlers (a : step) : list handler :=
  match a with
  | step_call c => call_handlers c
  | step_close _ => []
  | step_ready n => notice_handlers n
  | step_run env => flat_map outcome_handlers env
  end.

(** The handlers a call invokes before it returns, in order, with what
    each receives: its own handler on every path but the one that stores
    it, then whatever the calls of that handler invoke. *)
Fixpoint call_invocations (c : call) : list invocation :=
  match c with
  | call_send _ _ _ h snd kev then_ =>
    if 0 <=? ret snd then
      send_done h 0 (ret snd) :: flat_map call_invocations then_
    else if negb (errno snd =? EAGAIN) && negb (errno snd =? EWOULDBLOCK) then
      send_done h (errno snd) 0 :: flat_map call_invocations then_
    else if ret kev <? 0 then
      send_done h (errno kev) 0 :: flat_map call_invocations then_
    else []
  | call_receive _ _ h rcv kev then_ =>
    if 0 <=? r_ret rcv then
      recv_done h 0 (r_ret rcv) (endpoint_from (r_addr rcv))
      :: flat_map call_invocations then_
    else if negb (r_errno rcv =? EAGAIN) && negb (r_errno rcv =? EWOULDBLOCK) then
      recv_done h (r_errno rcv) 0 endpoint_zero :: flat_map call_invocations then_
    else if ret kev <? 0 then
      recv_done h (errno kev) 0 endpoint_zero :: flat_map call_invocations then_
    else []
  | call_stop => []
  end.

(** The actions of the model whose handlers make no call, as steps. *)
Definition quiet_outcome (o : wait_outcome) : wait_outcome_with :=
  match o with
  | wait_events evs => wait_notices (map (fun e => mk_notice e [] []) evs)
  | wait_error e => wait_error_with e
  end.

Definition quiet (a : action) : step :=
  match a with
  | act_send s buf ep h snd kev => step_call (call_send s buf ep h snd kev [])
  | act_receive s buf h rcv kev => step_call (call_receive s buf h rcv kev [])
  | act_close s => step_close s
  | act_stop => step_call call_stop
  | act_ready fd filter snd rcv =>
    step_ready (mk_notice (mk_ready fd filter snd rcv) [] [])
  | act_run env => step_run (map quiet_outcome env)
  end.

(** Induction on a call, with the property known of the calls of its
    handler. *)
Section CallInduction.

Variable P : call → Prop.
Hypothesis Hsend : ∀ s buf ep h snd kev then_,
  Forall P then_ → P (call_send s buf ep h snd kev then_).
Hypothesis Hreceive : ∀ s buf h rcv kev then_,
  Forall P then_ → P (call_receive s buf h rcv kev then_).
Hypothesis Hstop : P call_stop.

Fixpoint call_ind (c : call) : P c :=
  match c with
  | call_send s buf ep h snd kev then_ =>
    Hsend s buf ep h snd kev then_
      ((fix all (cs : list call) : Forall P cs :=
          match cs with
          | [] => @List.Forall_nil _ P
          | c :: cs => @List.Forall_cons _ P c cs (call_ind c) (all cs)
          end) then_)
  | call_receive s buf h rcv kev then_ =>
    Hreceive s buf h rcv kev then_
      ((fix all (cs : list call) : Forall P cs :=
          match cs with
          | [] => @List.Forall_nil _ P
          | c :: cs => @List.Forall_cons _ P c cs (call_ind c) (all cs)
          end) then_)
  | call_stop => Hstop
  end.

End CallInduction.

(** Emptying the slot of one direction ([true]: send). *)
Definition reset_dir (d : bool) : pending_ops → pending_ops :=
  if d then reset_send else reset_recv.

(** Two worlds that differ at most in the handler stored for the direction
    [d] of the descriptor [fd]. *)
Definition alike (fd : Z) (d : bool) (a b : world) : Prop :=
  (∀ i, if decide (i = fd)
        then reset_dir d <$> pending_operations_ a !! i
             = reset_dir d <$> pending_operations_ b !! i
        else pending_operations_ a !! i = pending_operations_ b !! i) ∧
  global_kq_ a = global_kq_ b ∧
  running_ a = running_ b ∧
  registered a = registered b ∧
  trace a = trace b.

End Backend.
End Kqueue.

(** ** The ring backend: io_uring (lines 243-467 of the source) *)

Module IoUring.

(** Constants of <sys/socket.h> and <errno.h>, and the indeterminate
    contents of [receive_operation::addr] after [new]: its constructor
    initialises [addr_len] only. *)
Class constants := {
  AF_INET : Z;
  EBUSY : Z;
  uninit_addr : sockaddr_in
}.

Section Backend.

Context {K : constants}.

Definition sizeof_sockaddr_in : Z := 16.
Definition sizeof_sockaddr_storage : Z := 128.

(** The two classes derived from [operation]; the virtual call of
    [complete] is a match on the constructor.  [iov] is the
    scatter-gather entry of the receive, [None] until it is set up. *)
Inductive operation :=
| send_operation (h : handler) (addr : sockaddr_in) (addr_len : Z)
| receive_operation (h : handler) (addr : sockaddr_in) (addr_len : Z)
                    (iov : option span).

(** A submission entry.  The send entry points at the address stored in
    the record [addr_of]; the receive entry points at the [msghdr] of the
    record [msg_of].  [user_data] is the tag of the entry: for a send or a
    receive the one [io_uring_sqe_set_data] stores (lines 375 and 405); for
    a no-op, which [stop] prepares without setting it (line 463), the one
    its previous use left in the entry, if any. *)
Inductive sqe :=
| sqe_sendto (fd : Z) (buf : span) (addr_of : nat) (addr_len : Z) (user_data : nat)
| sqe_recvmsg (fd : Z) (msg_of : nat) (user_data : nat)
| sqe_nop (user_data : option nat).

Definition sqe_user_data (q : sqe) : option nat :=
  match q with
  | sqe_sendto _ _ _ _ r => Some r
  | sqe_recvmsg _ _ r => Some r
  | sqe_nop t => t
  end.

Definition is_nop (q : sqe) : bool :=
  match q with
  | sqe_nop _ => true
  | _ => false
  end.

(** A completion entry: the tag and [res]. *)
Record cqe := mk_cqe {
  user_data : option nat;
  res : Z
}.

(** [struct io_uring] together with the kernel's side of it: entries
    written but not yet submitted, the capacity of the submission queue,
    the submitted operations the kernel has not completed, and the
    completion queue.  [sqes] is the [user_data] field of every entry of
    the submission array as it was last written (nothing in an entry never
    used: the array is mapped zeroed), and [sqe_tail] counts the entries
    handed out so far: [io_uring_get_sqe] hands out the entries of the
    array in turn, and neither it nor the [io_uring_prep_] functions clear
    [user_data]. *)
Record io_uring := mk_io_uring {
  sq : list sqe;
  sq_entries : nat;
  inflight : list sqe;
  cq : list cqe;
  sqes : list (option nat);
  sqe_tail : nat
}.

(** The heap of operation records with its allocation counter, the loop's
    ring and flag, and the trace.  [dangling] lists the uses made of a
    record after its destruction (a call of [complete] through its pointer,
    a write of the kernel into its address storage): from the first of them
    on the behaviour of the program is undefined, and the model says
    nothing about it. *)
Record world := mk_world {
  heap : gmap nat operation;
  next : nat;
  ring_ : io_uring;
  running_ : bool;
  trace : list event;
  dangling : list nat
}.

(** The member of [io_uring_udp_socket] that changes; [ring_] is the
    loop's ring. *)
Record io_uring_udp_socket := mk_socket {
  fd_ : Z
}.

Definition set_heap (m : gmap nat operation) (w : world) : world :=
  mk_world m (next w) (ring_ w) (running_ w) (trace w) (dangling w).

Definition set_ring (r : io_uring) (w : world) : world :=
  mk_world (heap w) (next w) r (running_ w) (trace w) (dangling w).

Definition set_running (b : bool) (w : world) : world :=
  mk_world (heap w) (next w) (ring_ w) b (trace w) (dangling w).

Definition emit (e : event) (w : world) : world :=
  mk_world (heap w) (next w) (ring_ w) (running_ w) (trace w ++ [e])
           (dangling w).

(** A use of the record [r] after its destruction. *)
Definition use_after_delete (r : nat) (w : world) : world :=
  mk_world (heap w) (next w) (ring_ w) (running_ w) (trace w)
           (dangling w ++ [r]).

Definition op_handler (op : operation) : handler :=
  match op with
  | send_operation h _ _ => h
  | receive_operation h _ _ _ => h
  end.

(** [new]: a fresh record. *)
Definition new (op : operation) (w : world) : nat * world :=
  (next w,
   emit (ev_new (next w) (op_handler op))
        (mk_world (<[next w := op]> (heap w)) (S (next w)) (ring_ w)
                  (running_ w) (trace w) (dangling w))).

(** [delete this] *)
Definition delete_this (r : nat) (w : world) : world :=
  emit (ev_delete r) (set_heap (delete r (heap w)) w).

(** [io_uring_get_sqe]: the next free entry, or none when the submission
    queue is full.  The entry is appended when it is prepared. *)
Definition io_uring_get_sqe (w : world) : bool :=
  bool_decide (length (sq (ring_ w)) < sq_entries (ring_ w))%nat.

(** The entry of the submission array that [io_uring_get_sqe] hands out
    next, and the [user_data] its previous use left in it. *)
Definition sqe_slot (r : io_uring) : nat := (sqe_tail r mod sq_entries r)%nat.

Definition stale_user_data (w : world) : option nat :=
  default None (sqes (ring_ w) !! sqe_slot (ring_ w)).

(** An entry is written: it joins the entries to submit, and its tag is what
    the entry of the array now holds. *)
Definition push_sqe (q : sqe) (w : world) : world :=
  let r := ring_ w in
  set_ring (mk_io_uring (sq r ++ [q]) (sq_entries r) (inflight r) (cq r)
                        (<[sqe_slot r := sqe_user_data q]> (sqes r))
                        (S (sqe_tail r))) w.

(** [io_uring_submit]: the kernel takes every written entry.  A no-op
    completes at once with result 0 and the tag of its entry; a send or
    receive becomes an operation in flight. *)
Definition io_uring_submit (w : world) : world :=
  let r := ring_ w in
  set_ring (mk_io_uring [] (sq_entries r)
              (inflight r ++ List.filter (fun q => negb (is_nop q)) (sq r))
              (cq r ++ map (fun q => mk_cqe (sqe_user_data q) 0)
                           (List.filter is_nop (sq r)))
              (sqes r) (sqe_tail r)) w.

(** [io_uring_cqe_seen]: the head of the completion queue is consumed. *)
Definition io_uring_cqe_seen (w : world) : world :=
  let r := ring_ w in
  set_ring (mk_io_uring (sq r) (sq_entries r) (inflight r) (tail (cq r))
                        (sqes r) (sqe_tail r)) w.

(** [io_uring_event_loop::stop] (lines 458-466).  The no-op is prepared in
    the next entry of the array and its [user_data] is not set, so it
    carries whatever that entry held. *)
Definition stop (w : world) : world :=
  let w := set_running false w in
  if io_uring_get_sqe w
  then io_uring_submit (push_sqe (sqe_nop (stale_user_data w)) w)
  else w.

(** Calling a handler: the call is recorded; a handler that stops the
    loop runs [stop] before it returns.  What else a handler does while it
    runs is not part of its value: it is given, call by call, to the
    functions of the last part of this module. *)
Definition invoke (i : invocation) (w : world) : world :=
  let w := emit (ev_call i) w in
  if h_stops (handler_of i) then stop w else w.

(** The endpoint [receive_operation::complete] builds on success (lines
    307-315): zero-initialised; for an [AF_INET] sender the numeric fields
    and a copy of the [sockaddr_in]. *)
Definition endpoint_from (addr : sockaddr_in) : endpoint :=
  if sin_family addr =? AF_INET
  then mk_endpoint (ntohl (sin_addr addr)) (ntohs (sin_port addr)) addr
  else endpoint_zero.

(** [send_operation::complete] (lines 275-287) and
    [receive_operation::complete] (lines 299-320), on the record [r].
    [result] is the [res] of a completion, a 32-bit value the kernel never
    sets to the least one, so its negation is taken exactly.  When [r] has
    been destroyed the call goes through a dangling pointer: the model
    records it and leaves the world as it is. *)
Definition complete (r : nat) (result : Z) (w : world) : world :=
  match heap w !! r with
  | Some (send_operation h _ _) =>
    let w := if result <? 0
             then invoke (send_done h (- result) 0) w
             else invoke (send_done h 0 result) w in
    delete_this r w
  | Some (receive_operation h addr _ _) =>
    let w := if result <? 0
             then invoke (recv_done h (- result) 0 endpoint_zero) w
             else invoke (recv_done h 0 result (endpoint_from addr)) w in
    delete_this r w
  | None => use_after_delete r w
  end.

(** The address [async_send_to] stores in the record (lines 350-365). *)
Definition destination (ep : endpoint) : sockaddr_in :=
  if sin_family (sin ep) =? AF_INET
  then sin ep
  else mk_sockaddr_in AF_INET (htons (port ep)) (htonl (address ep)).

(** [io_uring_udp_socket::async_send_to] (lines 344-376). *)
Definition async_send_to (s : io_uring_udp_socket) (buf : span) (ep : endpoint)
    (h : handler) (w : world) : world :=
  let '(op, w) := new (send_operation h (destination ep) sizeof_sockaddr_in) w in
  if io_uring_get_sqe w then
    push_sqe (sqe_sendto (fd_ s) buf op sizeof_sockaddr_in op) w
  else
    complete op (- EBUSY) w.

(** [io_uring_udp_socket::async_receive_from] (lines 378-406). *)
Definition async_receive_from (s : io_uring_udp_socket) (buf : span)
    (h : handler) (w : world) : world :=
  let '(op, w) :=
    new (receive_operation h uninit_addr sizeof_sockaddr_storage None) w in
  if io_uring_get_sqe w then
    let w := set_heap
               (<[op := receive_operation h uninit_addr sizeof_sockaddr_storage
                                          (Some buf)]> (heap w)) w in
    push_sqe (sqe_recvmsg (fd_ s) op op) w
  else
    complete op (- EBUSY) w.

(** [io_uring_udp_socket::close] (lines 408-413). *)
Definition close (s : io_uring_udp_socket) (w : world)
    : io_uring_udp_socket * world :=
  if 0 <=? fd_ s then (mk_socket (-1), emit (ev_sys (sys_close (fd_ s))) w)
  else (s, w).

(** What the kernel does on its own while the loop waits: it completes the
    [i]-th operation in flight with result [res] (for a receive that
    succeeds it first stores the sender address [from] through
    [msg_name], which points into the record), or it interrupts the
    wait. *)
Inductive kernel_event :=
| kernel_complete (i : nat) (res : Z) (from : sockaddr_in)
| kernel_interrupt.

Definition store_sender (q : sqe) (res : Z) (from : sockaddr_in)
    (m : gmap nat operation) : gmap nat operation :=
  match q with
  | sqe_recvmsg _ r _ =>
    if 0 <=? res then
      alter (fun op => match op with
                       | receive_operation h _ len iov =>
                         receive_operation h from len iov
                       | _ => op
                       end) r m
    else m
  | _ => m
  end.

(** The record a completing operation writes into, when it has been
    destroyed in the meantime. *)
Definition stores_into_deleted (q : sqe) (res : Z) (m : gmap nat operation)
    : list nat :=
  match q with
  | sqe_recvmsg _ r _ =>
    if 0 <=? res then (if m !! r is Some _ then [] else [r]) else []
  | _ => []
  end.

Definition kernel_complete_op (i : nat) (res : Z) (from : sockaddr_in)
    (w : world) : world :=
  let r := ring_ w in
  match inflight r !! i with
  | Some q =>
    mk_world (store_sender q res from (heap w)) (next w)
             (mk_io_uring (sq r) (sq_entries r) (delete i (inflight r))
                          (cq r ++ [mk_cqe (sqe_user_data q) res])
                          (sqes r) (sqe_tail r))
             (running_ w) (trace w)
             (dangling w ++ stores_into_deleted q res (heap w))
  | None => w
  end.

(** The outcome of [io_uring_wait_cqe]. *)
Inductive wait_result :=
| wait_cqe (c : cqe) (env : list kernel_event) (w : world)
| wait_failed (env : list kernel_event) (w : world)
| wait_blocked (w : world).

(** [io_uring_wait_cqe]: the head of the completion queue when there is
    one; otherwise the thread sleeps until the kernel acts, and forever
    when it never does. *)
Fixpoint io_uring_wait_cqe (env : list kernel_event) (w : world) : wait_result :=
  match cq (ring_ w) with
  | c :: _ => wait_cqe c env w
  | [] =>
    match env with
    | [] => wait_blocked w
    | kernel_interrupt :: env' => wait_failed env' w
    | kernel_complete i res from :: env' =>
      io_uring_wait_cqe env' (kernel_complete_op i res from w)
    end
  end.

Inductive run_result :=
| Returned
| Blocked
| OutOfFuel.

(** The body of the loop for one completion (lines 447-454). *)
Definition process (c : cqe) (w : world) : world :=
  let w := match user_data c with
           | Some op => complete op (res c) w
           | None => w
           end in
  io_uring_cqe_seen w.

(** [run] from the call of [io_uring_wait_cqe] (line 443); after each
    iteration the flag is tested and the written entries submitted. *)
Fixpoint run_wait (fuel : nat) (env : list kernel_event) (w : world)
    : run_result * world :=
  match fuel with
  | O => (OutOfFuel, w)
  | S fuel =>
    match io_uring_wait_cqe env w with
    | wait_blocked w => (Blocked, w)
    | wait_failed env w =>
      if running_ w then run_wait fuel env (io_uring_submit w)
      else (Returned, w)
    | wait_cqe c env w =>
      let w := process c w in
      if running_ w then run_wait fuel env (io_uring_submit w)
      else (Returned, w)
    end
  end.

(** [io_uring_event_loop::run] (lines 434-456). *)
Definition run (fuel : nat) (env : list kernel_event) (w : world)
    : run_result * world :=
  run_wait fuel env (io_uring_submit (set_running true w)).

(** The address the kernel reads through the pointer of a send entry. *)
Definition wire_destination (w : world) (q : sqe) : option sockaddr_in :=
  match q with
  | sqe_sendto _ _ r _ _ =>
    match heap w !! r with
    | Some (send_operation _ addr _) => Some addr
    | Some (receive_operation _ addr _ _) => Some addr
    | None => None
    end
  | _ => None
  end.

(** The records the ring refers to: the tags of the entries written, of
    the operations in flight and of the completions not yet consumed. *)
Definition tags (w : world) : list nat :=
  omap sqe_user_data (sq (ring_ w) ++ inflight (ring_ w))
  ++ omap user_data (cq (ring_ w)).

(** The handler held in an operation record, and the handlers called so
    far. *)
Definition held (w : world) (r : nat) : option handler :=
  op_handler <$> heap w !! r.

Definition fired (w : world) : list handler := called (trace w).

(** The heap, the ring and the trace agree: the ring refers to every live
    record; the live records are those created and not yet destroyed; no
    record was destroyed twice; records are destroyed as [lifecycle]
    says.  (The ring may refer to a record more than once, and to a
    destroyed one: the no-op of [stop] repeats the tag left in its
    entry.) *)
Record consistent (w : world) : Prop := mk_consistent {
  con_live : ∀ r, is_Some (held w r) → r ∈ tags w;
  con_fresh : ∀ r, r ∈ created (trace w) → (r < next w)%nat;
  con_deleted : ∀ r, r ∈ deleted (trace w) → r ∈ created (trace w);
  con_heap : ∀ r, is_Some (held w r)
                  ↔ r ∈ created (trace w) ∧ r ∉ deleted (trace w);
  con_once : NoDup (deleted (trace w));
  con_handler : ∀ r h, held w r = Some h → ev_new r h ∈ trace w;
  con_trace : lifecycle (trace w)
}.

Inductive action :=
| act_send (s : io_uring_udp_socket) (buf : span) (ep : endpoint) (h : handler)
| act_receive (s : io_uring_udp_socket) (buf : span) (h : handler)
| act_close (s : io_uring_udp_socket)
| act_stop
| act_kernel (i : nat) (res : Z) (from : sockaddr_in)
| act_run (fuel : nat) (env : list kernel_event)
| act_resume (fuel : nat) (env : list kernel_event).

Definition exec (w : world) (a : action) : world :=
  match a with
  | act_send s buf ep h => async_send_to s buf ep h w
  | act_receive s buf h => async_receive_from s buf h w
  | act_close s => (close s w).2
  | act_stop => stop w
  | act_kernel i res from => kernel_complete_op i res from w
  | act_run fuel env => (run fuel env w).2
  | act_resume fuel env => (run_wait fuel env w).2
  end.

Definition submitted (a : action) : list handler :=
  match a with
  | act_send _ _ _ h => [h]
  | act_receive _ _ h => [h]
  | _ => []
  end.

(** A fresh loop whose ring holds [entries] entries: nothing written,
    nothing in flight, no record yet, the submission array zeroed. *)
Definition initial (entries : nat) : world :=
  mk_world ∅ 0 (mk_io_uring [] entries [] [] (replicate entries None) 0)
           false [] [].

(** [io_uring_event_loop(entries)] (lines 422-426):
    [io_uring_queue_init] refuses 0 and more than 32768 entries, and the
    constructor then throws; otherwise the ring holds the request rounded
    up to a power of two. *)
Definition roundup_pow_of_two (n : nat) : nat := (2 ^ Nat.log2_up n)%nat.

Definition io_uring_event_loop (entries : nat) : option world :=
  if (entries =? 0)%nat || (32768 <? Z.of_nat entries) then None
  else Some (initial (roundup_pow_of_two entries)).


(** *** Handlers that call back into the socket

    While a handler runs the backend sees the calls the handler makes
    before it returns, and the kernel goes on with the operations in
    flight.  A [call] is one of these: a send or a receive, with [then_],
    what happens while its own handler runs if that handler is called
    before the call returns; [close()]; [stop()]; or the kernel completing
    an operation in flight.  The functions below are the entry points
    again, each with what happens while the handler it invokes runs
    ([body]) at the place where the source calls the handler. *)
#[local] Unset Elimination Schemes.
Inductive call :=
| call_send (s : io_uring_udp_socket) (buf : span) (ep : endpoint) (h : handler)
            (then_ : list call)
| call_receive (s : io_uring_udp_socket) (buf : span) (h : handler)
               (then_ : list call)
| call_close (s : io_uring_udp_socket)
| call_stop
| call_kernel (i : nat) (res : Z) (from : sockaddr_in).
#[local] Set Elimination Schemes.

(** [complete] (lines 275-287 and 299-320): the arguments of the handler
    are computed, the handler is called, and the record is destroyed when
    the handler has returned. *)
Definition complete_with (body : world → world) (r : nat) (result : Z)
    (w : world) : world :=
  match heap w !! r with
  | Some (send_operation h _ _) =>
    let w := if result <? 0
             then invoke (send_done h (- result) 0) w
             else invoke (send_done h 0 result) w in
    delete_this r (body w)
  | Some (receive_operation h addr _ _) =>
    let w := if result <? 0
             then invoke (recv_done h (- result) 0 endpoint_zero) w
             else invoke (recv_done h 0 result (endpoint_from addr)) w in
    delete_this r (body w)
  | None => use_after_delete r w
  end.

Definition async_send_to_with (body : world → world) (s : io_uring_udp_socket)
    (buf : span) (ep : endpoint) (h : handler) (w : world) : world :=
  let '(op, w) := new (send_operation h (destination ep) sizeof_sockaddr_in) w in
  if io_uring_get_sqe w then
    push_sqe (sqe_sendto (fd_ s) buf op sizeof_sockaddr_in op) w
  else
    complete_with body op (- EBUSY) w.

Definition async_receive_from_with (body : world → world)
    (s : io_uring_udp_socket) (buf : span) (h : handler) (w : world) : world :=
  let '(op, w) :=
    new (receive_operation h uninit_addr sizeof_sockaddr_storage None) w in
  if io_uring_get_sqe w then
    let w := set_heap
               (<[op := receive_operation h uninit_addr sizeof_sockaddr_storage
                                          (Some buf)]> (heap w)) w in
    push_sqe (sqe_recvmsg (fd_ s) op op) w
  else
    complete_with body op (- EBUSY) w.

Fixpoint perform (c : call) (w : world) : world :=
  match c with
  | call_send s buf ep h then_ =>
    async_send_to_with (fun w => fold_left (fun w c => perform c w) then_ w)
                       s buf ep h w
  | call_receive s buf h then_ =>
    async_receive_from_with (fun w => fold_left (fun w c => perform c w) then_ w)
                            s buf h w
  | call_close s => (close s w).2
  | call_stop => stop w
  | call_kernel i res from => kernel_complete_op i res from w
  end.

Definition performs (cs : list call) (w : world) : world :=
  fold_left (fun w c => perform c w) cs w.

(** The body of the loop for one completion (lines 447-454). *)
Definition process_with (body : world → world) (c : cqe) (w : world) : world :=
  let w := match user_data c with
           | Some op => complete_with body op (res c) w
           | None => w
           end in
  io_uring_cqe_seen w.

(** [run] from the call of [io_uring_wait_cqe]; [bodies] lists, for the
    completions the loop consumes in turn, what happens while the handler
    of each runs. *)
Fixpoint run_wait_with (fuel : nat) (env : list kernel_event)
    (bodies : list (list call)) (w : world) : run_result * world :=
  match fuel with
  | O => (OutOfFuel, w)
  | S fuel =>
    match io_uring_wait_cqe env w with
    | wait_blocked w => (Blocked, w)
    | wait_failed env w =>
      if running_ w then run_wait_with fuel env bodies (io_uring_submit w)
      else (Returned, w)
    | wait_cqe c env w =>
      let w := process_with (performs (hd [] bodies)) c w in
      if running_ w then run_wait_with fuel env (tl bodies) (io_uring_submit w)
      else (Returned, w)
    end
  end.

Definition run_with (fuel : nat) (env : list kernel_event)
    (bodies : list (list call)) (w : world) : run_result * world :=
  run_wait_with fuel env bodies (io_uring_submit (set_running true w)).

(** What the application, the loop thread and the kernel can do, with
    handlers that call back. *)
Inductive step :=
| step_call (c : call)
| step_run (fuel : nat) (env : list kernel_event) (bodies : list (list call))
| step_resume (fuel : nat) (env : list kernel_event) (bodies : list (list call)).

Definition exec_with (w : world) (a : step) : world :=
  match a with
  | step_call c => perform c w
  | step_run fuel env bodies => (run_with fuel env bodies w).2
  | step_resume fuel env bodies => (run_wait_with fuel env bodies w).2
  end.

(** The handlers handed to the backend by a call, those handed over while
    the handlers it invokes run included. *)
Fixpoint call_handlers (c : call) : list handler :=
  match c with
  | call_send _ _ _ h then_ => h :: flat_map call_handlers then_
  | call_receive _ _ h then_ => h :: flat_map call_handlers then_
  | _ => []
  end.

Definition step_handlers (a : step) : list handler :=
  match a with
  | step_call c => call_handlers c
  | step_run _ _ bodies => flat_map (flat_map call_handlers) bodies
  | step_resume _ _ bodies => flat_map (flat_map call_handlers) bodies
  end.

(** The actions of the model whose handlers make no call, as steps. *)
Definition quiet (a : action) : step :=
  match a with
  | act_send s buf ep h => step_call (call_send s buf ep h [])
  | act_receive s buf h => step_call (call_receive s buf h [])
  | act_close s => step_call (call_close s)
  | act_stop => step_call call_stop
  | act_kernel i res from => step_call (call_kernel i res from)
  | act_run fuel env => step_run fuel env []
  | act_resume fuel env => step_resume fuel env []
  end.

(** Induction on a call, with the property known of what happens while
    its handler runs. *)
Section CallInduction.

Variable P : call → Prop.
Hypothesis Hsend : ∀ s buf ep h then_,
  Forall P then_ → P (call_send s buf ep h then_).
Hypothesis Hreceive : ∀ s buf h then_,
  Forall P then_ → P (call_receive s buf h then_).
Hypothesis Hclose : ∀ s, P (call_close s).
Hypothesis Hstop : P call_stop.
Hypothesis Hkernel : ∀ i result from, P (call_kernel i result from).

Fixpoint ring_call_ind (c : call) : P c :=
  match c with
  | call_send s buf ep h then_ =>
    Hsend s buf ep h then_
      ((fix all (cs : list call) : Forall P cs :=
          match cs with
          | [] => @List.Forall_nil _ P
          | c :: cs => @List.Forall_cons _ P c cs (ring_call_ind c) (all cs)
          end) then_)
  | call_receive s buf h then_ =>
    Hreceive s buf h then_
      ((fix all (cs : list call) : Forall P cs :=
          match cs with
          | [] => @List.Forall_nil _ P
          | c :: cs => @List.Forall_cons _ P c cs (ring_call_ind c) (all cs)
          end) then_)
  | call_close s => Hclose s
  | call_stop => Hstop
  | call_kernel i result from => Hkernel i result from
  end.

End CallInduction.

(** Two worlds that differ at most in the record [r], which exists
    already. *)
Definition same_but (r : nat) (a b : world) : Prop :=
  (∀ i, i ≠ r → heap a !! i = heap b !! i) ∧
  next a = next b ∧
  ring_ a = ring_ b ∧
  running_ a = running_ b ∧
  trace a = trace b ∧
  (r < next a)%nat.

(** From [w] to [w'] nothing is undone: the allocation counter and the
    trace only grow, completions are only appended to the completion queue,
    and the handlers of the records that exist already stay where they
    are. *)
Definition grows (w w' : world) : Prop :=
  (next w ≤ next w')%nat ∧
  (∃ t, trace w' = trace w ++ t) ∧
  (∀ r, (r < next w)%nat → held w' r = held w r) ∧
  (∃ extra, cq (ring_ w') = cq (ring_ w) ++ extra).

(** In the trace [t] every destruction of a record comes after a call of
    the handler the record was created with. *)
Definition ordered (t : list event) : Prop :=
  ∀ t1 t2 r, t = t1 ++ ev_delete r :: t2 →
             ∃ ta tb i, t1 = ta ++ ev_call i :: tb ∧ ev_new r (handler_of i) ∈ ta.

(** The heap, the ring and the trace agree, [E] being the records whose
    handler is running: every other live record is referred to by the
    ring. *)
Record inv (E : list nat) (w : world) : Prop := mk_inv {
  inv_live : ∀ r, is_Some (held w r) → r ∈ tags w ∨ r ∈ E;
  inv_fresh : ∀ r, r ∈ created (trace w) → (r < next w)%nat;
  inv_deleted : ∀ r, r ∈ deleted (trace w) → r ∈ created (trace w);
  inv_heap : ∀ r, is_Some (held w r)
                  ↔ r ∈ created (trace w) ∧ r ∉ deleted (trace w);
  inv_once : NoDup (deleted (trace w));
  inv_handler : ∀ r h, held w r = Some h → ev_new r h ∈ trace w;
  inv_order : ordered (trace w)
}.

End Backend.
End IoUring.

(** ** The completion backend: IOCP (lines 53-241 of the source) *)

Module Iocp.

(** Constants of <winsock2.h>, and the indeterminate contents of the
    local [endpoint ep;] of [receive_operation::complete]. *)
Class constants := {
  AF_INET : Z;
  SOCKET_ERROR : Z;
  WSA_IO_PENDING : Z;
  WSAEMSGSIZE : Z;
  INVALID_SOCKET : Z;
  uninit_endpoint : endpoint
}.

Section Backend.

Context {K : constants}.

(** The two classes derived from [operation]. *)
Inductive operation :=
| send_operation (h : handler) (wsabuf : span)
| receive_operation (h : handler) (wsabuf : span) (addr : sockaddr_in)
                    (addr_len : Z) (flags : Z).

(** What [GetQueuedCompletionStatus] hands out: its return value, the
    byte count, the completion key and the [OVERLAPPED] pointer. *)
Record packet := mk_packet {
  status : bool;
  bytes_transferred : Z;
  completion_key : Z;
  overlapped : option nat
}.

(** The heap of operation records with its allocation counter, the
    packets queued on the completion port, the records of the operations
    the kernel still performs, and the trace. *)
Record world := mk_world {
  heap : gmap nat operation;
  next : nat;
  iocp_ : list packet;
  inflight : list nat;
  trace : list event
}.

Record iocp_udp_socket := mk_socket {
  socket_ : Z
}.

Definition set_heap (m : gmap nat operation) (w : world) : world :=
  mk_world m (next w) (iocp_ w) (inflight w) (trace w).

Definition set_port (p : list packet) (w : world) : world :=
  mk_world (heap w) (next w) p (inflight w) (trace w).

Definition set_inflight (l : list nat) (w : world) : world :=
  mk_world (heap w) (next w) (iocp_ w) l (trace w).

Definition emit (e : event) (w : world) : world :=
  mk_world (heap w) (next w) (iocp_ w) (inflight w) (trace w ++ [e]).

Definition op_handler (op : operation) : handler :=
  match op with
  | send_operation h _ => h
  | receive_operation h _ _ _ _ => h
  end.

Definition new (op : operation) (w : world) : nat * world :=
  (next w,
   emit (ev_new (next w) (op_handler op))
        (mk_world (<[next w := op]> (heap w)) (S (next w)) (iocp_ w)
                  (inflight w) (trace w))).

Definition delete_this (r : nat) (w : world) : world :=
  emit (ev_delete r) (set_heap (delete r (heap w)) w).

(** [iocp_event_loop::stop] (line 240):
    [PostQueuedCompletionStatus(iocp_, 0, 0, NULL)]. *)
Definition stop (w : world) : world :=
  set_port (iocp_ w ++ [mk_packet true 0 0 None]) w.

Definition invoke (i : invocation) (w : world) : world :=
  let w := emit (ev_call i) w in
  if h_stops (handler_of i) then stop w else w.

Definition sockaddr_of (ep : endpoint) : sockaddr_in :=
  mk_sockaddr_in AF_INET (htons (port ep)) (htonl (address ep)).

(** [send_operation::complete] (lines 83-90) and
    [receive_operation::complete] (lines 101-116). *)
Definition complete (r : nat) (bytes error : Z) (w : world) : world :=
  let ec := if error =? 0 then 0 else error in
  match heap w !! r with
  | Some (send_operation h _) =>
    delete_this r (invoke (send_done h ec bytes) w)
  | Some (receive_operation h _ addr _ _) =>
    let ep := if (ec =? 0) && (sin_family addr =? AF_INET)
              then mk_endpoint (ntohl (sin_addr addr)) (ntohs (sin_port addr))
                               (sin uninit_endpoint)
              else uninit_endpoint in
    delete_this r (invoke (recv_done h ec bytes ep) w)
  | None => w
  end.

(** [iocp_udp_socket::handle_completion] (lines 202-206). *)
Definition handle_completion (ov : nat) (bytes error : Z) (w : world) : world :=
  complete ov bytes error w.

(** [iocp_udp_socket::async_send_to] (lines 149-172); [res] is the
    return value of [WSASendTo] and [WSAGetLastError()]. *)
Definition async_send_to (s : iocp_udp_socket) (buf : span) (ep : endpoint)
    (h : handler) (res : sys_result) (w : world) : world :=
  let '(op, w) := new (send_operation h buf) w in
  let w := emit (ev_sys (sys_sendto (socket_ s) buf (sockaddr_of ep))) w in
  if (ret res =? SOCKET_ERROR) && negb (errno res =? WSA_IO_PENDING)
  then complete op 0 (errno res) w
  else set_inflight (inflight w ++ [op]) w.

(** [iocp_udp_socket::async_receive_from] (lines 174-192). *)
Definition async_receive_from (s : iocp_udp_socket) (buf : span) (h : handler)
    (res : sys_result) (w : world) : world :=
  let '(op, w) := new (receive_operation h buf sockaddr_zero 128 0) w in
  let w := emit (ev_sys (sys_recvfrom (socket_ s) buf)) w in
  if (ret res =? SOCKET_ERROR) && negb (errno res =? WSA_IO_PENDING)
  then complete op 0 (errno res) w
  else set_inflight (inflight w ++ [op]) w.

(** [iocp_udp_socket::close] (lines 194-199). *)
Definition close (s : iocp_udp_socket) (w : world) : iocp_udp_socket * world :=
  if negb (socket_ s =? INVALID_SOCKET)
  then (mk_socket INVALID_SOCKET, emit (ev_sys (sys_close (socket_ s))) w)
  else (s, w).

(** What the kernel does on its own: the [i]-th operation in flight
    finishes, with success or failure, and its packet is queued (a receive
    that succeeds has the sender address stored first); or the wait itself
    fails. *)
Inductive kernel_event :=
| io_finished (i : nat) (success : bool) (bytes : Z) (from : sockaddr_in)
| wait_fails.

Definition store_sender (r : nat) (success : bool) (from : sockaddr_in)
    (m : gmap nat operation) : gmap nat operation :=
  if success then
    alter (fun op => match op with
                     | receive_operation h buf _ len fl =>
                       receive_operation h buf from len fl
                     | _ => op
                     end) r m
  else m.

Definition io_finished_op (i : nat) (success : bool) (bytes : Z)
    (from : sockaddr_in) (w : world) : world :=
  match inflight w !! i with
  | Some r =>
    mk_world (store_sender r success from (heap w)) (next w)
             (iocp_ w ++ [mk_packet success bytes 0 (Some r)])
             (delete i (inflight w)) (trace w)
  | None => w
  end.

(** The outcome of [GetQueuedCompletionStatus] with an infinite timeout. *)
Inductive wait_result :=
| dequeued (p : packet) (env : list kernel_event) (w : world)
| wait_blocked (w : world).

Fixpoint GetQueuedCompletionStatus (env : list kernel_event) (w : world)
    : wait_result :=
  match iocp_ w with
  | p :: rest => dequeued p env (set_port rest w)
  | [] =>
    match env with
    | [] => wait_blocked w
    | wait_fails :: env' => dequeued (mk_packet false 0 0 None) env' w
    | io_finished i ok n from :: env' =>
      GetQueuedCompletionStatus env' (io_finished_op i ok n from w)
    end
  end.

Inductive run_result :=
| Returned
| Blocked
| OutOfFuel.

(** [iocp_event_loop::run] (lines 227-238). *)
Fixpoint run (fuel : nat) (env : list kernel_event) (w : world)
    : run_result * world :=
  match fuel with
  | O => (OutOfFuel, w)
  | S fuel =>
    match GetQueuedCompletionStatus env w with
    | wait_blocked w => (Blocked, w)
    | dequeued p env w =>
      if status p then
        run fuel env
            match overlapped p with
            | Some ov => handle_completion ov (bytes_transferred p) 0 w
            | None => w
            end
      else (Returned, w)
    end
  end.

Definition initial : world := mk_world ∅ 0 [] [] [].

End Backend.
End Iocp.

(** ** The environment *)

(** Datagram semantics of [recvfrom]/[recvmsg] with flags 0 on a
  non-blocking UDP socket, as POSIX specifies them: the call takes the
  first queued datagram whole, stores as many of its bytes as the buffer
  holds, returns the number stored, and fails with [EAGAIN] when nothing is
  queued. *)
Module Posix.

Record datagram := mk_datagram {
  payload : list Z;
  sender : sockaddr_in
}.

(** The number of bytes stored for a datagram in a buffer of [cap] bytes. *)
Definition stored (d : datagram) (cap : Z) : Z :=
  Z.min (Z.of_nat (length (payload d))) cap.

Definition recvfrom (EAGAIN : Z) (queue : list datagram) (buf : span)
    : recv_result * list datagram :=
  match queue with
  | d :: queue' => (mk_recv_result (stored d (size buf)) 0 (sender d), queue')
  | [] => (mk_recv_result (-1) EAGAIN sockaddr_zero, [])
  end.

(** The outcome of the receive call an event of the trace records: the
    kernel answers for the buffer the code passed. *)
Definition served (EAGAIN : Z) (queue : list datagram) (e : event)
    : option recv_result :=
  match e with
  | ev_sys (sys_recvfrom _ b) => Some (recvfrom EAGAIN queue b).1
  | _ => None
  end.

(** The completion of the [i]-th operation in flight of a ring when the
    datagram [d] arrives for it: a receive stores as much of the datagram
    as the buffer described by the record of its entry holds. *)
Definition ring_arrival {K : IoUring.constants} (d : datagram) (i : nat)
    (w : IoUring.world) : option IoUring.kernel_event :=
  match IoUring.inflight (IoUring.ring_ w) !! i with
  | Some (IoUring.sqe_recvmsg _ m _) =>
    match IoUring.heap w !! m with
    | Some (IoUring.receive_operation _ _ _ (Some iov)) =>
      Some (IoUring.kernel_complete i (stored d (size iov)) (sender d))
    | _ => None
    end
  | _ => None
  end.

End Posix.

(** Datagram semantics of an overlapped [WSARecvFrom] on a UDP socket, as
  Winsock documents them: a queued datagram that fits the buffer completes
  the call at once; one that is longer than the buffer fails it with
  [WSAEMSGSIZE]; with nothing queued the operation is pending. *)
Module Winsock.

Definition WSARecvFrom {K : Iocp.constants} (queue : list Posix.datagram)
    (buf : span) : sys_result * list Posix.datagram :=
  match queue with
  | d :: queue' =>
    if size buf <? Z.of_nat (length (Posix.payload d))
    then (mk_sys_result Iocp.SOCKET_ERROR Iocp.WSAEMSGSIZE, queue')
    else (mk_sys_result 0 0, queue')
  | [] => (mk_sys_result Iocp.SOCKET_ERROR Iocp.WSA_IO_PENDING, [])
  end.

(** The outcome of the receive call an event of the trace records. *)
Definition served {K : Iocp.constants} (queue : list Posix.datagram)
    (e : event) : option sys_result :=
  match e with
  | ev_sys (sys_recvfrom _ b) => Some (WSARecvFrom queue b).1
  | _ => None
  end.

End Winsock.

(** The values of the constants on the three platforms. *)
Definition bsd : Kqueue.constants :=
{| Kqueue.AF_INET := 2;
   Kqueue.EAGAIN := 35;
   Kqueue.EWOULDBLOCK := 35;
   Kqueue.EINTR := 4;
   Kqueue.EVFILT_READ := -1;
   Kqueue.EVFILT_WRITE := -2 |}.

Definition linux : IoUring.constants :=
{| IoUring.AF_INET := 2;
   IoUring.EBUSY := 16;
   IoUring.uninit_addr := mk_sockaddr_in 43690 43690 43690 |}.

Definition windows : Iocp.constants :=
{| Iocp.AF_INET := 2;
   Iocp.SOCKET_ERROR := -1;
   Iocp.WSA_IO_PENDING := 997;
   Iocp.WSAEMSGSIZE := 10040;
   Iocp.INVALID_SOCKET := 18446744073709551615;
   Iocp.uninit_endpoint :=
     mk_endpoint 3435973836 52428 (mk_sockaddr_in 52428 52428 3435973836) |}.

(** * Properties *)

(** ** Traces *)

Module TraceFacts.

Lemma calls_app t1 t2 : calls (t1 ++ t2) = calls t1 ++ calls t2.
Proof. apply omap_app. Qed.

Lemma called_app t1 t2 : called (t1 ++ t2) = called t1 ++ called t2.
Proof. unfold called. by rewrite calls_app, fmap_app. Qed.

Lemma sources_app t1 t2 : sources (t1 ++ t2) = sources t1 ++ sources t2.
Proof. apply omap_app. Qed.

Lemma created_app t1 t2 : created (t1 ++ t2) = created t1 ++ created t2.
Proof. apply omap_app. Qed.

Lemma deleted_app t1 t2 : deleted (t1 ++ t2) = deleted t1 ++ deleted t2.
Proof. apply omap_app. Qed.

Section Accounting.

Context {World Key : Type} `{EqDecision Key}.
Variable fired : World → list handler.
Variable slot : World → Key → option handler.

Lemma moves_refl w : moves fired slot [] w w.
Proof. apply mv_quiet; auto. Qed.

(** The accounting survives every move that hands over fresh handlers. *)
Lemma accounted_moves sub w w' :
  moves fired slot sub w w' →
  ∀ used, accounted fired slot used w → NoDup (used ++ sub) →
          accounted fired slot (used ++ sub) w'.
Proof.
  induction 1 as [w sub|w w' Hf Hs|w w' k h Hk Hf Hk' Hs|w w' h Hf Hs
                 |w w' k h Hf Hk Hs|s1 s2 w w1 w2 H1 IH1 H2 IH2];
    intros used [Hc Hh Hi Ho] Hnd.
  - split; [|by intros k h Hk; split; [apply elem_of_app; left|];
               apply (Hh k h Hk)|done|done].
    intros h Hin. apply elem_of_app. left. by apply Hc.
  - rewrite app_nil_r. split.
    + intros h. rewrite Hf. apply Hc.
    + intros k h Hk. rewrite Hf. destruct (Hs k) as [E|E]; [|congruence].
      apply (Hh k). congruence.
    + intros k1 k2 h H1 H2. destruct (Hs k1) as [E1|E1]; [|congruence].
      destruct (Hs k2) as [E2|E2]; [|congruence].
      apply (Hi k1 k2 h); congruence.
    + by rewrite Hf.
  - rewrite app_nil_r. destruct (Hh k h Hk) as [Hu Hnf]. split.
    + intros h'. rewrite Hf, elem_of_app, list_elem_of_singleton.
      intros [?| ->]; auto.
    + intros k' h' Hk''. destruct (Hs k') as [E|E]; [|congruence].
      rewrite E in Hk''. destruct (Hh k' h' Hk'') as [Hu' Hnf'].
      split; [done|]. rewrite Hf, elem_of_app, list_elem_of_singleton.
      intros [?| ->]; [done|].
      assert (k' = k) as -> by (by apply (Hi k' k h)). congruence.
    + intros k1 k2 h' H1 H2. destruct (Hs k1) as [E1|E1]; [|congruence].
      destruct (Hs k2) as [E2|E2]; [|congruence].
      apply (Hi k1 k2 h'); congruence.
    + rewrite Hf. apply NoDup_app. split; [done|]. split.
      * intros x Hx. rewrite list_elem_of_singleton. intros ->. done.
      * apply NoDup_singleton.
  - apply NoDup_app in Hnd as (Hnd & Hfresh & _).
    assert (h ∉ used) as Hnu.
    { intros Hin. apply (Hfresh h Hin). by apply list_elem_of_singleton. }
    split.
    + intros h'. rewrite Hf, !elem_of_app, list_elem_of_singleton.
      intros [?| ->]; auto.
    + intros k h' Hk. destruct (Hs k) as [E|E]; [|congruence].
      rewrite E in Hk. destruct (Hh k h' Hk) as [Hu' Hnf'].
      split; [apply elem_of_app; auto|].
      rewrite Hf, elem_of_app, list_elem_of_singleton.
      intros [?| ->]; done.
    + intros k1 k2 h' H1 H2. destruct (Hs k1) as [E1|E1]; [|congruence].
      destruct (Hs k2) as [E2|E2]; [|congruence].
      apply (Hi k1 k2 h'); congruence.
    + rewrite Hf. apply NoDup_app. split; [done|]. split.
      * intros x Hx. rewrite list_elem_of_singleton. intros ->. auto.
      * apply NoDup_singleton.
  - apply NoDup_app in Hnd as (Hnd & Hfresh & _).
    assert (h ∉ used) as Hnu.
    { intros Hin. apply (Hfresh h Hin). by apply list_elem_of_singleton. }
    assert (∀ k' h', k' ≠ k → slot w' k' = Some h' → slot w k' = Some h')
      as Hold.
    { intros k' h' Hne Hk''. destruct (Hs k' Hne) as [E|E]; congruence. }
    split.
    + intros h'. rewrite Hf, elem_of_app. auto.
    + intros k' h' Hk''. rewrite Hf. destruct (decide_rel (=) h' h) as [->|Hne].
      { split; [apply elem_of_app; right; by apply list_elem_of_singleton|].
        intros Hin. auto. }
      assert (k' ≠ k) as Hkne by (intros ->; congruence).
      destruct (Hh k' h' (Hold _ _ Hkne Hk'')) as [Hu' Hnf'].
      split; [apply elem_of_app; auto|done].
    + intros k1 k2 h' H1 H2.
      destruct (decide_rel (=) h' h) as [->|Hne].
      * assert (∀ k', slot w' k' = Some h → k' = k) as Honly.
        { intros k' Hk''. apply dec_stable. intros Hkne.
          destruct (Hh k' h (Hold _ _ Hkne Hk'')) as [Hu' _]. done. }
        by rewrite (Honly k1 H1), (Honly k2 H2).
      * assert (k1 ≠ k) as Hk1 by (intros ->; congruence).
        assert (k2 ≠ k) as Hk2 by (intros ->; congruence).
        apply (Hi k1 k2 h'); by apply Hold.
    + by rewrite Hf.
  - rewrite app_assoc in Hnd |- *.
    apply IH2; [|done]. apply IH1; [done|].
    by apply NoDup_app in Hnd as (Hnd & _).
Qed.

(** A handler that is neither held nor called nor handed over again is
    never called. *)
Lemma dropped_moves sub w w' h0 :
  moves fired slot sub w w' →
  h0 ∉ sub → h0 ∉ fired w → (∀ k, slot w k ≠ Some h0) →
  (h0 ∉ fired w') ∧ ∀ k, slot w' k ≠ Some h0.
Proof.
  induction 1 as [w sub|w w' Hf Hs|w w' k h Hk Hf Hk' Hs|w w' h Hf Hs
                 |w w' k h Hf Hk Hs|s1 s2 w w1 w2 H1 IH1 H2 IH2];
    intros Hsub Hnf Hns.
  - done.
  - split; [by rewrite Hf|].
    intros k Hk. destruct (Hs k) as [E|E]; [|congruence].
    apply (Hns k). congruence.
  - split.
    + rewrite Hf, elem_of_app, list_elem_of_singleton.
      intros [?| ->]; [done|]. by apply (Hns k).
    + intros k' Hk''. destruct (Hs k') as [E|E]; [|congruence].
      apply (Hns k'). congruence.
  - split.
    + rewrite Hf, elem_of_app, list_elem_of_singleton.
      intros [?| ->]; [done|]. apply Hsub. by apply list_elem_of_singleton.
    + intros k Hk. destruct (Hs k) as [E|E]; [|congruence].
      apply (Hns k). congruence.
  - split; [by rewrite Hf|].
    intros k' Hk''.
    assert (k' ≠ k) as Hne.
    { intros ->. apply Hsub. apply list_elem_of_singleton. congruence. }
    destruct (Hs k' Hne) as [E|E]; [|congruence].
    apply (Hns k'). congruence.
  - rewrite elem_of_app in Hsub.
    destruct IH1 as [Hnf1 Hns1]; auto.
Qed.

(** A handler found in a slot after a move was there before, or was handed
    over by the move. *)
Lemma moves_origin sub w w' :
  moves fired slot sub w w' →
  ∀ k h, slot w' k = Some h → h ∈ sub ∨ slot w k = Some h.
Proof.
  induction 1 as [w sub|w w' Hf Hs|w w' k h Hk Hf Hk' Hs|w w' h Hf Hs
                 |w w' k h Hf Hk Hs|s1 s2 w w1 w2 H1 IH1 H2 IH2];
    intros k0 h0 Hk0.
  - by right.
  - right. destruct (Hs k0) as [E|E]; congruence.
  - right. destruct (Hs k0) as [E|E]; congruence.
  - right. destruct (Hs k0) as [E|E]; congruence.
  - destruct (decide_rel (=) k0 k) as [->|Hne].
    + left. apply list_elem_of_singleton. congruence.
    + right. destruct (Hs k0 Hne) as [E|E]; congruence.
  - destruct (IH2 k0 h0 Hk0) as [Hin|Hk1].
    + left. apply elem_of_app. by right.
    + destruct (IH1 k0 h0 Hk1) as [Hin|Hk].
      * left. apply elem_of_app. by left.
      * by right.
Qed.

(** A handler that was held, and whose slot has been emptied or refilled
    without a call, is never called afterwards. *)
Lemma dropped_never_fires used sub w w1 w2 h0 :
  accounted fired slot used w →
  (∃ k, slot w k = Some h0) →
  fired w1 = fired w →
  (∀ k, slot w1 k ≠ Some h0) →
  moves fired slot sub w1 w2 →
  h0 ∉ sub →
  h0 ∉ fired w2.
Proof.
  intros Hacc (k & Hk) Hf Hs Hm Hsub.
  destruct (acc_held _ _ _ _ Hacc k h0 Hk) as [_ Hnf].
  apply (dropped_moves sub w1 w2 h0 Hm Hsub); [by rewrite Hf|done].
Qed.

End Accounting.

End TraceFacts.

(** ** The readiness backend *)

Module KqueueFacts.
Import Kqueue.

Section Facts.

Context {K : constants}.

Lemma invoke_trace i w : trace (invoke i w) = trace w ++ [ev_call i].
Proof. unfold invoke. by destruct (h_stops _). Qed.

Lemma invoke_pending i w :
  pending_operations_ (invoke i w) = pending_operations_ w.
Proof. unfold invoke. by destruct (h_stops _). Qed.

Lemma invoke_registered i w : registered (invoke i w) = registered w.
Proof. unfold invoke. by destruct (h_stops _). Qed.

Lemma invoke_global_kq i w : global_kq_ (invoke i w) = global_kq_ w.
Proof. unfold invoke. by destruct (h_stops _). Qed.

Lemma invoke_running i w :
  running_ (invoke i w) = running_ w && negb (h_stops (handler_of i)).
Proof.
  unfold invoke. destruct (h_stops _); simpl; by rewrite ?andb_true_r, ?andb_false_r.
Qed.

Lemma kevent_add_trace kq i f res w :
  trace (kevent_add kq i f res w) = trace w ++ [ev_sys (sys_kevent_add kq i f i)].
Proof. unfold kevent_add. by destruct (ret res <? 0). Qed.

Lemma kevent_add_pending kq i f res w :
  pending_operations_ (kevent_add kq i f res w) = pending_operations_ w.
Proof. unfold kevent_add. by destruct (ret res <? 0). Qed.

Lemma kevent_add_running kq i f res w :
  running_ (kevent_add kq i f res w) = running_ w.
Proof. unfold kevent_add. by destruct (ret res <? 0). Qed.

Lemma kevent_add_global_kq kq i f res w :
  global_kq_ (kevent_add kq i f res w) = global_kq_ w.
Proof. unfold kevent_add. by destruct (ret res <? 0). Qed.

Lemma kevent_add_registered kq i f res w :
  registered (kevent_add kq i f res w)
  = if ret res <? 0 then registered w else {[ (i, f) ]} ∪ registered w.
Proof. unfold kevent_add. by destruct (ret res <? 0). Qed.

(** The three outcomes of the immediate [sendto]. *)
Lemma async_send_to_done s buf ep h snd kev w :
  0 ≤ ret snd →
  async_send_to s buf ep h snd kev w
  = invoke (send_done h 0 (ret snd))
           (emit (ev_sys (sys_sendto (fd_ s) buf (sockaddr_of ep))) w).
Proof.
  intros Hr. unfold async_send_to.
  by rewrite (proj2 (Z.leb_le 0 (ret snd)) Hr).
Qed.

Lemma async_send_to_failed s buf ep h snd kev w :
  ret snd < 0 → errno snd ≠ EAGAIN → errno snd ≠ EWOULDBLOCK →
  async_send_to s buf ep h snd kev w
  = invoke (send_done h (errno snd) 0)
           (emit (ev_sys (sys_sendto (fd_ s) buf (sockaddr_of ep))) w).
Proof.
  intros Hr H1 H2. unfold async_send_to.
  rewrite (proj2 (Z.leb_gt 0 (ret snd)) Hr).
  by rewrite (proj2 (Z.eqb_neq _ _) H1), (proj2 (Z.eqb_neq _ _) H2).
Qed.

Lemma async_send_to_would_block s buf ep h snd kev w :
  ret snd < 0 → errno snd = EAGAIN ∨ errno snd = EWOULDBLOCK →
  async_send_to s buf ep h snd kev w
  = let ops := default pending_ops_default (pending_operations_ w !! fd_ s) in
    let w1 := kevent_add (kq_ s) (fd_ s) EVFILT_WRITE kev
                (set_pending
                   (<[fd_ s := mk_pending_ops (Some h) buf ep (recv_handler ops)
                                              (recv_buffer ops)]>
                      (pending_operations_ w))
                   (emit (ev_sys (sys_sendto (fd_ s) buf (sockaddr_of ep))) w)) in
    if ret kev <? 0
    then let w2 := invoke (send_done h (errno kev) 0) w1 in
         set_pending (alter reset_send (fd_ s) (pending_operations_ w2)) w2
    else w1.
Proof.
  intros Hr He. unfold async_send_to.
  rewrite (proj2 (Z.leb_gt 0 (ret snd)) Hr).
  replace (negb (errno snd =? EAGAIN) && negb (errno snd =? EWOULDBLOCK))
    with false; [done|].
  destruct He as [-> | ->]; rewrite Z.eqb_refl; simpl; by rewrite ?andb_false_r.
Qed.

Lemma async_receive_from_done s buf h rcv kev w :
  0 ≤ r_ret rcv →
  async_receive_from s buf h rcv kev w
  = invoke (recv_done h 0 (r_ret rcv) (endpoint_from (r_addr rcv)))
           (emit (ev_sys (sys_recvfrom (fd_ s) buf)) w).
Proof.
  intros Hr. unfold async_receive_from.
  by rewrite (proj2 (Z.leb_le 0 (r_ret rcv)) Hr).
Qed.

Lemma async_receive_from_failed s buf h rcv kev w :
  r_ret rcv < 0 → r_errno rcv ≠ EAGAIN → r_errno rcv ≠ EWOULDBLOCK →
  async_receive_from s buf h rcv kev w
  = invoke (recv_done h (r_errno rcv) 0 endpoint_zero)
           (emit (ev_sys (sys_recvfrom (fd_ s) buf)) w).
Proof.
  intros Hr H1 H2. unfold async_receive_from.
  rewrite (proj2 (Z.leb_gt 0 (r_ret rcv)) Hr).
  by rewrite (proj2 (Z.eqb_neq _ _) H1), (proj2 (Z.eqb_neq _ _) H2).
Qed.

Lemma async_receive_from_would_block s buf h rcv kev w :
  r_ret rcv < 0 → r_errno rcv = EAGAIN ∨ r_errno rcv = EWOULDBLOCK →
  async_receive_from s buf h rcv kev w
  = let ops := default pending_ops_default (pending_operations_ w !! fd_ s) in
    let w1 := kevent_add (kq_ s) (fd_ s) EVFILT_READ kev
                (set_pending
                   (<[fd_ s := mk_pending_ops (send_handler ops) (send_buffer ops)
                                              (send_endpoint ops) (Some h) buf]>
                      (pending_operations_ w))
                   (emit (ev_sys (sys_recvfrom (fd_ s) buf)) w)) in
    if ret kev <? 0
    then let w2 := invoke (recv_done h (errno kev) 0 endpoint_zero) w1 in
         set_pending (alter reset_recv (fd_ s) (pending_operations_ w2)) w2
    else w1.
Proof.
  intros Hr He. unfold async_receive_from.
  rewrite (proj2 (Z.leb_gt 0 (r_ret rcv)) Hr).
  replace (negb (r_errno rcv =? EAGAIN) && negb (r_errno rcv =? EWOULDBLOCK))
    with false; [done|].
  destruct He as [-> | ->]; rewrite Z.eqb_refl; simpl; by rewrite ?andb_false_r.
Qed.

(** The would-block path when the registration succeeds. *)
Lemma kqueue_immediate_attempt_send_would_block s buf ep h snd kev w :
  ret snd < 0 → errno snd = EAGAIN ∨ errno snd = EWOULDBLOCK → 0 ≤ ret kev →
  trace (async_send_to s buf ep h snd kev w)
  = trace w ++ [ev_sys (sys_sendto (fd_ s) buf (sockaddr_of ep));
                ev_sys (sys_kevent_add (kq_ s) (fd_ s) EVFILT_WRITE (fd_ s))] ∧
  pending_send (async_send_to s buf ep h snd kev w) (fd_ s) = Some h ∧
  send_buffer <$> pending_operations_ (async_send_to s buf ep h snd kev w) !! fd_ s
  = Some buf ∧
  send_endpoint <$> pending_operations_ (async_send_to s buf ep h snd kev w) !! fd_ s
  = Some ep ∧
  pending_recv (async_send_to s buf ep h snd kev w) (fd_ s) = pending_recv w (fd_ s) ∧
  registered (async_send_to s buf ep h snd kev w)
  = {[ (fd_ s, EVFILT_WRITE) ]} ∪ registered w.
Proof.
  intros Hr He Hk. rewrite async_send_to_would_block by done. simpl.
  rewrite (proj2 (Z.ltb_ge (ret kev) 0)) by done.
  unfold pending_send, pending_recv.
  rewrite kevent_add_trace, kevent_add_pending, kevent_add_registered.
  rewrite (proj2 (Z.ltb_ge (ret kev) 0)) by done. simpl.
  rewrite lookup_insert_eq, <- app_assoc. simpl.
  by destruct (pending_operations_ w !! fd_ s).
Qed.

Lemma kqueue_immediate_attempt_receive_would_block s buf h rcv kev w :
  r_ret rcv < 0 → r_errno rcv = EAGAIN ∨ r_errno rcv = EWOULDBLOCK → 0 ≤ ret kev →
  trace (async_receive_from s buf h rcv kev w)
  = trace w ++ [ev_sys (sys_recvfrom (fd_ s) buf);
                ev_sys (sys_kevent_add (kq_ s) (fd_ s) EVFILT_READ (fd_ s))] ∧
  pending_recv (async_receive_from s buf h rcv kev w) (fd_ s) = Some h ∧
  recv_buffer <$> pending_operations_ (async_receive_from s buf h rcv kev w) !! fd_ s
  = Some buf ∧
  pending_send (async_receive_from s buf h rcv kev w) (fd_ s) = pending_send w (fd_ s) ∧
  registered (async_receive_from s buf h rcv kev w)
  = {[ (fd_ s, EVFILT_READ) ]} ∪ registered w.
Proof.
  intros Hr He Hk. rewrite async_receive_from_would_block by done. simpl.
  rewrite (proj2 (Z.ltb_ge (ret kev) 0)) by done.
  unfold pending_send, pending_recv.
  rewrite kevent_add_trace, kevent_add_pending, kevent_add_registered.
  rewrite (proj2 (Z.ltb_ge (ret kev) 0)) by done. simpl.
  rewrite lookup_insert_eq, <- app_assoc. simpl.
  by destruct (pending_operations_ w !! fd_ s).
Qed.

(** C6.  Under the readiness backend [async_send_to] and
    [async_receive_from] begin with the system call itself.  When the call
    succeeds, or fails with an error other than [EAGAIN]/[EWOULDBLOCK],
    the handler is called before the function returns and neither the
    pending table nor the kernel registrations change.  On a would-block
    result, and only then, the operation is stored in the table entry of
    the descriptor, in the slot of its own direction, and the filter of
    that direction is registered; the handler is not called. *)
Theorem kqueue_immediate_attempt s buf ep h snd rcv kev w :
  let ws := async_send_to s buf ep h snd kev w in
  let wr := async_receive_from s buf h rcv kev w in
  let sendto := ev_sys (sys_sendto (fd_ s) buf (sockaddr_of ep)) in
  let recvfrom := ev_sys (sys_recvfrom (fd_ s) buf) in
  (∃ t, trace ws = trace w ++ sendto :: t) ∧
  (∃ t, trace wr = trace w ++ recvfrom :: t) ∧
  (0 ≤ ret snd →
     trace ws = trace w ++ [sendto; ev_call (send_done h 0 (ret snd))] ∧
     pending_operations_ ws = pending_operations_ w ∧
     registered ws = registered w) ∧
  (0 ≤ r_ret rcv →
     trace wr = trace w ++ [recvfrom; ev_call (recv_done h 0 (r_ret rcv)
                                                 (endpoint_from (r_addr rcv)))] ∧
     pending_operations_ wr = pending_operations_ w ∧
     registered wr = registered w) ∧
  (ret snd < 0 → errno snd ≠ EAGAIN → errno snd ≠ EWOULDBLOCK →
     trace ws = trace w ++ [sendto; ev_call (send_done h (errno snd) 0)] ∧
     pending_operations_ ws = pending_operations_ w ∧
     registered ws = registered w) ∧
  (r_ret rcv < 0 → r_errno rcv ≠ EAGAIN → r_errno rcv ≠ EWOULDBLOCK →
     trace wr = trace w ++ [recvfrom; ev_call (recv_done h (r_errno rcv) 0
                                                 endpoint_zero)] ∧
     pending_operations_ wr = pending_operations_ w ∧
     registered wr = registered w) ∧
  (ret snd < 0 → errno snd = EAGAIN ∨ errno snd = EWOULDBLOCK → 0 ≤ ret kev →
     trace ws = trace w ++ [sendto; ev_sys (sys_kevent_add (kq_ s) (fd_ s)
                                              EVFILT_WRITE (fd_ s))] ∧
     pending_send ws (fd_ s) = Some h ∧
     send_buffer <$> pending_operations_ ws !! fd_ s = Some buf ∧
     send_endpoint <$> pending_operations_ ws !! fd_ s = Some ep ∧
     pending_recv ws (fd_ s) = pending_recv w (fd_ s) ∧
     registered ws = {[ (fd_ s, EVFILT_WRITE) ]} ∪ registered w) ∧
  (r_ret rcv < 0 → r_errno rcv = EAGAIN ∨ r_errno rcv = EWOULDBLOCK →
   0 ≤ ret kev →
     trace wr = trace w ++ [recvfrom; ev_sys (sys_kevent_add (kq_ s) (fd_ s)
                                                EVFILT_READ (fd_ s))] ∧
     pending_recv wr (fd_ s) = Some h ∧
     recv_buffer <$> pending_operations_ wr !! fd_ s = Some buf ∧
     pending_send wr (fd_ s) = pending_send w (fd_ s) ∧
     registered wr = {[ (fd_ s, EVFILT_READ) ]} ∪ registered w).
Proof.
  intros ws wr sendto recvfrom. subst ws wr sendto recvfrom.
  split; [|split; [|split; [|split; [|split; [|split; [|split]]]]]].
  - unfold async_send_to.
    repeat (case_match; simpl;
            rewrite ?invoke_trace, ?kevent_add_trace; simpl);
      rewrite <- ?app_assoc; simpl; eauto.
  - unfold async_receive_from.
    repeat (case_match; simpl;
            rewrite ?invoke_trace, ?kevent_add_trace; simpl);
      rewrite <- ?app_assoc; simpl; eauto.
  - intros Hr. rewrite async_send_to_done by done.
    rewrite invoke_trace, invoke_pending, invoke_registered. simpl.
    by rewrite <- app_assoc.
  - intros Hr. rewrite async_receive_from_done by done.
    rewrite invoke_trace, invoke_pending, invoke_registered. simpl.
    by rewrite <- app_assoc.
  - intros Hr H1 H2. rewrite async_send_to_failed by done.
    rewrite invoke_trace, invoke_pending, invoke_registered. simpl.
    by rewrite <- app_assoc.
  - intros Hr H1 H2. rewrite async_receive_from_failed by done.
    rewrite invoke_trace, invoke_pending, invoke_registered. simpl.
    by rewrite <- app_assoc.
  - intros Hr He Hk.
    by apply kqueue_immediate_attempt_send_would_block.
  - intros Hr He Hk.
    by apply kqueue_immediate_attempt_receive_would_block.
Qed.

Lemma kevent_delete_trace kq i f w :
  trace (kevent_delete kq i f w) = trace w ++ [ev_sys (sys_kevent_delete kq i f)].
Proof. done. Qed.

Lemma handle_ready_none fd f snd rcv w :
  pending_operations_ w !! fd = None → handle_ready fd f snd rcv w = w.
Proof. intros H. unfold handle_ready. by rewrite H. Qed.

Lemma handle_ready_blocks fd f snd rcv w :
  handle_ready fd f snd rcv w = ready_read fd f rcv (ready_write fd f snd w).
Proof.
  unfold handle_ready. destruct (pending_operations_ w !! fd) eqn:E; [done|].
  unfold ready_write, ready_read. by rewrite !E.
Qed.

Lemma ready_write_fires fd snd w ops h :
  pending_operations_ w !! fd = Some ops → send_handler ops = Some h →
  ready_write fd EVFILT_WRITE snd w
  = let w1 := emit (ev_sys (sys_sendto fd (send_buffer ops)
                                       (sockaddr_of (send_endpoint ops)))) w in
    let w2 := if 0 <=? ret snd then invoke (send_done h 0 (ret snd)) w1
              else invoke (send_done h (errno snd) 0) w1 in
    kevent_delete (global_kq_ w2) fd EVFILT_WRITE
      (set_pending (alter reset_send fd (pending_operations_ w2)) w2).
Proof. intros Hops Hh. unfold ready_write. by rewrite Hops, Hh, Z.eqb_refl. Qed.

Lemma ready_read_fires fd rcv w ops h :
  pending_operations_ w !! fd = Some ops → recv_handler ops = Some h →
  ready_read fd EVFILT_READ rcv w
  = let w1 := emit (ev_sys (sys_recvfrom fd (recv_buffer ops))) w in
    let ep := if 0 <=? r_ret rcv then endpoint_from (r_addr rcv)
              else endpoint_zero in
    let w2 := if 0 <=? r_ret rcv then invoke (recv_done h 0 (r_ret rcv) ep) w1
              else invoke (recv_done h (r_errno rcv) 0 ep) w1 in
    kevent_delete (global_kq_ w2) fd EVFILT_READ
      (set_pending (alter reset_recv fd (pending_operations_ w2)) w2).
Proof. intros Hops Hh. unfold ready_read. by rewrite Hops, Hh, Z.eqb_refl. Qed.

Lemma ready_write_idle fd f snd w :
  f ≠ EVFILT_WRITE ∨ pending_send w fd = None → ready_write fd f snd w = w.
Proof.
  unfold ready_write, pending_send. intros H.
  destruct (pending_operations_ w !! fd) as [ops|]; [|done]. simpl in H.
  destruct (send_handler ops); [|done].
  destruct H as [H|H]; [|done]. by rewrite (proj2 (Z.eqb_neq _ _) H).
Qed.

Lemma ready_read_idle fd f rcv w :
  f ≠ EVFILT_READ ∨ pending_recv w fd = None → ready_read fd f rcv w = w.
Proof.
  unfold ready_read, pending_recv. intros H.
  destruct (pending_operations_ w !! fd) as [ops|]; [|done]. simpl in H.
  destruct (recv_handler ops); [|done].
  destruct H as [H|H]; [|done]. by rewrite (proj2 (Z.eqb_neq _ _) H).
Qed.

(** A write notification with a send stored: the retry, the call, the
    reset of the slot, the removal of the filter. *)
Lemma handle_ready_write fd snd rcv w ops h :
  EVFILT_WRITE ≠ EVFILT_READ →
  pending_operations_ w !! fd = Some ops → send_handler ops = Some h →
  handle_ready fd EVFILT_WRITE snd rcv w
  = let w1 := emit (ev_sys (sys_sendto fd (send_buffer ops)
                                       (sockaddr_of (send_endpoint ops)))) w in
    let w2 := if 0 <=? ret snd then invoke (send_done h 0 (ret snd)) w1
              else invoke (send_done h (errno snd) 0) w1 in
    kevent_delete (global_kq_ w2) fd EVFILT_WRITE
      (set_pending (alter reset_send fd (pending_operations_ w2)) w2).
Proof.
  intros Hne Hops Hh. rewrite handle_ready_blocks.
  rewrite ready_read_idle by (by left).
  by apply ready_write_fires.
Qed.

Lemma handle_ready_read fd snd rcv w ops h :
  EVFILT_WRITE ≠ EVFILT_READ →
  pending_operations_ w !! fd = Some ops → recv_handler ops = Some h →
  handle_ready fd EVFILT_READ snd rcv w
  = let w1 := emit (ev_sys (sys_recvfrom fd (recv_buffer ops))) w in
    let ep := if 0 <=? r_ret rcv then endpoint_from (r_addr rcv)
              else endpoint_zero in
    let w2 := if 0 <=? r_ret rcv then invoke (recv_done h 0 (r_ret rcv) ep) w1
              else invoke (recv_done h (r_errno rcv) 0 ep) w1 in
    kevent_delete (global_kq_ w2) fd EVFILT_READ
      (set_pending (alter reset_recv fd (pending_operations_ w2)) w2).
Proof.
  intros Hne Hops Hh. rewrite handle_ready_blocks.
  rewrite ready_write_idle by (left; congruence).
  by apply ready_read_fires.
Qed.

Lemma close_open s w :
  0 ≤ fd_ s →
  close s w
  = (mk_socket (-1) (kq_ s),
     emit (ev_sys (sys_close (fd_ s)))
       (set_pending (delete (fd_ s) (pending_operations_ w))
          (kevent_delete (kq_ s) (fd_ s) EVFILT_WRITE
             (kevent_delete (kq_ s) (fd_ s) EVFILT_READ w)))).
Proof. intros H. unfold close. by rewrite (proj2 (Z.leb_le _ _) H). Qed.

Lemma close_closed s w : fd_ s < 0 → close s w = (s, w).
Proof. intros H. unfold close. by rewrite (proj2 (Z.leb_gt _ _) H). Qed.

Lemma kevent_delete_running kq i f w :
  running_ (kevent_delete kq i f w) = running_ w.
Proof. done. Qed.

Lemma ready_write_running fd f snd w :
  running_ (ready_write fd f snd w)
  = running_ w
    && match pending_send w fd with
       | Some h => if f =? EVFILT_WRITE then negb (h_stops h) else true
       | None => true
       end.
Proof.
  unfold ready_write, pending_send.
  destruct (pending_operations_ w !! fd) as [ops|]; simpl;
    [|by rewrite andb_true_r].
  destruct (send_handler ops) as [h|]; [|by rewrite andb_true_r].
  destruct (f =? EVFILT_WRITE); [|by rewrite andb_true_r].
  destruct (0 <=? ret snd); simpl; by rewrite invoke_running.
Qed.

Lemma ready_read_running fd f rcv w :
  running_ (ready_read fd f rcv w)
  = running_ w
    && match pending_recv w fd with
       | Some h => if f =? EVFILT_READ then negb (h_stops h) else true
       | None => true
       end.
Proof.
  unfold ready_read, pending_recv.
  destruct (pending_operations_ w !! fd) as [ops|]; simpl;
    [|by rewrite andb_true_r].
  destruct (recv_handler ops) as [h|]; [|by rewrite andb_true_r].
  destruct (f =? EVFILT_READ); [|by rewrite andb_true_r].
  destruct (0 <=? r_ret rcv); simpl; by rewrite invoke_running.
Qed.

Lemma ready_write_pending_recv fd f snd w fd' :
  pending_recv (ready_write fd f snd w) fd' = pending_recv w fd'.
Proof.
  unfold ready_write, pending_recv.
  destruct (pending_operations_ w !! fd) as [ops|] eqn:E; [|done].
  destruct (send_handler ops) as [h|]; [|done].
  destruct (f =? EVFILT_WRITE); [|done]. simpl.
  assert (∀ w0, pending_operations_
                  (if 0 <=? ret snd then invoke (send_done h 0 (ret snd)) w0
                   else invoke (send_done h (errno snd) 0) w0)
                = pending_operations_ w0) as ->.
  { intros w0. destruct (0 <=? ret snd); apply invoke_pending. }
  simpl. destruct (decide (fd = fd')) as [->|Hne].
  - rewrite lookup_alter_eq, E. done.
  - by rewrite lookup_alter_ne.
Qed.

(** What [handle_ready] does to the flag: each handler it calls may clear
    it, nothing sets it. *)
Lemma handle_ready_running fd f snd rcv w :
  running_ (handle_ready fd f snd rcv w)
  = running_ w
    && match pending_send w fd with
       | Some h => if f =? EVFILT_WRITE then negb (h_stops h) else true
       | None => true
       end
    && match pending_recv w fd with
       | Some h => if f =? EVFILT_READ then negb (h_stops h) else true
       | None => true
       end.
Proof.
  rewrite handle_ready_blocks, ready_read_running, ready_write_running.
  by rewrite ready_write_pending_recv.
Qed.

Lemma handle_ready_stays_stopped fd f snd rcv w :
  running_ w = false → running_ (handle_ready fd f snd rcv w) = false.
Proof. intros H. by rewrite handle_ready_running, H. Qed.

Lemma dispatch_stays_stopped evs w :
  running_ w = false → running_ (dispatch evs w) = false.
Proof.
  revert w. induction evs as [|e evs IH]; intros w H; [done|].
  simpl. apply IH. by apply handle_ready_stays_stopped.
Qed.

Lemma dispatch_app evs1 evs2 w :
  dispatch (evs1 ++ evs2) w = dispatch evs2 (dispatch evs1 w).
Proof. unfold dispatch. by rewrite fold_left_app. Qed.

(** A notification that reaches a handler which stops the loop clears the
    flag. *)
Lemma handle_ready_stops fd f snd rcv w ops h :
  pending_operations_ w !! fd = Some ops →
  f = EVFILT_WRITE ∧ send_handler ops = Some h
  ∨ f = EVFILT_READ ∧ recv_handler ops = Some h →
  h_stops h = true →
  running_ (handle_ready fd f snd rcv w) = false.
Proof.
  intros Hops Hcase Hstop. rewrite handle_ready_running.
  unfold pending_send, pending_recv. rewrite Hops. simpl.
  destruct Hcase as [[-> ->]|[-> ->]]; rewrite Z.eqb_refl, Hstop; simpl;
    by rewrite ?andb_false_r.
Qed.

(** The loop, blocked in [kevent], returns as soon as the call returns once
    the flag is clear. *)
Lemma run_wait_stopped o env w :
  running_ w = false → (run_wait (o :: env) w).1 = Returned.
Proof.
  intros H. destruct o as [evs|e]; simpl.
  - by rewrite dispatch_stays_stopped.
  - rewrite H. by destruct (e =? EINTR).
Qed.

(** *** Accounting for the handlers of the readiness backend *)

Lemma fired_emit_sys c w : fired (emit (ev_sys c) w) = fired w.
Proof.
  unfold fired. simpl. rewrite TraceFacts.called_app. simpl. apply app_nil_r.
Qed.

Lemma fired_invoke i w : fired (invoke i w) = fired w ++ [handler_of i].
Proof. unfold fired. by rewrite invoke_trace, TraceFacts.called_app. Qed.

Lemma fired_kevent_add kq i f res w : fired (kevent_add kq i f res w) = fired w.
Proof.
  unfold fired. rewrite kevent_add_trace, TraceFacts.called_app. apply app_nil_r.
Qed.

Lemma slot_pending w w' k :
  pending_operations_ w' = pending_operations_ w → slot w' k = slot w k.
Proof. intros H. unfold slot, pending_send, pending_recv. by rewrite H. Qed.

Lemma slot_reset_send w w' fd k :
  pending_operations_ w' = alter reset_send fd (pending_operations_ w) →
  slot w' k = if decide (k = (fd, true)) then None else slot w k.
Proof.
  intros H.
  destruct k as [fd' [|]]; unfold slot, pending_send, pending_recv; simpl;
    rewrite H; destruct (decide (fd = fd')) as [->|Hne];
    rewrite ?lookup_alter_eq, ?lookup_alter_ne by done;
    repeat case_decide; simplify_eq; try done;
    by destruct (pending_operations_ w !! fd').
Qed.

Lemma slot_reset_recv w w' fd k :
  pending_operations_ w' = alter reset_recv fd (pending_operations_ w) →
  slot w' k = if decide (k = (fd, false)) then None else slot w k.
Proof.
  intros H.
  destruct k as [fd' [|]]; unfold slot, pending_send, pending_recv; simpl;
    rewrite H; destruct (decide (fd = fd')) as [->|Hne];
    rewrite ?lookup_alter_eq, ?lookup_alter_ne by done;
    repeat case_decide; simplify_eq; try done;
    by destruct (pending_operations_ w !! fd').
Qed.

Lemma slot_store_send w w' fd h buf ep k :
  pending_operations_ w'
  = <[fd := mk_pending_ops (Some h) buf ep
              (recv_handler (default pending_ops_default
                                     (pending_operations_ w !! fd)))
              (recv_buffer (default pending_ops_default
                                    (pending_operations_ w !! fd)))]>
      (pending_operations_ w) →
  slot w' k = if decide (k = (fd, true)) then Some h else slot w k.
Proof.
  intros H.
  destruct k as [fd' [|]]; unfold slot, pending_send, pending_recv; simpl;
    rewrite H; destruct (decide (fd = fd')) as [->|Hne];
    rewrite ?lookup_insert_eq, ?lookup_insert_ne by done;
    repeat case_decide; simplify_eq; try done;
    by destruct (pending_operations_ w !! fd').
Qed.

Lemma slot_store_recv w w' fd h buf k :
  pending_operations_ w'
  = <[fd := mk_pending_ops
              (send_handler (default pending_ops_default
                                     (pending_operations_ w !! fd)))
              (send_buffer (default pending_ops_default
                                    (pending_operations_ w !! fd)))
              (send_endpoint (default pending_ops_default
                                      (pending_operations_ w !! fd)))
              (Some h) buf]>
      (pending_operations_ w) →
  slot w' k = if decide (k = (fd, false)) then Some h else slot w k.
Proof.
  intros H.
  destruct k as [fd' [|]]; unfold slot, pending_send, pending_recv; simpl;
    rewrite H; destruct (decide (fd = fd')) as [->|Hne];
    rewrite ?lookup_insert_eq, ?lookup_insert_ne by done;
    repeat case_decide; simplify_eq; try done;
    by destruct (pending_operations_ w !! fd').
Qed.

Lemma slot_erase w w' fd k :
  pending_operations_ w' = delete fd (pending_operations_ w) →
  slot w' k = if decide (k.1 = fd) then None else slot w k.
Proof.
  intros H.
  destruct k as [fd' b]; unfold slot, pending_send, pending_recv; simpl.
  rewrite H. case_decide as Hd; subst.
  - rewrite lookup_delete_eq. by destruct b.
  - by rewrite lookup_delete_ne.
Qed.

Lemma moves_send s buf ep h snd kev w :
  moves fired slot [h] w (async_send_to s buf ep h snd kev w).
Proof.
  destruct (Z.le_gt_cases 0 (ret snd)) as [Hge|Hlt].
  { rewrite async_send_to_done by done. apply mv_submit_fire.
    - by rewrite fired_invoke, fired_emit_sys.
    - intros k. left. apply slot_pending. by rewrite invoke_pending. }
  destruct (decide (errno snd = EAGAIN ∨ errno snd = EWOULDBLOCK)) as [Hwb|Hhard].
  2:{ rewrite async_send_to_failed by (lia || tauto). apply mv_submit_fire.
      - by rewrite fired_invoke, fired_emit_sys.
      - intros k. left. apply slot_pending. by rewrite invoke_pending. }
  rewrite async_send_to_would_block by done. cbv zeta.
  set (w1 := kevent_add _ _ _ _ _).
  assert (∀ k, slot w1 k = if decide (k = (fd_ s, true)) then Some h
                           else slot w k) as Hslot.
  { intros k. apply (slot_store_send w w1 (fd_ s) h buf ep).
    unfold w1. by rewrite kevent_add_pending. }
  assert (moves fired slot [h] w w1) as Hstore.
  { apply (mv_submit_store _ _ _ _ (fd_ s, true)).
    - unfold w1. rewrite fired_kevent_add. unfold fired. simpl.
      rewrite TraceFacts.called_app. apply app_nil_r.
    - by rewrite Hslot, decide_True.
    - intros k Hk. left. by rewrite Hslot, decide_False. }
  destruct (ret kev <? 0); [|done].
  change [h] with ([h] ++ []). eapply mv_trans; [exact Hstore|].
  set (w2 := set_pending _ _).
  assert (∀ k, slot w2 k = if decide (k = (fd_ s, true)) then None
                           else slot w1 k) as Hslot2.
  { intros k. apply (slot_reset_send w1 w2). unfold w2. simpl.
    by rewrite invoke_pending. }
  apply (mv_fire _ _ _ _ (fd_ s, true) h).
  - by rewrite Hslot, decide_True.
  - unfold w2, fired. simpl. by rewrite invoke_trace, TraceFacts.called_app.
  - by rewrite Hslot2, decide_True.
  - intros k. rewrite Hslot2. case_decide; [by right|by left].
Qed.

Lemma moves_receive s buf h rcv kev w :
  moves fired slot [h] w (async_receive_from s buf h rcv kev w).
Proof.
  destruct (Z.le_gt_cases 0 (r_ret rcv)) as [Hge|Hlt].
  { rewrite async_receive_from_done by done. apply mv_submit_fire.
    - by rewrite fired_invoke, fired_emit_sys.
    - intros k. left. apply slot_pending. by rewrite invoke_pending. }
  destruct (decide (r_errno rcv = EAGAIN ∨ r_errno rcv = EWOULDBLOCK))
    as [Hwb|Hhard].
  2:{ rewrite async_receive_from_failed by (lia || tauto). apply mv_submit_fire.
      - by rewrite fired_invoke, fired_emit_sys.
      - intros k. left. apply slot_pending. by rewrite invoke_pending. }
  rewrite async_receive_from_would_block by done. cbv zeta.
  set (w1 := kevent_add _ _ _ _ _).
  assert (∀ k, slot w1 k = if decide (k = (fd_ s, false)) then Some h
                           else slot w k) as Hslot.
  { intros k. apply (slot_store_recv w w1 (fd_ s) h buf).
    unfold w1. by rewrite kevent_add_pending. }
  assert (moves fired slot [h] w w1) as Hstore.
  { apply (mv_submit_store _ _ _ _ (fd_ s, false)).
    - unfold w1. rewrite fired_kevent_add. unfold fired. simpl.
      rewrite TraceFacts.called_app. apply app_nil_r.
    - by rewrite Hslot, decide_True.
    - intros k Hk. left. by rewrite Hslot, decide_False. }
  destruct (ret kev <? 0); [|done].
  change [h] with ([h] ++ []). eapply mv_trans; [exact Hstore|].
  set (w2 := set_pending _ _).
  assert (∀ k, slot w2 k = if decide (k = (fd_ s, false)) then None
                           else slot w1 k) as Hslot2.
  { intros k. apply (slot_reset_recv w1 w2). unfold w2. simpl.
    by rewrite invoke_pending. }
  apply (mv_fire _ _ _ _ (fd_ s, false) h).
  - by rewrite Hslot, decide_True.
  - unfold w2, fired. simpl. by rewrite invoke_trace, TraceFacts.called_app.
  - by rewrite Hslot2, decide_True.
  - intros k. rewrite Hslot2. case_decide; [by right|by left].
Qed.

Lemma moves_close s w : moves fired slot [] w (close s w).2.
Proof.
  destruct (Z.le_gt_cases 0 (fd_ s)) as [Hge|Hlt].
  - rewrite close_open by done. simpl. apply mv_quiet.
    + unfold fired. simpl. rewrite !TraceFacts.called_app. simpl.
      by rewrite !app_nil_r.
    + intros k. erewrite (slot_erase w) by reflexivity.
      case_decide; [by right|by left].
  - rewrite close_closed by done. apply TraceFacts.moves_refl.
Qed.

Lemma moves_stop w : moves fired slot [] w (stop w).
Proof. by apply mv_quiet; [|left]. Qed.

Lemma moves_set_running b w : moves fired slot [] w (set_running b w).
Proof. by apply mv_quiet; [|left]. Qed.

Lemma moves_ready_write fd f snd w :
  moves fired slot [] w (ready_write fd f snd w).
Proof.
  destruct (pending_operations_ w !! fd) as [ops|] eqn:Hops.
  2:{ rewrite ready_write_idle; [apply TraceFacts.moves_refl|].
      right. unfold pending_send. by rewrite Hops. }
  destruct (send_handler ops) as [h|] eqn:Hh.
  2:{ rewrite ready_write_idle; [apply TraceFacts.moves_refl|].
      right. unfold pending_send. by rewrite Hops. }
  destruct (decide (f = EVFILT_WRITE)) as [->|Hne].
  2:{ rewrite ready_write_idle; [apply TraceFacts.moves_refl|by left]. }
  rewrite (ready_write_fires _ _ _ _ _ Hops Hh). cbv zeta.
  set (w2 := if 0 <=? ret snd then _ else _).
  assert (pending_operations_ w2 = pending_operations_ w) as Hp.
  { unfold w2. destruct (0 <=? ret snd); by rewrite invoke_pending. }
  assert (fired w2 = fired w ++ [h]) as Hf.
  { unfold w2. destruct (0 <=? ret snd);
      by rewrite fired_invoke, fired_emit_sys. }
  set (w3 := kevent_delete _ _ _ _).
  assert (∀ k, slot w3 k = if decide (k = (fd, true)) then None
                           else slot w k) as Hslot.
  { intros k. apply (slot_reset_send w w3). unfold w3. simpl. by rewrite Hp. }
  apply (mv_fire _ _ _ _ (fd, true) h).
  - unfold slot, pending_send. simpl. by rewrite Hops.
  - unfold w3, fired. simpl. rewrite TraceFacts.called_app. simpl.
    rewrite app_nil_r. exact Hf.
  - by rewrite Hslot, decide_True.
  - intros k. rewrite Hslot. case_decide; [by right|by left].
Qed.

Lemma moves_ready_read fd f rcv w :
  moves fired slot [] w (ready_read fd f rcv w).
Proof.
  destruct (pending_operations_ w !! fd) as [ops|] eqn:Hops.
  2:{ rewrite ready_read_idle; [apply TraceFacts.moves_refl|].
      right. unfold pending_recv. by rewrite Hops. }
  destruct (recv_handler ops) as [h|] eqn:Hh.
  2:{ rewrite ready_read_idle; [apply TraceFacts.moves_refl|].
      right. unfold pending_recv. by rewrite Hops. }
  destruct (decide (f = EVFILT_READ)) as [->|Hne].
  2:{ rewrite ready_read_idle; [apply TraceFacts.moves_refl|by left]. }
  rewrite (ready_read_fires _ _ _ _ _ Hops Hh). cbv zeta.
  set (w2 := if 0 <=? r_ret rcv then _ else _).
  assert (pending_operations_ w2 = pending_operations_ w) as Hp.
  { unfold w2. destruct (0 <=? r_ret rcv); by rewrite invoke_pending. }
  assert (fired w2 = fired w ++ [h]) as Hf.
  { unfold w2. destruct (0 <=? r_ret rcv);
      by rewrite fired_invoke, fired_emit_sys. }
  set (w3 := kevent_delete _ _ _ _).
  assert (∀ k, slot w3 k = if decide (k = (fd, false)) then None
                           else slot w k) as Hslot.
  { intros k. apply (slot_reset_recv w w3). unfold w3. simpl. by rewrite Hp. }
  apply (mv_fire _ _ _ _ (fd, false) h).
  - unfold slot, pending_recv. simpl. by rewrite Hops.
  - unfold w3, fired. simpl. rewrite TraceFacts.called_app. simpl.
    rewrite app_nil_r. exact Hf.
  - by rewrite Hslot, decide_True.
  - intros k. rewrite Hslot. case_decide; [by right|by left].
Qed.

Lemma moves_handle_ready fd f snd rcv w :
  moves fired slot [] w (handle_ready fd f snd rcv w).
Proof.
  rewrite handle_ready_blocks. change (@nil handler) with (@nil handler ++ []).
  eapply mv_trans; [apply moves_ready_write|apply moves_ready_read].
Qed.

Lemma moves_dispatch evs w : moves fired slot [] w (dispatch evs w).
Proof.
  revert w. induction evs as [|e evs IH]; intros w; simpl.
  - apply TraceFacts.moves_refl.
  - change (@nil handler) with (@nil handler ++ []).
    eapply mv_trans; [apply moves_handle_ready|apply IH].
Qed.

Lemma moves_run_wait env w : moves fired slot [] w (run_wait env w).2.
Proof.
  revert w. induction env as [|[evs|e] env IH]; intros w; simpl.
  - apply TraceFacts.moves_refl.
  - destruct (running_ (dispatch evs w)); simpl.
    + change (@nil handler) with (@nil handler ++ []).
      eapply mv_trans; [apply moves_dispatch|apply IH].
    + apply moves_dispatch.
  - destruct (e =? EINTR); [|apply TraceFacts.moves_refl].
    destruct (running_ w); [apply IH|apply TraceFacts.moves_refl].
Qed.

Lemma moves_run env w : moves fired slot [] w (run env w).2.
Proof.
  unfold run. change (@nil handler) with (@nil handler ++ []).
  eapply mv_trans; [apply moves_set_running|apply moves_run_wait].
Qed.

Lemma moves_exec a w : moves fired slot (submitted a) w (exec w a).
Proof.
  destruct a; simpl.
  - apply moves_send.
  - apply moves_receive.
  - apply moves_close.
  - apply moves_stop.
  - apply moves_handle_ready.
  - apply moves_run.
Qed.

Lemma moves_execs acts w :
  moves fired slot (acts ≫= submitted) w (foldl exec w acts).
Proof.
  revert w. induction acts as [|a acts IH]; intros w; simpl.
  - apply TraceFacts.moves_refl.
  - eapply mv_trans; [apply moves_exec|apply IH].
Qed.

(** *** The calls each entry point makes *)

Lemma calls_emit_sys c w : calls (trace (emit (ev_sys c) w)) = calls (trace w).
Proof. simpl. rewrite TraceFacts.calls_app. apply app_nil_r. Qed.

Lemma calls_invoke i w : calls (trace (invoke i w)) = calls (trace w) ++ [i].
Proof. by rewrite invoke_trace, TraceFacts.calls_app. Qed.

Lemma calls_kevent_add kq i f res w :
  calls (trace (kevent_add kq i f res w)) = calls (trace w).
Proof. rewrite kevent_add_trace, TraceFacts.calls_app. apply app_nil_r. Qed.

Lemma calls_kevent_delete kq i f w :
  calls (trace (kevent_delete kq i f w)) = calls (trace w).
Proof. rewrite kevent_delete_trace, TraceFacts.calls_app. apply app_nil_r. Qed.

Lemma calls_send s buf ep h snd kev w :
  calls (trace (async_send_to s buf ep h snd kev w))
  = calls (trace w)
    ++ (if 0 <=? ret snd then [send_done h 0 (ret snd)]
        else if negb (errno snd =? EAGAIN) && negb (errno snd =? EWOULDBLOCK)
             then [send_done h (errno snd) 0]
             else if ret kev <? 0 then [send_done h (errno kev) 0] else []).
Proof.
  unfold async_send_to. destruct (0 <=? ret snd).
  { by rewrite calls_invoke, calls_emit_sys. }
  destruct (negb (errno snd =? EAGAIN) && negb (errno snd =? EWOULDBLOCK)).
  { by rewrite calls_invoke, calls_emit_sys. }
  cbv zeta. destruct (ret kev <? 0).
  - change (calls (trace (set_pending ?m ?w))) with (calls (trace w)).
    rewrite calls_invoke, calls_kevent_add.
    change (calls (trace (set_pending ?m ?w))) with (calls (trace w)).
    by rewrite calls_emit_sys.
  - rewrite calls_kevent_add.
    change (calls (trace (set_pending ?m ?w))) with (calls (trace w)).
    by rewrite calls_emit_sys, app_nil_r.
Qed.

Lemma calls_receive s buf h rcv kev w :
  calls (trace (async_receive_from s buf h rcv kev w))
  = calls (trace w)
    ++ (if 0 <=? r_ret rcv
        then [recv_done h 0 (r_ret rcv) (endpoint_from (r_addr rcv))]
        else if negb (r_errno rcv =? EAGAIN) && negb (r_errno rcv =? EWOULDBLOCK)
             then [recv_done h (r_errno rcv) 0 endpoint_zero]
             else if ret kev <? 0 then [recv_done h (errno kev) 0 endpoint_zero]
                  else []).
Proof.
  unfold async_receive_from. destruct (0 <=? r_ret rcv).
  { by rewrite calls_invoke, calls_emit_sys. }
  destruct (negb (r_errno rcv =? EAGAIN) && negb (r_errno rcv =? EWOULDBLOCK)).
  { by rewrite calls_invoke, calls_emit_sys. }
  cbv zeta. destruct (ret kev <? 0).
  - change (calls (trace (set_pending ?m ?w))) with (calls (trace w)).
    rewrite calls_invoke, calls_kevent_add.
    change (calls (trace (set_pending ?m ?w))) with (calls (trace w)).
    by rewrite calls_emit_sys.
  - rewrite calls_kevent_add.
    change (calls (trace (set_pending ?m ?w))) with (calls (trace w)).
    by rewrite calls_emit_sys, app_nil_r.
Qed.

Lemma calls_ready_write fd f snd w :
  calls (trace (ready_write fd f snd w))
  = calls (trace w)
    ++ match pending_send w fd with
       | Some h =>
         if f =? EVFILT_WRITE
         then [if 0 <=? ret snd then send_done h 0 (ret snd)
               else send_done h (errno snd) 0]
         else []
       | None => []
       end.
Proof.
  unfold ready_write, pending_send.
  destruct (pending_operations_ w !! fd) as [ops|]; simpl;
    [|by rewrite app_nil_r].
  destruct (send_handler ops) as [h|]; [|by rewrite app_nil_r].
  destruct (f =? EVFILT_WRITE); [|by rewrite app_nil_r].
  rewrite calls_kevent_delete.
  change (calls (trace (set_pending ?m ?w0))) with (calls (trace w0)).
  destruct (0 <=? ret snd); by rewrite calls_invoke, calls_emit_sys.
Qed.

Lemma calls_ready_read fd f rcv w :
  calls (trace (ready_read fd f rcv w))
  = calls (trace w)
    ++ match pending_recv w fd with
       | Some h =>
         if f =? EVFILT_READ
         then [if 0 <=? r_ret rcv
               then recv_done h 0 (r_ret rcv) (endpoint_from (r_addr rcv))
               else recv_done h (r_errno rcv) 0 endpoint_zero]
         else []
       | None => []
       end.
Proof.
  unfold ready_read, pending_recv.
  destruct (pending_operations_ w !! fd) as [ops|]; simpl;
    [|by rewrite app_nil_r].
  destruct (recv_handler ops) as [h|]; [|by rewrite app_nil_r].
  destruct (f =? EVFILT_READ); [|by rewrite app_nil_r].
  rewrite calls_kevent_delete.
  change (calls (trace (set_pending ?m ?w0))) with (calls (trace w0)).
  destruct (0 <=? r_ret rcv); by rewrite calls_invoke, calls_emit_sys.
Qed.

Lemma calls_handle_ready fd f snd rcv w :
  calls (trace (handle_ready fd f snd rcv w))
  = calls (trace w)
    ++ match pending_send w fd with
       | Some h =>
         if f =? EVFILT_WRITE
         then [if 0 <=? ret snd then send_done h 0 (ret snd)
               else send_done h (errno snd) 0]
         else []
       | None => []
       end
    ++ match pending_recv w fd with
       | Some h =>
         if f =? EVFILT_READ
         then [if 0 <=? r_ret rcv
               then recv_done h 0 (r_ret rcv) (endpoint_from (r_addr rcv))
               else recv_done h (r_errno rcv) 0 endpoint_zero]
         else []
       | None => []
       end.
Proof.
  rewrite handle_ready_blocks, calls_ready_read, calls_ready_write.
  by rewrite ready_write_pending_recv, app_assoc.
Qed.

Lemma slot_ready_write fd f snd w k :
  slot (ready_write fd f snd w) k
  = if decide (k = (fd, true) ∧ f = EVFILT_WRITE) then None else slot w k.
Proof.
  destruct (decide (f = EVFILT_WRITE)) as [->|Hne].
  2:{ rewrite ready_write_idle by (by left). rewrite decide_False; tauto. }
  destruct (pending_operations_ w !! fd) as [ops|] eqn:Hops.
  2:{ rewrite ready_write_idle by (right; unfold pending_send; by rewrite Hops).
      case_decide as Hd; [|done]. destruct Hd as [-> _].
      unfold slot, pending_send. simpl. by rewrite Hops. }
  destruct (send_handler ops) as [h|] eqn:Hh.
  2:{ rewrite ready_write_idle
        by (right; unfold pending_send; rewrite Hops; done).
      case_decide as Hd; [|done]. destruct Hd as [-> _].
      unfold slot, pending_send. simpl. by rewrite Hops. }
  rewrite (ready_write_fires _ _ _ _ _ Hops Hh). cbv zeta.
  set (w2 := if 0 <=? ret snd then _ else _).
  assert (pending_operations_ w2 = pending_operations_ w) as Hp.
  { unfold w2. destruct (0 <=? ret snd); by rewrite invoke_pending. }
  rewrite (slot_reset_send w _ fd) by (simpl; by rewrite Hp).
  repeat case_decide; try done; tauto.
Qed.

Lemma slot_ready_read fd f rcv w k :
  slot (ready_read fd f rcv w) k
  = if decide (k = (fd, false) ∧ f = EVFILT_READ) then None else slot w k.
Proof.
  destruct (decide (f = EVFILT_READ)) as [->|Hne].
  2:{ rewrite ready_read_idle by (by left). rewrite decide_False; tauto. }
  destruct (pending_operations_ w !! fd) as [ops|] eqn:Hops.
  2:{ rewrite ready_read_idle by (right; unfold pending_recv; by rewrite Hops).
      case_decide as Hd; [|done]. destruct Hd as [-> _].
      unfold slot, pending_recv. simpl. by rewrite Hops. }
  destruct (recv_handler ops) as [h|] eqn:Hh.
  2:{ rewrite ready_read_idle
        by (right; unfold pending_recv; rewrite Hops; done).
      case_decide as Hd; [|done]. destruct Hd as [-> _].
      unfold slot, pending_recv. simpl. by rewrite Hops. }
  rewrite (ready_read_fires _ _ _ _ _ Hops Hh). cbv zeta.
  set (w2 := if 0 <=? r_ret rcv then _ else _).
  assert (pending_operations_ w2 = pending_operations_ w) as Hp.
  { unfold w2. destruct (0 <=? r_ret rcv); by rewrite invoke_pending. }
  rewrite (slot_reset_recv w _ fd) by (simpl; by rewrite Hp).
  repeat case_decide; try done; tauto.
Qed.

(** After [handle_ready] the slot of the notified direction is empty. *)
Lemma handle_ready_clears fd snd rcv w :
  pending_send (handle_ready fd EVFILT_WRITE snd rcv w) fd = None ∧
  pending_recv (handle_ready fd EVFILT_READ snd rcv w) fd = None.
Proof.
  rewrite !handle_ready_blocks. split.
  - change (pending_send ?w0 fd) with (slot w0 (fd, true)).
    rewrite slot_ready_read, slot_ready_write.
    rewrite decide_False by (intros [? _]; done). by rewrite decide_True.
  - change (pending_recv ?w0 fd) with (slot w0 (fd, false)).
    rewrite slot_ready_read. by rewrite decide_True.
Qed.

(** The slots after a call that would block: the slot of the call's own
    direction holds the new handler, or nothing when the registration
    failed; whatever it held before is gone. *)
Lemma slot_send_would_block s buf ep h snd kev w k :
  ret snd < 0 → errno snd = EAGAIN ∨ errno snd = EWOULDBLOCK →
  slot (async_send_to s buf ep h snd kev w) k
  = if decide (k = (fd_ s, true))
    then (if ret kev <? 0 then None else Some h)
    else slot w k.
Proof.
  intros Hlt Hwb. rewrite async_send_to_would_block by done. cbv zeta.
  set (w1 := kevent_add _ _ _ _ _).
  assert (∀ k, slot w1 k = if decide (k = (fd_ s, true)) then Some h
                           else slot w k) as Hslot.
  { intros k'. apply (slot_store_send w w1 (fd_ s) h buf ep).
    unfold w1. by rewrite kevent_add_pending. }
  destruct (ret kev <? 0); [|apply Hslot].
  rewrite (slot_reset_send w1 _ (fd_ s)) by (simpl; by rewrite invoke_pending).
  rewrite Hslot. by case_decide.
Qed.

Lemma slot_receive_would_block s buf h rcv kev w k :
  r_ret rcv < 0 → r_errno rcv = EAGAIN ∨ r_errno rcv = EWOULDBLOCK →
  slot (async_receive_from s buf h rcv kev w) k
  = if decide (k = (fd_ s, false))
    then (if ret kev <? 0 then None else Some h)
    else slot w k.
Proof.
  intros Hlt Hwb. rewrite async_receive_from_would_block by done. cbv zeta.
  set (w1 := kevent_add _ _ _ _ _).
  assert (∀ k, slot w1 k = if decide (k = (fd_ s, false)) then Some h
                           else slot w k) as Hslot.
  { intros k'. apply (slot_store_recv w w1 (fd_ s) h buf).
    unfold w1. by rewrite kevent_add_pending. }
  destruct (ret kev <? 0); [|apply Hslot].
  rewrite (slot_reset_recv w1 _ (fd_ s)) by (simpl; by rewrite invoke_pending).
  rewrite Hslot. by case_decide.
Qed.

Lemma accounted_initial kq : accounted fired slot [] (initial kq).
Proof.
  split.
  - intros h Hin. by apply elem_of_nil in Hin.
  - intros [fd [|]] h; unfold slot, pending_send, pending_recv; simpl;
      by rewrite lookup_empty.
  - intros [fd [|]] k2 h; unfold slot, pending_send, pending_recv; simpl;
      by rewrite lookup_empty.
  - apply NoDup_nil_2.
Qed.

Lemma accounted_execs kq acts :
  NoDup (acts ≫= submitted) →
  accounted fired slot (acts ≫= submitted) (foldl exec (initial kq) acts).
Proof.
  intros Hnd.
  apply (TraceFacts.accounted_moves fired slot _ _ _
           (moves_execs acts (initial kq)) [] (accounted_initial kq) Hnd).
Qed.

(** A handler held before an action that neither calls it nor leaves it in
    a slot is not called by anything that follows. *)
Lemma never_again kq acts0 a acts1 h0 :
  NoDup ((acts0 ++ a :: acts1) ≫= submitted) →
  (∃ k, slot (foldl exec (initial kq) acts0) k = Some h0) →
  h0 ∉ fired (exec (foldl exec (initial kq) acts0) a) →
  (∀ k, slot (exec (foldl exec (initial kq) acts0) a) k ≠ Some h0) →
  h0 ∉ fired (foldl exec (initial kq) (acts0 ++ a :: acts1)).
Proof.
  intros Hnd (k & Hk) Hnf Hns. rewrite foldl_app. simpl.
  rewrite bind_app, bind_cons in Hnd.
  apply NoDup_app in Hnd as (Hnd0 & Hdisj & Hnd1).
  destruct (acc_held _ _ _ _ (accounted_execs kq acts0 Hnd0) k h0 Hk)
    as [Hused _].
  apply (TraceFacts.dropped_moves fired slot _ _ _ h0 (moves_execs acts1 _));
    [|done|done].
  intros Hin. apply (Hdisj h0 Hused). apply elem_of_app. by right.
Qed.

(** The first thing [async_receive_from] does is the system call, on the
    caller's buffer, whatever the call then returns. *)
Lemma async_receive_from_asks s buf h rcv kev w :
  ∃ t, trace (async_receive_from s buf h rcv kev w)
       = trace w ++ ev_sys (sys_recvfrom (fd_ s) buf) :: t.
Proof.
  unfold async_receive_from.
  destruct (0 <=? r_ret rcv).
  { rewrite invoke_trace. simpl. rewrite <- app_assoc. by eexists. }
  destruct (negb _ && negb _).
  { rewrite invoke_trace. simpl. rewrite <- app_assoc. by eexists. }
  destruct (ret kev <? 0); simpl.
  - rewrite invoke_trace, kevent_add_trace. simpl. rewrite <- !app_assoc.
    by eexists.
  - rewrite kevent_add_trace. simpl. rewrite <- !app_assoc. by eexists.
Qed.

(** A receive that was stored with its filter registered, retried after a
    read notification: the system call is made on the buffer of the
    original call, its outcome goes to the handler, and the read filter is
    deleted from the queue [global_kq_] names. *)
Lemma stored_receive_retry s buf h rcv0 kev0 w snd rcv :
  EVFILT_WRITE ≠ EVFILT_READ →
  r_ret rcv0 < 0 → r_errno rcv0 = EAGAIN ∨ r_errno rcv0 = EWOULDBLOCK →
  0 ≤ ret kev0 →
  trace (handle_ready (fd_ s) EVFILT_READ snd rcv
           (async_receive_from s buf h rcv0 kev0 w))
  = trace (async_receive_from s buf h rcv0 kev0 w)
    ++ [ev_sys (sys_recvfrom (fd_ s) buf);
        ev_call (if 0 <=? r_ret rcv
                 then recv_done h 0 (r_ret rcv) (endpoint_from (r_addr rcv))
                 else recv_done h (r_errno rcv) 0 endpoint_zero);
        ev_sys (sys_kevent_delete (global_kq_ w) (fd_ s) EVFILT_READ)].
Proof.
  intros Hne Hr He Hk.
  destruct (kqueue_immediate_attempt_receive_would_block s buf h rcv0 kev0 w
              Hr He Hk) as (_ & Hh & Hb & _).
  assert (global_kq_ (async_receive_from s buf h rcv0 kev0 w) = global_kq_ w)
    as Hkq.
  { rewrite async_receive_from_would_block by done. simpl.
    rewrite (proj2 (Z.ltb_ge (ret kev0) 0)) by done.
    by rewrite kevent_add_global_kq. }
  set (w1 := async_receive_from s buf h rcv0 kev0 w) in *.
  unfold pending_recv in Hh.
  destruct (pending_operations_ w1 !! fd_ s) as [ops|] eqn:Hops; [|done].
  simpl in Hh, Hb. injection Hb as Hb.
  rewrite (handle_ready_read _ _ _ _ _ _ Hne Hops Hh). cbv zeta.
  rewrite kevent_delete_trace. simpl. rewrite Hb.
  destruct (0 <=? r_ret rcv); rewrite invoke_global_kq, invoke_trace; simpl;
    rewrite Hkq, <- !app_assoc; done.
Qed.

End Facts.

(** C6 at concrete inputs: a send that completes at once, a send that
    fails with [ECONNREFUSED], and a send and a receive that would block. *)
Lemma kqueue_immediate_attempt_witness :
  let s := mk_socket 3 9 in
  let h := mk_handler 1 false in
  let buf := mk_span 4096 5 in
  let ep := mk_endpoint 2130706433 8080 sockaddr_zero in
  let w := initial 9 in
  let ok := mk_sys_result 0 0 in
  let addr := mk_sockaddr_in 2 36895 16777343 in
  calls (trace (async_send_to (K:=bsd) s buf ep h (mk_sys_result 5 0) ok w))
    = [send_done h 0 5] ∧
  calls (trace (async_receive_from (K:=bsd) s buf h
                  (mk_recv_result 5 0 addr) ok w))
    = [recv_done h 0 5 (mk_endpoint 2130706433 8080 sockaddr_zero)] ∧
  calls (trace (async_send_to (K:=bsd) s buf ep h (mk_sys_result (-1) 61) ok w))
    = [send_done h 61 0] ∧
  calls (trace (async_receive_from (K:=bsd) s buf h
                  (mk_recv_result (-1) 61 sockaddr_zero) ok w))
    = [recv_done h 61 0 endpoint_zero] ∧
  pending_send (async_send_to (K:=bsd) s buf ep h (mk_sys_result (-1) 35) ok w) 3
    = Some h ∧
  pending_recv (async_receive_from (K:=bsd) s buf h
                  (mk_recv_result (-1) 35 sockaddr_zero) ok w) 3
    = Some h.
Proof.
  intros s h buf ep w ok addr.
  pose proof (kqueue_immediate_attempt (K:=bsd) s buf ep h
                (mk_sys_result 5 0) (mk_recv_result 5 0 addr) ok w) as H1.
  pose proof (kqueue_immediate_attempt (K:=bsd) s buf ep h
                (mk_sys_result (-1) 61) (mk_recv_result (-1) 61 sockaddr_zero)
                ok w) as H2.
  pose proof (kqueue_immediate_attempt (K:=bsd) s buf ep h
                (mk_sys_result (-1) 35) (mk_recv_result (-1) 35 sockaddr_zero)
                ok w) as H3.
  cbv zeta in H1, H2, H3.
  destruct H1 as (_ & _ & Hs1 & Hr1 & _).
  destruct H2 as (_ & _ & _ & _ & Hs2 & Hr2 & _).
  destruct H3 as (_ & _ & _ & _ & _ & _ & Hs3 & Hr3).
  destruct (Hs1 ltac:(simpl; lia)) as (E1 & _).
  destruct (Hr1 ltac:(simpl; lia)) as (E2 & _).
  destruct (Hs2 ltac:(simpl; lia) ltac:(simpl; lia) ltac:(simpl; lia)) as (E3 & _).
  destruct (Hr2 ltac:(simpl; lia) ltac:(simpl; lia) ltac:(simpl; lia)) as (E4 & _).
  destruct (Hs3 ltac:(simpl; lia) ltac:(left; reflexivity) ltac:(simpl; lia))
    as (_ & E5 & _).
  destruct (Hr3 ltac:(simpl; lia) ltac:(left; reflexivity) ltac:(simpl; lia))
    as (_ & E6 & _).
  split; [rewrite E1; reflexivity|].
  split; [rewrite E2; reflexivity|].
  split; [rewrite E3; reflexivity|].
  split; [rewrite E4; reflexivity|].
  split; [exact E5 | exact E6].
Defined.

End KqueueFacts.

(** ** The readiness backend with handlers that call back *)

Module KqueueCallFacts.
Import Kqueue KqueueFacts.

Section Facts.

Context {K : constants}.

(** With a handler that makes no call the entry points are those of the
    plain model. *)
Lemma async_send_to_with_none s buf ep h snd kev w :
  async_send_to_with (fun w => w) s buf ep h snd kev w
  = async_send_to s buf ep h snd kev w.
Proof. done. Qed.

Lemma async_receive_from_with_none s buf h rcv kev w :
  async_receive_from_with (fun w => w) s buf h rcv kev w
  = async_receive_from s buf h rcv kev w.
Proof. done. Qed.

Lemma ready_write_with_none fd f snd w :
  ready_write_with (fun w => w) fd f snd w = ready_write fd f snd w.
Proof. done. Qed.

Lemma ready_read_with_none fd f rcv w :
  ready_read_with (fun w => w) fd f rcv w = ready_read fd f rcv w.
Proof. done. Qed.

Lemma handle_ready_with_none e w :
  handle_ready_with (mk_notice e [] []) w
  = handle_ready (udata e) (filter e) (send_outcome e) (recv_outcome e) w.
Proof. done. Qed.

Lemma perform_send s buf ep h snd kev then_ w :
  perform (call_send s buf ep h snd kev then_) w
  = async_send_to_with (performs then_) s buf ep h snd kev w.
Proof. done. Qed.

Lemma perform_receive s buf h rcv kev then_ w :
  perform (call_receive s buf h rcv kev then_) w
  = async_receive_from_with (performs then_) s buf h rcv kev w.
Proof. done. Qed.

Lemma performs_cons c cs w : performs (c :: cs) w = performs cs (perform c w).
Proof. done. Qed.

(** The three outcomes of the immediate attempt. *)
Lemma async_send_to_with_done body s buf ep h snd kev w :
  0 ≤ ret snd →
  async_send_to_with body s buf ep h snd kev w
  = body (invoke (send_done h 0 (ret snd))
            (emit (ev_sys (sys_sendto (fd_ s) buf (sockaddr_of ep))) w)).
Proof.
  intros Hr. unfold async_send_to_with.
  by rewrite (proj2 (Z.leb_le 0 (ret snd)) Hr).
Qed.

Lemma async_send_to_with_failed body s buf ep h snd kev w :
  ret snd < 0 → errno snd ≠ EAGAIN → errno snd ≠ EWOULDBLOCK →
  async_send_to_with body s buf ep h snd kev w
  = body (invoke (send_done h (errno snd) 0)
            (emit (ev_sys (sys_sendto (fd_ s) buf (sockaddr_of ep))) w)).
Proof.
  intros Hr H1 H2. unfold async_send_to_with.
  rewrite (proj2 (Z.leb_gt 0 (ret snd)) Hr).
  by rewrite (proj2 (Z.eqb_neq _ _) H1), (proj2 (Z.eqb_neq _ _) H2).
Qed.

Lemma async_send_to_with_would_block body s buf ep h snd kev w :
  ret snd < 0 → errno snd = EAGAIN ∨ errno snd = EWOULDBLOCK →
  async_send_to_with body s buf ep h snd kev w
  = let ops := default pending_ops_default (pending_operations_ w !! fd_ s) in
    let w1 := kevent_add (kq_ s) (fd_ s) EVFILT_WRITE kev
                (set_pending
                   (<[fd_ s := mk_pending_ops (Some h) buf ep (recv_handler ops)
                                              (recv_buffer ops)]>
                      (pending_operations_ w))
                   (emit (ev_sys (sys_sendto (fd_ s) buf (sockaddr_of ep))) w)) in
    if ret kev <? 0
    then let w2 := body (invoke (send_done h (errno kev) 0) w1) in
         set_pending (alter reset_send (fd_ s) (pending_operations_ w2)) w2
    else w1.
Proof.
  intros Hr He. unfold async_send_to_with.
  rewrite (proj2 (Z.leb_gt 0 (ret snd)) Hr).
  assert (negb (errno snd =? EAGAIN) && negb (errno snd =? EWOULDBLOCK) = false)
    as ->; [|done].
  destruct He as [-> | ->]; rewrite Z.eqb_refl; simpl; by rewrite ?andb_false_r.
Qed.

Lemma async_receive_from_with_done body s buf h rcv kev w :
  0 ≤ r_ret rcv →
  async_receive_from_with body s buf h rcv kev w
  = body (invoke (recv_done h 0 (r_ret rcv) (endpoint_from (r_addr rcv)))
            (emit (ev_sys (sys_recvfrom (fd_ s) buf)) w)).
Proof.
  intros Hr. unfold async_receive_from_with.
  by rewrite (proj2 (Z.leb_le 0 (r_ret rcv)) Hr).
Qed.

Lemma async_receive_from_with_failed body s buf h rcv kev w :
  r_ret rcv < 0 → r_errno rcv ≠ EAGAIN → r_errno rcv ≠ EWOULDBLOCK →
  async_receive_from_with body s buf h rcv kev w
  = body (invoke (recv_done h (r_errno rcv) 0 endpoint_zero)
            (emit (ev_sys (sys_recvfrom (fd_ s) buf)) w)).
Proof.
  intros Hr H1 H2. unfold async_receive_from_with.
  rewrite (proj2 (Z.leb_gt 0 (r_ret rcv)) Hr).
  by rewrite (proj2 (Z.eqb_neq _ _) H1), (proj2 (Z.eqb_neq _ _) H2).
Qed.

Lemma async_receive_from_with_would_block body s buf h rcv kev w :
  r_ret rcv < 0 → r_errno rcv = EAGAIN ∨ r_errno rcv = EWOULDBLOCK →
  async_receive_from_with body s buf h rcv kev w
  = let ops := default pending_ops_default (pending_operations_ w !! fd_ s) in
    let w1 := kevent_add (kq_ s) (fd_ s) EVFILT_READ kev
                (set_pending
                   (<[fd_ s := mk_pending_ops (send_handler ops) (send_buffer ops)
                                              (send_endpoint ops) (Some h) buf]>
                      (pending_operations_ w))
                   (emit (ev_sys (sys_recvfrom (fd_ s) buf)) w)) in
    if ret kev <? 0
    then let w2 := body (invoke (recv_done h (errno kev) 0 endpoint_zero) w1) in
         set_pending (alter reset_recv (fd_ s) (pending_operations_ w2)) w2
    else w1.
Proof.
  intros Hr He. unfold async_receive_from_with.
  rewrite (proj2 (Z.leb_gt 0 (r_ret rcv)) Hr).
  assert (negb (r_errno rcv =? EAGAIN) && negb (r_errno rcv =? EWOULDBLOCK)
          = false) as ->; [|done].
  destruct He as [-> | ->]; rewrite Z.eqb_refl; simpl; by rewrite ?andb_false_r.
Qed.

(** *** What a handler does not depend on

    The calls of a handler never read the handler stored for one direction
    of a descriptor: two worlds that differ only there are taken to worlds
    that differ only there. *)
Lemma alike_refl fd d w : alike fd d w w.
Proof. split; [|done]. intros i. by case_decide. Qed.

Lemma alike_outside fd d a b :
  pending_operations_ a = pending_operations_ b →
  global_kq_ a = global_kq_ b → running_ a = running_ b →
  registered a = registered b → trace a = trace b → alike fd d a b.
Proof. intros Hp ????. split; [|done]. intros i. rewrite Hp. by case_decide. Qed.

Lemma alike_emit fd d e a b : alike fd d a b → alike fd d (emit e a) (emit e b).
Proof. intros (Hp & Hk & Hr & Hg & Ht). split; [done|]. simpl. by rewrite Ht. Qed.

Lemma alike_stop fd d a b : alike fd d a b → alike fd d (stop a) (stop b).
Proof. intros (Hp & Hk & Hr & Hg & Ht). by split. Qed.

Lemma alike_invoke fd d i a b :
  alike fd d a b → alike fd d (invoke i a) (invoke i b).
Proof.
  intros H. unfold invoke. destruct (h_stops _).
  - by apply alike_stop, alike_emit.
  - by apply alike_emit.
Qed.

Lemma alike_kevent_add fd d kq i f res a b :
  alike fd d a b → alike fd d (kevent_add kq i f res a) (kevent_add kq i f res b).
Proof.
  intros (Hp & Hk & Hr & Hg & Ht). unfold kevent_add.
  destruct (ret res <? 0); (split; [done|]); simpl; by rewrite ?Ht, ?Hg.
Qed.

Lemma alike_kevent_delete fd d kq i f a b :
  alike fd d a b → alike fd d (kevent_delete kq i f a) (kevent_delete kq i f b).
Proof.
  intros (Hp & Hk & Hr & Hg & Ht). unfold kevent_delete.
  split; [done|]. simpl. by rewrite ?Ht, ?Hg.
Qed.

Lemma reset_dir_comm d d' x :
  reset_dir d (reset_dir d' x) = reset_dir d' (reset_dir d x).
Proof. by destruct d, d'. Qed.

Lemma alike_reset fd d fd' d' a b :
  alike fd d a b →
  alike fd d
    (set_pending (alter (reset_dir d') fd' (pending_operations_ a)) a)
    (set_pending (alter (reset_dir d') fd' (pending_operations_ b)) b).
Proof.
  intros (Hp & Hrest). split; [|done]. simpl. intros i.
  specialize (Hp i). destruct (decide (i = fd')) as [->|Hne].
  - rewrite !lookup_alter_eq. case_decide as Hd.
    + destruct (pending_operations_ a !! fd') as [x|],
               (pending_operations_ b !! fd') as [y|]; simplify_eq/=; try done.
      f_equal. by rewrite reset_dir_comm, Hp, reset_dir_comm.
    + by rewrite Hp.
  - by rewrite !lookup_alter_ne.
Qed.

Lemma alike_reset_left fd d w :
  alike fd d w (set_pending (alter (reset_dir d) fd (pending_operations_ w)) w).
Proof.
  split; [|done]. simpl. intros i. case_decide as Hd.
  - subst. rewrite lookup_alter_eq.
    destruct (pending_operations_ w !! fd) as [x|]; simpl; [|done].
    f_equal. by destruct d, x.
  - by rewrite lookup_alter_ne.
Qed.

Lemma alike_store_send fd d fd' h buf ep a b :
  alike fd d a b →
  alike fd d
    (set_pending
       (<[fd' := mk_pending_ops (Some h) buf ep
                   (recv_handler (default pending_ops_default
                                          (pending_operations_ a !! fd')))
                   (recv_buffer (default pending_ops_default
                                         (pending_operations_ a !! fd')))]>
          (pending_operations_ a)) a)
    (set_pending
       (<[fd' := mk_pending_ops (Some h) buf ep
                   (recv_handler (default pending_ops_default
                                          (pending_operations_ b !! fd')))
                   (recv_buffer (default pending_ops_default
                                         (pending_operations_ b !! fd')))]>
          (pending_operations_ b)) b).
Proof.
  intros (Hp & Hrest). split; [|done]. simpl. intros i.
  pose proof (Hp i) as Hi. destruct (decide (i = fd')) as [->|Hne].
  - rewrite !lookup_insert_eq. case_decide as Hd.
    + simpl. f_equal.
      destruct (pending_operations_ a !! fd') as [x|],
               (pending_operations_ b !! fd') as [y|]; simplify_eq/=; try done.
      destruct d, x, y; simplify_eq/=; done.
    + by rewrite Hi.
  - by rewrite !lookup_insert_ne.
Qed.

Lemma alike_store_recv fd d fd' h buf a b :
  alike fd d a b →
  alike fd d
    (set_pending
       (<[fd' := mk_pending_ops
                   (send_handler (default pending_ops_default
                                          (pending_operations_ a !! fd')))
                   (send_buffer (default pending_ops_default
                                         (pending_operations_ a !! fd')))
                   (send_endpoint (default pending_ops_default
                                           (pending_operations_ a !! fd')))
                   (Some h) buf]>
          (pending_operations_ a)) a)
    (set_pending
       (<[fd' := mk_pending_ops
                   (send_handler (default pending_ops_default
                                          (pending_operations_ b !! fd')))
                   (send_buffer (default pending_ops_default
                                         (pending_operations_ b !! fd')))
                   (send_endpoint (default pending_ops_default
                                           (pending_operations_ b !! fd')))
                   (Some h) buf]>
          (pending_operations_ b)) b).
Proof.
  intros (Hp & Hrest). split; [|done]. simpl. intros i.
  pose proof (Hp i) as Hi. destruct (decide (i = fd')) as [->|Hne].
  - rewrite !lookup_insert_eq. case_decide as Hd.
    + simpl. f_equal.
      destruct (pending_operations_ a !! fd') as [x|],
               (pending_operations_ b !! fd') as [y|]; simplify_eq/=; try done.
      destruct d, x, y; simplify_eq/=; done.
    + by rewrite Hi.
  - by rewrite !lookup_insert_ne.
Qed.

Lemma alike_fired fd d a b : alike fd d a b → fired a = fired b.
Proof. intros (_ & _ & _ & _ & Ht). unfold fired. by rewrite Ht. Qed.

Lemma alike_slot fd d a b k :
  alike fd d a b → k ≠ (fd, d) → slot a k = slot b k.
Proof.
  intros (Hp & _) Hk. destruct k as [i d']. specialize (Hp i).
  unfold slot, pending_send, pending_recv. simpl.
  case_decide as Hi; [|by rewrite Hp]. subst i.
  destruct (pending_operations_ a !! fd) as [x|],
           (pending_operations_ b !! fd) as [y|]; simplify_eq/=; try done.
  destruct d, d', x, y; simplify_eq/=; congruence.
Qed.

Lemma alike_send_with fd d body s buf ep h snd kev a b :
  (∀ a b, alike fd d a b → alike fd d (body a) (body b)) →
  alike fd d a b →
  alike fd d (async_send_to_with body s buf ep h snd kev a)
             (async_send_to_with body s buf ep h snd kev b).
Proof.
  intros Hbody H. unfold async_send_to_with. cbv zeta.
  destruct (0 <=? ret snd).
  { by apply Hbody, alike_invoke, alike_emit. }
  destruct (negb (errno snd =? EAGAIN) && negb (errno snd =? EWOULDBLOCK)).
  { by apply Hbody, alike_invoke, alike_emit. }
  assert (alike fd d
    (kevent_add (kq_ s) (fd_ s) EVFILT_WRITE kev
       (set_pending
          (<[fd_ s := mk_pending_ops (Some h) buf ep
               (recv_handler (default pending_ops_default
                  (pending_operations_
                     (emit (ev_sys (sys_sendto (fd_ s) buf (sockaddr_of ep))) a)
                   !! fd_ s)))
               (recv_buffer (default pending_ops_default
                  (pending_operations_
                     (emit (ev_sys (sys_sendto (fd_ s) buf (sockaddr_of ep))) a)
                   !! fd_ s)))]>
             (pending_operations_
                (emit (ev_sys (sys_sendto (fd_ s) buf (sockaddr_of ep))) a)))
          (emit (ev_sys (sys_sendto (fd_ s) buf (sockaddr_of ep))) a)))
    (kevent_add (kq_ s) (fd_ s) EVFILT_WRITE kev
       (set_pending
          (<[fd_ s := mk_pending_ops (Some h) buf ep
               (recv_handler (default pending_ops_default
                  (pending_operations_
                     (emit (ev_sys (sys_sendto (fd_ s) buf (sockaddr_of ep))) b)
                   !! fd_ s)))
               (recv_buffer (default pending_ops_default
                  (pending_operations_
                     (emit (ev_sys (sys_sendto (fd_ s) buf (sockaddr_of ep))) b)
                   !! fd_ s)))]>
             (pending_operations_
                (emit (ev_sys (sys_sendto (fd_ s) buf (sockaddr_of ep))) b)))
          (emit (ev_sys (sys_sendto (fd_ s) buf (sockaddr_of ep))) b)))) as H1.
  { by apply alike_kevent_add, alike_store_send, alike_emit. }
  destruct (ret kev <? 0); [|exact H1].
  apply (alike_reset fd d (fd_ s) true). by apply Hbody, alike_invoke.
Qed.

Lemma alike_receive_with fd d body s buf h rcv kev a b :
  (∀ a b, alike fd d a b → alike fd d (body a) (body b)) →
  alike fd d a b →
  alike fd d (async_receive_from_with body s buf h rcv kev a)
             (async_receive_from_with body s buf h rcv kev b).
Proof.
  intros Hbody H. unfold async_receive_from_with. cbv zeta.
  destruct (0 <=? r_ret rcv).
  { by apply Hbody, alike_invoke, alike_emit. }
  destruct (negb (r_errno rcv =? EAGAIN) && negb (r_errno rcv =? EWOULDBLOCK)).
  { by apply Hbody, alike_invoke, alike_emit. }
  assert (alike fd d
    (kevent_add (kq_ s) (fd_ s) EVFILT_READ kev
       (set_pending
          (<[fd_ s := mk_pending_ops
               (send_handler (default pending_ops_default
                  (pending_operations_
                     (emit (ev_sys (sys_recvfrom (fd_ s) buf)) a) !! fd_ s)))
               (send_buffer (default pending_ops_default
                  (pending_operations_
                     (emit (ev_sys (sys_recvfrom (fd_ s) buf)) a) !! fd_ s)))
               (send_endpoint (default pending_ops_default
                  (pending_operations_
                     (emit (ev_sys (sys_recvfrom (fd_ s) buf)) a) !! fd_ s)))
               (Some h) buf]>
             (pending_operations_ (emit (ev_sys (sys_recvfrom (fd_ s) buf)) a)))
          (emit (ev_sys (sys_recvfrom (fd_ s) buf)) a)))
    (kevent_add (kq_ s) (fd_ s) EVFILT_READ kev
       (set_pending
          (<[fd_ s := mk_pending_ops
               (send_handler (default pending_ops_default
                  (pending_operations_
                     (emit (ev_sys (sys_recvfrom (fd_ s) buf)) b) !! fd_ s)))
               (send_buffer (default pending_ops_default
                  (pending_operations_
                     (emit (ev_sys (sys_recvfrom (fd_ s) buf)) b) !! fd_ s)))
               (send_endpoint (default pending_ops_default
                  (pending_operations_
                     (emit (ev_sys (sys_recvfrom (fd_ s) buf)) b) !! fd_ s)))
               (Some h) buf]>
             (pending_operations_ (emit (ev_sys (sys_recvfrom (fd_ s) buf)) b)))
          (emit (ev_sys (sys_recvfrom (fd_ s) buf)) b)))) as H1.
  { by apply alike_kevent_add, alike_store_recv, alike_emit. }
  destruct (ret kev <? 0); [|exact H1].
  apply (alike_reset fd d (fd_ s) false). by apply Hbody, alike_invoke.
Qed.

Lemma alike_performs_of fd d cs :
  Forall (fun c => ∀ a b, alike fd d a b → alike fd d (perform c a) (perform c b))
         cs →
  ∀ a b, alike fd d a b → alike fd d (performs cs a) (performs cs b).
Proof.
  induction 1 as [|c cs Hc _ IH]; intros a b H; [done|].
  rewrite !performs_cons. by apply IH, Hc.
Qed.

(** The calls of a handler take worlds that differ only in the handler
    stored for one direction of one descriptor to worlds that differ only
    there. *)
Lemma alike_perform fd d c :
  ∀ a b, alike fd d a b → alike fd d (perform c a) (perform c b).
Proof.
  induction c as [s buf ep h snd kev then_ IH|s buf h rcv kev then_ IH|]
    using call_ind; intros a b H.
  - rewrite !perform_send. apply alike_send_with; [|done].
    by apply alike_performs_of.
  - rewrite !perform_receive. apply alike_receive_with; [|done].
    by apply alike_performs_of.
  - by apply alike_stop.
Qed.

Lemma alike_performs fd d cs a b :
  alike fd d a b → alike fd d (performs cs a) (performs cs b).
Proof.
  apply alike_performs_of, Forall_forall. intros c _. apply alike_perform.
Qed.

(** *** Accounting for the handlers

    A handler called through the table entry is still stored there while it
    runs.  What it does is the same, slot for slot, as if the entry had
    been reset before the call, except in the slot it was stored in; and
    that slot is emptied when the handler has returned. *)
Lemma fired_set_pending m w : fired (set_pending m w) = fired w.
Proof. done. Qed.

Lemma fired_kevent_delete kq i f w : fired (kevent_delete kq i f w) = fired w.
Proof.
  unfold fired. rewrite kevent_delete_trace, TraceFacts.called_app.
  apply app_nil_r.
Qed.

Lemma moves_after_handler fd d (body : world → world) hs w h w2 w4 :
  (∀ w, moves fired slot hs w (body w)) →
  (∀ a b, alike fd d a b → alike fd d (body a) (body b)) →
  fired w2 = fired w ++ [h] →
  (∀ k, k ≠ (fd, d) → slot w2 k = slot w k) →
  fired w4 = fired (body w2) →
  (∀ k, slot w4 k = if decide (k = (fd, d)) then None else slot (body w2) k) →
  ∃ v, fired v = fired w ++ [h] ∧
       (∀ k, slot v k = if decide (k = (fd, d)) then None else slot w k) ∧
       moves fired slot hs v w4.
Proof.
  intros Hm Ha Hf2 Hs2 Hf4 Hs4.
  set (v := set_pending (alter (reset_dir d) fd (pending_operations_ w2)) w2).
  assert (alike fd d w2 v) as Hv by apply alike_reset_left.
  assert (∀ k, slot v k = if decide (k = (fd, d)) then None else slot w k) as Hsv.
  { intros k. destruct d.
    - rewrite (slot_reset_send w2 v fd) by done. case_decide; [done|by apply Hs2].
    - rewrite (slot_reset_recv w2 v fd) by done. case_decide; [done|by apply Hs2]. }
  exists v. split; [by rewrite <- Hf2|]. split; [done|].
  pose proof (Ha w2 v Hv) as Hb.
  replace hs with (hs ++ []) by apply app_nil_r.
  eapply mv_trans; [apply Hm|]. apply mv_quiet.
  - by rewrite Hf4, (alike_fired _ _ _ _ Hb).
  - intros k. rewrite Hs4. case_decide as Hk; [by right|left].
    by apply (alike_slot fd d).
Qed.

Lemma moves_send_with body hs s buf ep h snd kev w :
  (∀ w, moves fired slot hs w (body w)) →
  (∀ a b, alike (fd_ s) true a b → alike (fd_ s) true (body a) (body b)) →
  moves fired slot (h :: hs) w (async_send_to_with body s buf ep h snd kev w).
Proof.
  intros Hm Ha. change (h :: hs) with ([h] ++ hs).
  destruct (Z.le_gt_cases 0 (ret snd)) as [Hge|Hlt].
  { rewrite async_send_to_with_done by done.
    eapply mv_trans; [|apply Hm]. apply mv_submit_fire.
    - by rewrite fired_invoke, fired_emit_sys.
    - intros k. left. apply slot_pending. by rewrite invoke_pending. }
  destruct (decide (errno snd = EAGAIN ∨ errno snd = EWOULDBLOCK)) as [Hwb|Hhard].
  2:{ rewrite async_send_to_with_failed by (lia || tauto).
      eapply mv_trans; [|apply Hm]. apply mv_submit_fire.
      - by rewrite fired_invoke, fired_emit_sys.
      - intros k. left. apply slot_pending. by rewrite invoke_pending. }
  rewrite async_send_to_with_would_block by done. cbv zeta.
  set (w1 := kevent_add _ _ _ _ _).
  assert (∀ k, slot w1 k = if decide (k = (fd_ s, true)) then Some h
                           else slot w k) as Hslot.
  { intros k. apply (slot_store_send w w1 (fd_ s) h buf ep).
    unfold w1. by rewrite kevent_add_pending. }
  assert (fired w1 = fired w) as Hf1.
  { unfold w1. rewrite fired_kevent_add. unfold fired. simpl.
    rewrite TraceFacts.called_app. apply app_nil_r. }
  destruct (ret kev <? 0).
  2:{ eapply mv_trans; [|apply mv_unused].
      apply (mv_submit_store _ _ _ _ (fd_ s, true)).
      - done.
      - by rewrite Hslot, decide_True.
      - intros k Hk. left. by rewrite Hslot, decide_False. }
  set (w2 := invoke _ w1). set (w4 := set_pending _ _).
  destruct (moves_after_handler (fd_ s) true body hs w h w2 w4 Hm Ha)
    as (v & Hfv & Hsv & Hmv).
  - unfold w2. by rewrite fired_invoke, Hf1.
  - intros k Hk. unfold w2.
    rewrite (slot_pending w1) by (by rewrite invoke_pending).
    by rewrite Hslot, decide_False.
  - done.
  - intros k. by apply (slot_reset_send (body w2) w4).
  - eapply mv_trans; [|exact Hmv]. apply mv_submit_fire; [done|].
    intros k. rewrite Hsv. case_decide; [by right|by left].
Qed.

Lemma moves_receive_with body hs s buf h rcv kev w :
  (∀ w, moves fired slot hs w (body w)) →
  (∀ a b, alike (fd_ s) false a b → alike (fd_ s) false (body a) (body b)) →
  moves fired slot (h :: hs) w (async_receive_from_with body s buf h rcv kev w).
Proof.
  intros Hm Ha. change (h :: hs) with ([h] ++ hs).
  destruct (Z.le_gt_cases 0 (r_ret rcv)) as [Hge|Hlt].
  { rewrite async_receive_from_with_done by done.
    eapply mv_trans; [|apply Hm]. apply mv_submit_fire.
    - by rewrite fired_invoke, fired_emit_sys.
    - intros k. left. apply slot_pending. by rewrite invoke_pending. }
  destruct (decide (r_errno rcv = EAGAIN ∨ r_errno rcv = EWOULDBLOCK))
    as [Hwb|Hhard].
  2:{ rewrite async_receive_from_with_failed by (lia || tauto).
      eapply mv_trans; [|apply Hm]. apply mv_submit_fire.
      - by rewrite fired_invoke, fired_emit_sys.
      - intros k. left. apply slot_pending. by rewrite invoke_pending. }
  rewrite async_receive_from_with_would_block by done. cbv zeta.
  set (w1 := kevent_add _ _ _ _ _).
  assert (∀ k, slot w1 k = if decide (k = (fd_ s, false)) then Some h
                           else slot w k) as Hslot.
  { intros k. apply (slot_store_recv w w1 (fd_ s) h buf).
    unfold w1. by rewrite kevent_add_pending. }
  assert (fired w1 = fired w) as Hf1.
  { unfold w1. rewrite fired_kevent_add. unfold fired. simpl.
    rewrite TraceFacts.called_app. apply app_nil_r. }
  destruct (ret kev <? 0).
  2:{ eapply mv_trans; [|apply mv_unused].
      apply (mv_submit_store _ _ _ _ (fd_ s, false)).
      - done.
      - by rewrite Hslot, decide_True.
      - intros k Hk. left. by rewrite Hslot, decide_False. }
  set (w2 := invoke _ w1). set (w4 := set_pending _ _).
  destruct (moves_after_handler (fd_ s) false body hs w h w2 w4 Hm Ha)
    as (v & Hfv & Hsv & Hmv).
  - unfold w2. by rewrite fired_invoke, Hf1.
  - intros k Hk. unfold w2.
    rewrite (slot_pending w1) by (by rewrite invoke_pending).
    by rewrite Hslot, decide_False.
  - done.
  - intros k. by apply (slot_reset_recv (body w2) w4).
  - eapply mv_trans; [|exact Hmv]. apply mv_submit_fire; [done|].
    intros k. rewrite Hsv. case_decide; [by right|by left].
Qed.

Lemma moves_performs_of cs :
  Forall (fun c => ∀ w, moves fired slot (call_handlers c) w (perform c w)) cs →
  ∀ w, moves fired slot (flat_map call_handlers cs) w (performs cs w).
Proof.
  induction 1 as [|c cs Hc _ IH]; intros w.
  - apply TraceFacts.moves_refl.
  - rewrite performs_cons.
    change (flat_map call_handlers (c :: cs))
      with (call_handlers c ++ flat_map call_handlers cs).
    eapply mv_trans; [apply Hc|apply IH].
Qed.

(** A call, with everything the handlers it invokes do, calls only
    handlers it holds or was handed. *)
Lemma moves_perform c w : moves fired slot (call_handlers c) w (perform c w).
Proof.
  revert w.
  induction c as [s buf ep h snd kev then_ IH|s buf h rcv kev then_ IH|]
    using call_ind; intros w.
  - rewrite perform_send. simpl. apply moves_send_with.
    + by apply moves_performs_of.
    + intros a b. apply alike_performs.
  - rewrite perform_receive. simpl. apply moves_receive_with.
    + by apply moves_performs_of.
    + intros a b. apply alike_performs.
  - apply moves_stop.
Qed.

Lemma moves_performs cs w :
  moves fired slot (flat_map call_handlers cs) w (performs cs w).
Proof.
  apply moves_performs_of, Forall_forall. intros c _. apply moves_perform.
Qed.

Lemma moves_ready_write_with cs fd f snd w :
  moves fired slot (flat_map call_handlers cs) w
        (ready_write_with (performs cs) fd f snd w).
Proof.
  unfold ready_write_with.
  destruct (pending_operations_ w !! fd) as [ops|] eqn:Hops; [|apply mv_unused].
  destruct (send_handler ops) as [h|] eqn:Hh; [|apply mv_unused].
  destruct (f =? EVFILT_WRITE); [|apply mv_unused]. cbv zeta.
  set (w2 := if 0 <=? ret snd then _ else _).
  assert (pending_operations_ w2 = pending_operations_ w) as Hp.
  { unfold w2. destruct (0 <=? ret snd); by rewrite invoke_pending. }
  assert (fired w2 = fired w ++ [h]) as Hf.
  { unfold w2. destruct (0 <=? ret snd);
      by rewrite fired_invoke, fired_emit_sys. }
  set (w4 := kevent_delete _ _ _ _).
  destruct (moves_after_handler fd true (performs cs)
              (flat_map call_handlers cs) w h w2 w4)
    as (v & Hfv & Hsv & Hmv).
  - apply moves_performs.
  - intros a b. apply alike_performs.
  - done.
  - intros k _. by apply slot_pending.
  - unfold w4. by rewrite fired_kevent_delete.
  - intros k. by apply (slot_reset_send (performs cs w2) w4).
  - change (flat_map call_handlers cs) with ([] ++ flat_map call_handlers cs).
    eapply mv_trans; [|exact Hmv]. apply (mv_fire _ _ _ _ (fd, true) h).
    + unfold slot, pending_send. simpl. by rewrite Hops.
    + done.
    + by rewrite Hsv, decide_True.
    + intros k. rewrite Hsv. case_decide; [by right|by left].
Qed.

Lemma moves_ready_read_with cs fd f rcv w :
  moves fired slot (flat_map call_handlers cs) w
        (ready_read_with (performs cs) fd f rcv w).
Proof.
  unfold ready_read_with.
  destruct (pending_operations_ w !! fd) as [ops|] eqn:Hops; [|apply mv_unused].
  destruct (recv_handler ops) as [h|] eqn:Hh; [|apply mv_unused].
  destruct (f =? EVFILT_READ); [|apply mv_unused]. cbv zeta.
  set (w2 := if 0 <=? r_ret rcv then _ else _).
  assert (pending_operations_ w2 = pending_operations_ w) as Hp.
  { unfold w2. destruct (0 <=? r_ret rcv); by rewrite invoke_pending. }
  assert (fired w2 = fired w ++ [h]) as Hf.
  { unfold w2. destruct (0 <=? r_ret rcv);
      by rewrite fired_invoke, fired_emit_sys. }
  set (w4 := kevent_delete _ _ _ _).
  destruct (moves_after_handler fd false (performs cs)
              (flat_map call_handlers cs) w h w2 w4)
    as (v & Hfv & Hsv & Hmv).
  - apply moves_performs.
  - intros a b. apply alike_performs.
  - done.
  - intros k _. by apply slot_pending.
  - unfold w4. by rewrite fired_kevent_delete.
  - intros k. by apply (slot_reset_recv (performs cs w2) w4).
  - change (flat_map call_handlers cs) with ([] ++ flat_map call_handlers cs).
    eapply mv_trans; [|exact Hmv]. apply (mv_fire _ _ _ _ (fd, false) h).
    + unfold slot, pending_recv. simpl. by rewrite Hops.
    + done.
    + by rewrite Hsv, decide_True.
    + intros k. rewrite Hsv. case_decide; [by right|by left].
Qed.

Lemma moves_handle_ready_with n w :
  moves fired slot (notice_handlers n) w (handle_ready_with n w).
Proof.
  unfold handle_ready_with. cbv zeta.
  destruct (pending_operations_ w !! udata (n_ready n)); [|apply mv_unused].
  eapply mv_trans; [apply moves_ready_write_with|apply moves_ready_read_with].
Qed.

Lemma moves_dispatch_with ns w :
  moves fired slot (flat_map notice_handlers ns) w (dispatch_with ns w).
Proof.
  revert w. induction ns as [|n ns IH]; intros w; simpl.
  - apply TraceFacts.moves_refl.
  - eapply mv_trans; [apply moves_handle_ready_with|apply IH].
Qed.

Lemma moves_run_wait_with env w :
  moves fired slot (flat_map outcome_handlers env) w (run_wait_with env w).2.
Proof.
  revert w. induction env as [|[ns|e] env IH]; intros w; simpl.
  - apply TraceFacts.moves_refl.
  - eapply mv_trans; [apply moves_dispatch_with|].
    destruct (running_ (dispatch_with ns w)); [apply IH|apply mv_unused].
  - destruct (e =? EINTR); [|apply mv_unused].
    destruct (running_ w); [apply IH|apply mv_unused].
Qed.

Lemma moves_exec_with a w : moves fired slot (step_handlers a) w (exec_with w a).
Proof.
  destruct a as [c|s|n|env]; simpl.
  - apply moves_perform.
  - apply moves_close.
  - apply moves_handle_ready_with.
  - unfold run_with.
    change (flat_map outcome_handlers env)
      with ([] ++ flat_map outcome_handlers env).
    eapply mv_trans; [apply moves_set_running|apply moves_run_wait_with].
Qed.

Lemma moves_execs_with steps w :
  moves fired slot (steps ≫= step_handlers) w (foldl exec_with w steps).
Proof.
  revert w. induction steps as [|a steps IH]; intros w; simpl.
  - apply TraceFacts.moves_refl.
  - eapply mv_trans; [apply moves_exec_with|apply IH].
Qed.

(** Whatever the application, the loop, the kernel and the handlers do, the
    handlers stay accounted for. *)
Lemma accounted_execs_with kq steps :
  NoDup (steps ≫= step_handlers) →
  accounted fired slot (steps ≫= step_handlers)
            (foldl exec_with (initial kq) steps).
Proof.
  intros Hnd.
  apply (TraceFacts.accounted_moves fired slot _ _ _
           (moves_execs_with steps (initial kq)) [] (accounted_initial kq) Hnd).
Qed.

(** A handler handed over that has not been called and is no longer stored
    is not called by anything that follows. *)
Lemma dropped_with kq steps0 steps1 h0 :
  NoDup ((steps0 ++ steps1) ≫= step_handlers) →
  h0 ∈ steps0 ≫= step_handlers →
  h0 ∉ fired (foldl exec_with (initial kq) steps0) →
  (∀ k, slot (foldl exec_with (initial kq) steps0) k ≠ Some h0) →
  h0 ∉ fired (foldl exec_with (initial kq) (steps0 ++ steps1)).
Proof.
  intros Hnd Hin Hnf Hns. rewrite foldl_app.
  rewrite bind_app in Hnd. apply NoDup_app in Hnd as (_ & Hdisj & _).
  apply (TraceFacts.dropped_moves fired slot _ _ _ h0 (moves_execs_with steps1 _));
    [|done|done].
  by apply Hdisj.
Qed.

(** *** The plain model is the model of handlers that make no call *)
Lemma dispatch_with_quiet evs w :
  dispatch_with (map (fun e => mk_notice e [] []) evs) w = dispatch evs w.
Proof.
  revert w. induction evs as [|e evs IH]; intros w; [done|].
  simpl. rewrite <- IH. done.
Qed.

Lemma run_wait_with_quiet env w :
  run_wait_with (map quiet_outcome env) w = run_wait env w.
Proof.
  revert w. induction env as [|[evs|e] env IH]; intros w; simpl; [done| |].
  - rewrite dispatch_with_quiet.
    destruct (running_ (dispatch evs w)); [apply IH|done].
  - destruct (e =? EINTR); [|done]. destruct (running_ w); [apply IH|done].
Qed.

Lemma exec_with_quiet a w : exec_with w (quiet a) = exec w a.
Proof.
  destruct a; simpl; try done.
  unfold run_with, run. by rewrite run_wait_with_quiet.
Qed.

Lemma execs_with_quiet acts w :
  foldl exec_with w (quiet <$> acts) = foldl exec w acts.
Proof.
  revert w. induction acts as [|a acts IH]; intros w; [done|].
  simpl. by rewrite exec_with_quiet, IH.
Qed.

Lemma step_handlers_quiet a : step_handlers (quiet a) = submitted a.
Proof.
  destruct a as [| | | | |env]; simpl; try done.
  induction env as [|[evs|e] env IH]; simpl; [done| |done].
  rewrite IH, app_nil_r.
  induction evs as [|ev evs IHe]; simpl; [done|]. by rewrite IHe.
Qed.

(** *** The handlers a call invokes before it returns *)
Lemma calls_set_pending m w : calls (trace (set_pending m w)) = calls (trace w).
Proof. done. Qed.

Lemma calls_send_with body s buf ep h snd kev w cs :
  (∀ w, calls (trace (body w)) = calls (trace w) ++ cs) →
  calls (trace (async_send_to_with body s buf ep h snd kev w))
  = calls (trace w)
    ++ (if 0 <=? ret snd then send_done h 0 (ret snd) :: cs
        else if negb (errno snd =? EAGAIN) && negb (errno snd =? EWOULDBLOCK)
             then send_done h (errno snd) 0 :: cs
             else if ret kev <? 0 then send_done h (errno kev) 0 :: cs else []).
Proof.
  intros Hbody. unfold async_send_to_with. cbv zeta.
  destruct (0 <=? ret snd).
  { by rewrite Hbody, calls_invoke, calls_emit_sys, <- app_assoc. }
  destruct (negb (errno snd =? EAGAIN) && negb (errno snd =? EWOULDBLOCK)).
  { by rewrite Hbody, calls_invoke, calls_emit_sys, <- app_assoc. }
  destruct (ret kev <? 0) eqn:Hkev.
  - rewrite calls_set_pending, Hbody, calls_invoke, calls_kevent_add.
    rewrite calls_set_pending, calls_emit_sys. by rewrite <- app_assoc.
  - rewrite calls_kevent_add, calls_set_pending, calls_emit_sys.
    by rewrite app_nil_r.
Qed.

Lemma calls_receive_with body s buf h rcv kev w cs :
  (∀ w, calls (trace (body w)) = calls (trace w) ++ cs) →
  calls (trace (async_receive_from_with body s buf h rcv kev w))
  = calls (trace w)
    ++ (if 0 <=? r_ret rcv
        then recv_done h 0 (r_ret rcv) (endpoint_from (r_addr rcv)) :: cs
        else if negb (r_errno rcv =? EAGAIN) && negb (r_errno rcv =? EWOULDBLOCK)
             then recv_done h (r_errno rcv) 0 endpoint_zero :: cs
             else if ret kev <? 0
                  then recv_done h (errno kev) 0 endpoint_zero :: cs
                  else []).
Proof.
  intros Hbody. unfold async_receive_from_with. cbv zeta.
  destruct (0 <=? r_ret rcv).
  { by rewrite Hbody, calls_invoke, calls_emit_sys, <- app_assoc. }
  destruct (negb (r_errno rcv =? EAGAIN) && negb (r_errno rcv =? EWOULDBLOCK)).
  { by rewrite Hbody, calls_invoke, calls_emit_sys, <- app_assoc. }
  destruct (ret kev <? 0) eqn:Hkev.
  - rewrite calls_set_pending, Hbody, calls_invoke, calls_kevent_add.
    rewrite calls_set_pending, calls_emit_sys. by rewrite <- app_assoc.
  - rewrite calls_kevent_add, calls_set_pending, calls_emit_sys.
    by rewrite app_nil_r.
Qed.

Lemma calls_performs_of cs :
  Forall (fun c => ∀ w, calls (trace (perform c w))
                        = calls (trace w) ++ call_invocations c) cs →
  ∀ w, calls (trace (performs cs w))
       = calls (trace w) ++ flat_map call_invocations cs.
Proof.
  induction 1 as [|c cs Hc _ IH]; intros w.
  - by rewrite app_nil_r.
  - rewrite performs_cons, IH, Hc. simpl. by rewrite <- app_assoc.
Qed.

(** Which handlers a call invokes before it returns, and with what, is
    decided by the outcomes of the system calls alone. *)
Lemma calls_perform c w :
  calls (trace (perform c w)) = calls (trace w) ++ call_invocations c.
Proof.
  revert w.
  induction c as [s buf ep h snd kev then_ IH|s buf h rcv kev then_ IH|]
    using call_ind; intros w.
  - rewrite perform_send. simpl. apply calls_send_with.
    by apply calls_performs_of.
  - rewrite perform_receive. simpl. apply calls_receive_with.
    by apply calls_performs_of.
  - simpl. by rewrite app_nil_r.
Qed.

Lemma calls_performs cs w :
  calls (trace (performs cs w))
  = calls (trace w) ++ flat_map call_invocations cs.
Proof.
  apply calls_performs_of, Forall_forall. intros c _. apply calls_perform.
Qed.

(** What the two blocks of [handle_ready] call, and what they leave
    stored: the stored handler with the result of the retry, then what its
    calls invoke; nothing of that direction is stored afterwards, whatever
    the handler has stored in the meantime. *)
Lemma calls_ready_write_with cs fd f snd w :
  calls (trace (ready_write_with (performs cs) fd f snd w))
  = calls (trace w)
    ++ match pending_send w fd with
       | Some h =>
         if f =? EVFILT_WRITE
         then (if 0 <=? ret snd then send_done h 0 (ret snd)
               else send_done h (errno snd) 0)
              :: flat_map call_invocations cs
         else []
       | None => []
       end.
Proof.
  unfold ready_write_with, pending_send.
  destruct (pending_operations_ w !! fd) as [ops|]; simpl;
    [|by rewrite app_nil_r].
  destruct (send_handler ops) as [h|]; [|by rewrite app_nil_r].
  destruct (f =? EVFILT_WRITE); [|by rewrite app_nil_r].
  rewrite calls_kevent_delete, calls_set_pending, calls_performs.
  destruct (0 <=? ret snd);
    by rewrite calls_invoke, calls_emit_sys, <- app_assoc.
Qed.

Lemma calls_ready_read_with cs fd f rcv w :
  calls (trace (ready_read_with (performs cs) fd f rcv w))
  = calls (trace w)
    ++ match pending_recv w fd with
       | Some h =>
         if f =? EVFILT_READ
         then (if 0 <=? r_ret rcv
               then recv_done h 0 (r_ret rcv) (endpoint_from (r_addr rcv))
               else recv_done h (r_errno rcv) 0 endpoint_zero)
              :: flat_map call_invocations cs
         else []
       | None => []
       end.
Proof.
  unfold ready_read_with, pending_recv.
  destruct (pending_operations_ w !! fd) as [ops|]; simpl;
    [|by rewrite app_nil_r].
  destruct (recv_handler ops) as [h|]; [|by rewrite app_nil_r].
  destruct (f =? EVFILT_READ); [|by rewrite app_nil_r].
  rewrite calls_kevent_delete, calls_set_pending, calls_performs.
  destruct (0 <=? r_ret rcv);
    by rewrite calls_invoke, calls_emit_sys, <- app_assoc.
Qed.

Lemma ready_write_with_clears body fd snd w :
  pending_send (ready_write_with body fd EVFILT_WRITE snd w) fd = None.
Proof.
  unfold ready_write_with.
  destruct (pending_operations_ w !! fd) as [ops|] eqn:Hops;
    [|unfold pending_send; by rewrite Hops].
  destruct (send_handler ops) as [h|] eqn:Hh;
    [|unfold pending_send; rewrite Hops; simpl; done].
  rewrite Z.eqb_refl. cbv zeta. unfold pending_send. simpl.
  rewrite lookup_alter_eq.
  match goal with |- (_ <$> ?x) ≫= _ = _ => by destruct x end.
Qed.

Lemma ready_read_with_clears body fd rcv w :
  pending_recv (ready_read_with body fd EVFILT_READ rcv w) fd = None.
Proof.
  unfold ready_read_with.
  destruct (pending_operations_ w !! fd) as [ops|] eqn:Hops;
    [|unfold pending_recv; by rewrite Hops].
  destruct (recv_handler ops) as [h|] eqn:Hh;
    [|unfold pending_recv; rewrite Hops; simpl; done].
  rewrite Z.eqb_refl. cbv zeta. unfold pending_recv. simpl.
  rewrite lookup_alter_eq.
  match goal with |- (_ <$> ?x) ≫= _ = _ => by destruct x end.
Qed.

(** [handle_ready] is its two blocks in turn: for a descriptor without a
    table entry both find nothing stored. *)
Lemma handle_ready_with_blocks n w :
  handle_ready_with n w
  = ready_read_with (performs (on_read n)) (udata (n_ready n))
      (filter (n_ready n)) (recv_outcome (n_ready n))
      (ready_write_with (performs (on_write n)) (udata (n_ready n))
         (filter (n_ready n)) (send_outcome (n_ready n)) w).
Proof.
  unfold handle_ready_with. cbv zeta.
  destruct (pending_operations_ w !! udata (n_ready n)) eqn:Hops; [done|].
  unfold ready_write_with, ready_read_with. by rewrite !Hops.
Qed.

(** *** Handlers that are never called *)

Lemma invocations_handlers_of cs :
  Forall (fun c => ∀ i, i ∈ call_invocations c → handler_of i ∈ call_handlers c)
         cs →
  ∀ i, i ∈ flat_map call_invocations cs →
       handler_of i ∈ flat_map call_handlers cs.
Proof.
  induction 1 as [|c cs Hc _ IH]; intros i Hin; simpl in *.
  - by apply elem_of_nil in Hin.
  - apply elem_of_app in Hin as [Hin|Hin]; apply elem_of_app; auto.
Qed.

(** The handlers a call invokes are among those it was handed. *)
Lemma invocations_handlers c i :
  i ∈ call_invocations c → handler_of i ∈ call_handlers c.
Proof.
  revert i.
  induction c as [s buf ep h snd kev then_ IH|s buf h rcv kev then_ IH|]
    using call_ind; intros i; simpl.
  - pose proof (invocations_handlers_of then_ IH) as Hsub.
    destruct (0 <=? ret snd);
      [|destruct (negb _ && negb _); [|destruct (ret kev <? 0)]];
      rewrite ?elem_of_cons; try (intros [->|Hin]; [by left|right; by apply Hsub]).
    intros Hin. by apply elem_of_nil in Hin.
  - pose proof (invocations_handlers_of then_ IH) as Hsub.
    destruct (0 <=? r_ret rcv);
      [|destruct (negb _ && negb _); [|destruct (ret kev <? 0)]];
      rewrite ?elem_of_cons; try (intros [->|Hin]; [by left|right; by apply Hsub]).
    intros Hin. by apply elem_of_nil in Hin.
  - intros Hin. by apply elem_of_nil in Hin.
Qed.

Lemma fired_perform c w :
  fired (perform c w) = fired w ++ (handler_of <$> call_invocations c).
Proof. unfold fired, called. by rewrite calls_perform, fmap_app. Qed.

(** After a call that would block, the slot of its direction holds its
    handler, or nothing when the registration has failed. *)
Lemma slot_send_with_would_block body s buf ep h snd kev w :
  ret snd < 0 → errno snd = EAGAIN ∨ errno snd = EWOULDBLOCK →
  pending_send (async_send_to_with body s buf ep h snd kev w) (fd_ s)
  = if ret kev <? 0 then None else Some h.
Proof.
  intros Hlt Hwb. rewrite async_send_to_with_would_block by done. cbv zeta.
  unfold pending_send. destruct (ret kev <? 0).
  - simpl. rewrite lookup_alter_eq.
    match goal with |- (_ <$> ?x) ≫= _ = _ => by destruct x end.
  - rewrite kevent_add_pending. simpl. by rewrite lookup_insert_eq.
Qed.

Lemma slot_receive_with_would_block body s buf h rcv kev w :
  r_ret rcv < 0 → r_errno rcv = EAGAIN ∨ r_errno rcv = EWOULDBLOCK →
  pending_recv (async_receive_from_with body s buf h rcv kev w) (fd_ s)
  = if ret kev <? 0 then None else Some h.
Proof.
  intros Hlt Hwb. rewrite async_receive_from_with_would_block by done. cbv zeta.
  unfold pending_recv. destruct (ret kev <? 0).
  - simpl. rewrite lookup_alter_eq.
    match goal with |- (_ <$> ?x) ≫= _ = _ => by destruct x end.
  - rewrite kevent_add_pending. simpl. by rewrite lookup_insert_eq.
Qed.

(** A handler held before a step that neither calls it nor leaves it in a
    slot is not called by anything that follows. *)
Lemma never_again_with kq steps0 a steps1 h0 :
  NoDup ((steps0 ++ a :: steps1) ≫= step_handlers) →
  (∃ k, slot (foldl exec_with (initial kq) steps0) k = Some h0) →
  h0 ∉ fired (exec_with (foldl exec_with (initial kq) steps0) a) →
  (∀ k, slot (exec_with (foldl exec_with (initial kq) steps0) a) k ≠ Some h0) →
  h0 ∉ fired (foldl exec_with (initial kq) (steps0 ++ a :: steps1)).
Proof.
  intros Hnd (k & Hk) Hnf Hns. rewrite foldl_app. simpl.
  rewrite bind_app, bind_cons in Hnd.
  apply NoDup_app in Hnd as (Hnd0 & Hdisj & Hnd1).
  destruct (acc_held _ _ _ _ (accounted_execs_with kq steps0 Hnd0) k h0 Hk)
    as [Hused _].
  apply (TraceFacts.dropped_moves fired slot _ _ _ h0
           (moves_execs_with steps1 _)); [|done|done].
  intros Hin. apply (Hdisj h0 Hused). apply elem_of_app. by right.
Qed.

(** A stored handler is never called once a later call in the same
    direction on the same descriptor would block -- whoever makes that
    call -- *)
Lemma overwritten_send_never_called kq steps0 steps1 s buf ep h snd kev then_ h0 :
  NoDup ((steps0 ++ step_call (call_send s buf ep h snd kev then_) :: steps1)
           ≫= step_handlers) →
  pending_send (foldl exec_with (initial kq) steps0) (fd_ s) = Some h0 →
  ret snd < 0 →
  errno snd = EAGAIN ∨ errno snd = EWOULDBLOCK →
  h0 ∉ fired (foldl exec_with (initial kq)
                (steps0 ++ step_call (call_send s buf ep h snd kev then_)
                        :: steps1)).
Proof.
  intros Hnd Hheld Hlt Hwb.
  set (c := call_send s buf ep h snd kev then_) in *.
  set (w := foldl exec_with (initial kq) steps0) in *.
  assert (NoDup (steps0 ≫= step_handlers)
          ∧ ∀ x, x ∈ steps0 ≫= step_handlers → x ∉ call_handlers c)
    as [Hnd0 Hfresh].
  { rewrite bind_app, bind_cons in Hnd.
    apply NoDup_app in Hnd as (Hnd0 & Hdisj & _). split; [done|].
    intros x Hx Hin. apply (Hdisj x Hx). apply elem_of_app. by left. }
  pose proof (accounted_execs_with kq steps0 Hnd0) as Hacc. fold w in Hacc.
  destruct (acc_held _ _ _ _ Hacc (fd_ s, true) h0 Hheld) as [Hu Hnf].
  apply (never_again_with kq steps0 _ steps1 h0 Hnd).
  - by exists (fd_ s, true).
  - fold w. change (exec_with w (step_call c)) with (perform c w).
    rewrite fired_perform, elem_of_app.
    intros [Hin|Hin]; [done|].
    apply list_elem_of_fmap in Hin as (i & -> & Hi).
    by apply (Hfresh _ Hu), invocations_handlers.
  - fold w. change (exec_with w (step_call c)) with (perform c w).
    intros k Hk.
    destruct (TraceFacts.moves_origin fired slot _ _ _ (moves_perform c w)
                k h0 Hk) as [Hin|Hold]; [by apply (Hfresh _ Hu)|].
    pose proof (acc_inj _ _ _ _ Hacc k (fd_ s, true) h0 Hold Hheld) as ->.
    change (pending_send (perform c w) (fd_ s) = Some h0) in Hk.
    revert Hk. unfold c. rewrite perform_send.
    rewrite slot_send_with_would_block by done.
    destruct (ret kev <? 0); [done|]. intros [= ->].
    apply (Hfresh _ Hu). simpl. apply elem_of_cons. by left.
Qed.

Lemma overwritten_receive_never_called kq steps0 steps1 s buf h rcv kev then_ h0 :
  NoDup ((steps0 ++ step_call (call_receive s buf h rcv kev then_) :: steps1)
           ≫= step_handlers) →
  pending_recv (foldl exec_with (initial kq) steps0) (fd_ s) = Some h0 →
  r_ret rcv < 0 →
  r_errno rcv = EAGAIN ∨ r_errno rcv = EWOULDBLOCK →
  h0 ∉ fired (foldl exec_with (initial kq)
                (steps0 ++ step_call (call_receive s buf h rcv kev then_)
                        :: steps1)).
Proof.
  intros Hnd Hheld Hlt Hwb.
  set (c := call_receive s buf h rcv kev then_) in *.
  set (w := foldl exec_with (initial kq) steps0) in *.
  assert (NoDup (steps0 ≫= step_handlers)
          ∧ ∀ x, x ∈ steps0 ≫= step_handlers → x ∉ call_handlers c)
    as [Hnd0 Hfresh].
  { rewrite bind_app, bind_cons in Hnd.
    apply NoDup_app in Hnd as (Hnd0 & Hdisj & _). split; [done|].
    intros x Hx Hin. apply (Hdisj x Hx). apply elem_of_app. by left. }
  pose proof (accounted_execs_with kq steps0 Hnd0) as Hacc. fold w in Hacc.
  destruct (acc_held _ _ _ _ Hacc (fd_ s, false) h0 Hheld) as [Hu Hnf].
  apply (never_again_with kq steps0 _ steps1 h0 Hnd).
  - by exists (fd_ s, false).
  - fold w. change (exec_with w (step_call c)) with (perform c w).
    rewrite fired_perform, elem_of_app.
    intros [Hin|Hin]; [done|].
    apply list_elem_of_fmap in Hin as (i & -> & Hi).
    by apply (Hfresh _ Hu), invocations_handlers.
  - fold w. change (exec_with w (step_call c)) with (perform c w).
    intros k Hk.
    destruct (TraceFacts.moves_origin fired slot _ _ _ (moves_perform c w)
                k h0 Hk) as [Hin|Hold]; [by apply (Hfresh _ Hu)|].
    pose proof (acc_inj _ _ _ _ Hacc k (fd_ s, false) h0 Hold Hheld) as ->.
    change (pending_recv (perform c w) (fd_ s) = Some h0) in Hk.
    revert Hk. unfold c. rewrite perform_receive.
    rewrite slot_receive_with_would_block by done.
    destruct (ret kev <? 0); [done|]. intros [= ->].
    apply (Hfresh _ Hu). simpl. apply elem_of_cons. by left.
Qed.

(** -- or once [close()] has erased the entry of the descriptor -- *)
Lemma erased_never_called kq steps0 steps1 s h0 :
  NoDup ((steps0 ++ step_close s :: steps1) ≫= step_handlers) →
  pending_send (foldl exec_with (initial kq) steps0) (fd_ s) = Some h0
  ∨ pending_recv (foldl exec_with (initial kq) steps0) (fd_ s) = Some h0 →
  0 ≤ fd_ s →
  h0 ∉ fired (foldl exec_with (initial kq) (steps0 ++ step_close s :: steps1)).
Proof.
  intros Hnd Hheld Hfd.
  set (w := foldl exec_with (initial kq) steps0) in *.
  assert (NoDup (steps0 ≫= step_handlers)) as Hnd0.
  { rewrite bind_app in Hnd. by apply NoDup_app in Hnd as (Hnd0 & _). }
  pose proof (accounted_execs_with kq steps0 Hnd0) as Hacc. fold w in Hacc.
  assert (∃ b, slot w (fd_ s, b) = Some h0) as (b & Hb).
  { destruct Hheld; [by exists true|by exists false]. }
  destruct (acc_held _ _ _ _ Hacc _ h0 Hb) as [Hu Hnf].
  apply (never_again_with kq steps0 _ steps1 h0 Hnd).
  - by exists (fd_ s, b).
  - fold w. simpl. rewrite close_open by done.
    unfold fired. simpl. rewrite !TraceFacts.called_app. simpl.
    by rewrite !app_nil_r.
  - fold w. simpl. rewrite close_open by done. simpl. intros k.
    rewrite (slot_erase w _ (fd_ s)) by reflexivity.
    case_decide as Hk; [done|]. intros Hk'. apply Hk.
    by rewrite (acc_inj _ _ _ _ Hacc k _ h0 Hk' Hb).
Qed.

End Facts.

(** The receive handler of the echo server (lines 867-893): it sends the
    datagram back and starts the next receive.  The first receive would
    block: it is stored and its filter registered.  When the descriptor is
    readable [handle_ready] calls the handler; the send it starts completes
    at once; the receive it starts would block in its turn and is stored
    and registered; then [handle_ready] resets the entry and deletes the
    filter.  The handler of the second receive is left neither stored nor
    registered, and it has not been called. *)
Example rearmed_receive_is_dropped :
  let s := mk_socket 3 9 in
  let h1 := mk_handler 1 false in
  let h2 := mk_handler 2 false in
  let h3 := mk_handler 3 false in
  let buf := mk_span 4096 1024 in
  let busy := mk_recv_result (-1) 35 sockaddr_zero in
  let ok := mk_sys_result 0 0 in
  let from := mk_sockaddr_in 2 36895 16777343 in
  let peer := mk_endpoint 2130706433 8080 sockaddr_zero in
  let echo := call_send s (mk_span 4096 5) peer h3 (mk_sys_result 5 0) ok [] in
  let rearm := call_receive s buf h2 busy ok [] in
  let readable := mk_notice (mk_ready 3 (-1) ok (mk_recv_result 5 0 from))
                            [] [echo; rearm] in
  let w := foldl (exec_with (K:=bsd)) (initial 9)
                 [step_call (call_receive s buf h1 busy ok []);
                  step_run [wait_notices [readable]]] in
  trace w
  = [ev_sys (sys_recvfrom 3 buf);
     ev_sys (sys_kevent_add 9 3 (-1) 3);
     ev_sys (sys_recvfrom 3 buf);
     ev_call (recv_done h1 0 5 peer);
     ev_sys (sys_sendto 3 (mk_span 4096 5) from);
     ev_call (send_done h3 0 5);
     ev_sys (sys_recvfrom 3 buf);
     ev_sys (sys_kevent_add 9 3 (-1) 3);
     ev_sys (sys_kevent_delete 9 3 (-1))] ∧
  pending_recv w 3 = None ∧
  bool_decide ((3, -1) ∈ registered w) = false ∧
  running_ w = true.
Proof. by vm_compute. Qed.

End KqueueCallFacts.

(** ** The ring backend *)

Module IoUringFacts.
Import IoUring.

Section Facts.

Context {K : constants}.

Lemma stop_trace w : trace (stop w) = trace w.
Proof. unfold stop. by destruct (io_uring_get_sqe _). Qed.

Lemma stop_heap w : heap (stop w) = heap w.
Proof. unfold stop. by destruct (io_uring_get_sqe _). Qed.

Lemma stop_next w : next (stop w) = next w.
Proof. unfold stop. by destruct (io_uring_get_sqe _). Qed.

Lemma stop_running w : running_ (stop w) = false.
Proof. unfold stop. by destruct (io_uring_get_sqe _). Qed.

Lemma stop_full w : io_uring_get_sqe w = false → stop w = set_running false w.
Proof.
  intros H. unfold stop.
  assert (io_uring_get_sqe (set_running false w) = io_uring_get_sqe w) as -> by done.
  by rewrite H.
Qed.

Lemma stop_room w :
  io_uring_get_sqe w = true →
  stop w = io_uring_submit (push_sqe (sqe_nop (stale_user_data w))
                                     (set_running false w)).
Proof.
  intros H. unfold stop.
  assert (io_uring_get_sqe (set_running false w) = io_uring_get_sqe w) as -> by done.
  by rewrite H.
Qed.

Lemma ring_invoke_trace i w : trace (invoke i w) = trace w ++ [ev_call i].
Proof. unfold invoke. destruct (h_stops _); by rewrite ?stop_trace. Qed.

Lemma ring_invoke_heap i w : heap (invoke i w) = heap w.
Proof. unfold invoke. destruct (h_stops _); by rewrite ?stop_heap. Qed.

Lemma ring_invoke_next i w : next (invoke i w) = next w.
Proof. unfold invoke. destruct (h_stops _); by rewrite ?stop_next. Qed.

Lemma ring_invoke_running i w :
  running_ (invoke i w) = running_ w && negb (h_stops (handler_of i)).
Proof.
  unfold invoke. destruct (h_stops _); rewrite ?stop_running; simpl;
    by rewrite ?andb_true_r, ?andb_false_r.
Qed.

(** With the submission queue full a handler cannot change the ring, even
    one that stops the loop. *)
Lemma ring_invoke_full i w :
  io_uring_get_sqe w = false → ring_ (invoke i w) = ring_ w.
Proof.
  intros H. unfold invoke. destruct (h_stops _); [|done].
  by rewrite stop_full.
Qed.

Lemma complete_send r result w h a l :
  heap w !! r = Some (send_operation h a l) →
  complete r result w
  = delete_this r (if result <? 0 then invoke (send_done h (- result) 0) w
                   else invoke (send_done h 0 result) w).
Proof. intros H. unfold complete. by rewrite H. Qed.

Lemma complete_receive r result w h a l iov :
  heap w !! r = Some (receive_operation h a l iov) →
  complete r result w
  = delete_this r
      (if result <? 0 then invoke (recv_done h (- result) 0 endpoint_zero) w
       else invoke (recv_done h 0 result (endpoint_from a)) w).
Proof. intros H. unfold complete. by rewrite H. Qed.

Lemma complete_dangling r result w :
  heap w !! r = None → complete r result w = use_after_delete r w.
Proof. intros H. unfold complete. by rewrite H. Qed.

Lemma async_send_to_full s buf ep h w :
  io_uring_get_sqe w = false →
  async_send_to s buf ep h w
  = complete (next w) (- EBUSY)
      (new (send_operation h (destination ep) sizeof_sockaddr_in) w).2.
Proof.
  intros H. unfold async_send_to. simpl.
  change (io_uring_get_sqe (emit _ _)) with (io_uring_get_sqe w). by rewrite H.
Qed.

Lemma async_send_to_room s buf ep h w :
  io_uring_get_sqe w = true →
  async_send_to s buf ep h w
  = push_sqe (sqe_sendto (fd_ s) buf (next w) sizeof_sockaddr_in (next w))
      (new (send_operation h (destination ep) sizeof_sockaddr_in) w).2.
Proof.
  intros H. unfold async_send_to. simpl.
  change (io_uring_get_sqe (emit _ _)) with (io_uring_get_sqe w). by rewrite H.
Qed.

Lemma async_receive_from_full s buf h w :
  io_uring_get_sqe w = false →
  async_receive_from s buf h w
  = complete (next w) (- EBUSY)
      (new (receive_operation h uninit_addr sizeof_sockaddr_storage None) w).2.
Proof.
  intros H. unfold async_receive_from. simpl.
  change (io_uring_get_sqe (emit _ _)) with (io_uring_get_sqe w). by rewrite H.
Qed.

Lemma async_receive_from_room s buf h w :
  io_uring_get_sqe w = true →
  async_receive_from s buf h w
  = let w1 := (new (receive_operation h uninit_addr sizeof_sockaddr_storage
                                      None) w).2 in
    push_sqe (sqe_recvmsg (fd_ s) (next w) (next w))
      (set_heap (<[next w := receive_operation h uninit_addr
                                sizeof_sockaddr_storage (Some buf)]> (heap w1)) w1).
Proof.
  intros H. unfold async_receive_from. simpl.
  change (io_uring_get_sqe (emit _ _)) with (io_uring_get_sqe w). by rewrite H.
Qed.

Lemma wait_cqe_ready env w c rest :
  cq (ring_ w) = c :: rest → io_uring_wait_cqe env w = wait_cqe c env w.
Proof. intros H. destruct env; simpl; by rewrite H. Qed.

Lemma delete_this_running r w : running_ (delete_this r w) = running_ w.
Proof. done. Qed.

(** [complete] may clear the flag, through the handler; it never sets it. *)
Lemma complete_running r result w :
  running_ (complete r result w)
  = running_ w
    && match heap w !! r with
       | Some op => negb (h_stops (op_handler op))
       | None => true
       end.
Proof.
  unfold complete. destruct (heap w !! r) as [[h a l|h a l iov]|];
    [| |by rewrite andb_true_r];
    destruct (result <? 0); by rewrite delete_this_running, ring_invoke_running.
Qed.

Lemma process_running c w :
  running_ (process c w)
  = running_ w
    && match user_data c with
       | Some r => match heap w !! r with
                   | Some op => negb (h_stops (op_handler op))
                   | None => true
                   end
       | None => true
       end.
Proof.
  unfold process. destruct (user_data c) as [r|]; simpl.
  - by rewrite complete_running.
  - by rewrite andb_true_r.
Qed.

(** After [stop] with a free submission entry the completion queue is not
    empty: it holds at least the completion of the no-op. *)
Lemma stop_room_cq w :
  io_uring_get_sqe w = true → ∃ c rest, cq (ring_ (stop w)) = c :: rest.
Proof.
  intros H. rewrite stop_room by done. simpl.
  rewrite List.filter_app, List.map_app. simpl.
  destruct (cq (ring_ w)) as [|c rest]; simpl; [|by eauto].
  destruct (map _ (List.filter is_nop (sq (ring_ w)))); simpl; by eauto.
Qed.

(** The loop, at [io_uring_wait_cqe] with a completion available and the
    flag clear, handles that completion and returns. *)
Lemma run_wait_cqe fuel env w c rest :
  cq (ring_ w) = c :: rest →
  run_wait (S fuel) env w
  = if running_ (process c w)
    then run_wait fuel env (io_uring_submit (process c w))
    else (Returned, process c w).
Proof. intros Hcq. simpl. by rewrite (wait_cqe_ready _ _ _ _ Hcq). Qed.

Lemma ring_run_wait_stopped fuel env w c rest :
  cq (ring_ w) = c :: rest → running_ w = false →
  (run_wait (S fuel) env w).1 = Returned.
Proof.
  intros Hcq Hrun. rewrite (run_wait_cqe _ _ _ _ _ Hcq).
  by rewrite process_running, Hrun.
Qed.

(** *** Accounting for the handlers of the ring backend *)

Lemma ring_fired_invoke i w : fired (invoke i w) = fired w ++ [handler_of i].
Proof. unfold fired. by rewrite ring_invoke_trace, TraceFacts.called_app. Qed.

Lemma fired_delete_this r w : fired (delete_this r w) = fired w.
Proof.
  unfold fired. simpl. rewrite TraceFacts.called_app. apply app_nil_r.
Qed.

Lemma fired_new op w : fired (new op w).2 = fired w.
Proof.
  unfold fired. simpl. rewrite TraceFacts.called_app. apply app_nil_r.
Qed.

Lemma held_heap w w' r : heap w' = heap w → held w' r = held w r.
Proof. intros H. unfold held. by rewrite H. Qed.

Lemma ring_moves_stop w : moves fired held [] w (stop w).
Proof.
  apply mv_quiet.
  - unfold fired. by rewrite stop_trace.
  - intros r. left. apply held_heap, stop_heap.
Qed.

Lemma moves_heap_trace w w' :
  heap w' = heap w → trace w' = trace w → moves fired held [] w w'.
Proof.
  intros Hh Ht. apply mv_quiet.
  - unfold fired. by rewrite Ht.
  - intros r. left. by apply held_heap.
Qed.

Lemma moves_complete r result w : moves fired held [] w (complete r result w).
Proof.
  destruct (heap w !! r) as [op|] eqn:Hop.
  2:{ rewrite complete_dangling by done. by apply moves_heap_trace. }
  assert (∃ i, handler_of i = op_handler op
               ∧ complete r result w = delete_this r (invoke i w))
    as (i & Hi & ->).
  { destruct op as [h a l|h a l iov].
    - rewrite (complete_send _ _ _ _ _ _ Hop).
      destruct (result <? 0); eexists; split; try reflexivity; done.
    - rewrite (complete_receive _ _ _ _ _ _ _ Hop).
      destruct (result <? 0); eexists; split; try reflexivity; done. }
  apply (mv_fire _ _ _ _ r (op_handler op)).
  - unfold held. by rewrite Hop.
  - by rewrite fired_delete_this, ring_fired_invoke, Hi.
  - unfold held. simpl. by rewrite lookup_delete_eq.
  - intros r'. unfold held. simpl. rewrite ring_invoke_heap.
    destruct (decide (r = r')) as [->|Hne].
    + right. by rewrite lookup_delete_eq.
    + left. by rewrite lookup_delete_ne.
Qed.

Lemma moves_process c w : moves fired held [] w (process c w).
Proof.
  unfold process. set (w1 := match user_data c with Some _ => _ | None => _ end).
  assert (moves fired held [] w w1) as H1.
  { unfold w1. destruct (user_data c);
      [apply moves_complete|apply TraceFacts.moves_refl]. }
  change (@nil handler) with (@nil handler ++ []).
  eapply mv_trans; [exact H1|]. by apply moves_heap_trace.
Qed.

Lemma held_store_sender q result from w r :
  op_handler <$> store_sender q result from (heap w) !! r = held w r.
Proof.
  unfold store_sender, held. destruct q as [| fd m u |]; try done.
  destruct (0 <=? result); [|done].
  destruct (decide (m = r)) as [->|Hne].
  - rewrite lookup_alter_eq. by destruct (heap w !! r) as [[]|].
  - by rewrite lookup_alter_ne.
Qed.

Lemma moves_kernel i result from w :
  moves fired held [] w (kernel_complete_op i result from w).
Proof.
  unfold kernel_complete_op. destruct (inflight (ring_ w) !! i) as [q|];
    [|apply TraceFacts.moves_refl].
  apply mv_quiet; [done|]. intros r. left. apply held_store_sender.
Qed.

Lemma moves_wait env w :
  match io_uring_wait_cqe env w with
  | wait_cqe _ _ w' | wait_failed _ w' | wait_blocked w' =>
    moves fired held [] w w'
  end.
Proof.
  revert w. induction env as [|[i result from|] env IH]; intros w; simpl;
    destruct (cq (ring_ w)); try apply TraceFacts.moves_refl.
  specialize (IH (kernel_complete_op i result from w)).
  destruct (io_uring_wait_cqe env _);
    (change (@nil handler) with (@nil handler ++ []);
     eapply mv_trans; [apply moves_kernel|exact IH]).
Qed.

Lemma moves_submit w : moves fired held [] w (io_uring_submit w).
Proof. by apply moves_heap_trace. Qed.

Lemma run_wait_unfold fuel env w :
  run_wait (S fuel) env w
  = match io_uring_wait_cqe env w with
    | wait_blocked w => (Blocked, w)
    | wait_failed env w =>
      if running_ w then run_wait fuel env (io_uring_submit w)
      else (Returned, w)
    | wait_cqe c env w =>
      if running_ (process c w)
      then run_wait fuel env (io_uring_submit (process c w))
      else (Returned, process c w)
    end.
Proof. done. Qed.

Lemma ring_moves_run_wait fuel env w : moves fired held [] w (run_wait fuel env w).2.
Proof.
  revert env w. induction fuel as [|fuel IH]; intros env w;
    [apply TraceFacts.moves_refl|].
  rewrite run_wait_unfold.
  pose proof (moves_wait env w) as Hw.
  destruct (io_uring_wait_cqe env w) as [c env' w'|env' w'|w']; [| |done].
  - change (@nil handler) with (@nil handler ++ []).
    eapply mv_trans; [exact Hw|].
    destruct (running_ (process c w')); [|apply moves_process].
    change (@nil handler) with (@nil handler ++ []).
    eapply mv_trans; [apply moves_process|].
    change (@nil handler) with (@nil handler ++ []).
    eapply mv_trans; [apply moves_submit|apply IH].
  - change (@nil handler) with (@nil handler ++ []).
    eapply mv_trans; [exact Hw|].
    destruct (running_ w'); [|apply TraceFacts.moves_refl].
    change (@nil handler) with (@nil handler ++ []).
    eapply mv_trans; [apply moves_submit|apply IH].
Qed.

Lemma ring_moves_run fuel env w : moves fired held [] w (run fuel env w).2.
Proof.
  unfold run. change (@nil handler) with (@nil handler ++ []).
  eapply mv_trans; [|apply ring_moves_run_wait]. by apply moves_heap_trace.
Qed.

Lemma ring_moves_send s buf ep h w : moves fired held [h] w (async_send_to s buf ep h w).
Proof.
  destruct (io_uring_get_sqe w) eqn:Hroom.
  - rewrite async_send_to_room by done.
    apply (mv_submit_store _ _ _ _ (next w)).
    + unfold fired. simpl. rewrite TraceFacts.called_app. apply app_nil_r.
    + unfold held. simpl. by rewrite lookup_insert_eq.
    + intros r Hne. left. unfold held. simpl. by rewrite lookup_insert_ne.
  - rewrite async_send_to_full by done.
    erewrite complete_send by (simpl; apply lookup_insert_eq).
    set (i := if _ <? 0 then _ else _).
    assert (∃ j, handler_of j = h ∧ i = invoke j
                   (new (send_operation h (destination ep) sizeof_sockaddr_in) w).2)
      as (j & Hj & ->).
    { unfold i. destruct (- EBUSY <? 0); eexists; split; try reflexivity; done. }
    apply mv_submit_fire.
    + by rewrite fired_delete_this, ring_fired_invoke, fired_new, Hj.
    + intros r. unfold held. simpl. rewrite ring_invoke_heap. simpl.
      rewrite delete_insert_eq. destruct (decide (r = next w)) as [->|Hne].
      * right. by rewrite lookup_delete_eq.
      * left. by rewrite lookup_delete_ne.
Qed.

Lemma ring_moves_receive s buf h w :
  moves fired held [h] w (async_receive_from s buf h w).
Proof.
  destruct (io_uring_get_sqe w) eqn:Hroom.
  - rewrite async_receive_from_room by done.
    apply (mv_submit_store _ _ _ _ (next w)).
    + unfold fired. simpl. rewrite TraceFacts.called_app. apply app_nil_r.
    + unfold held. simpl. by rewrite lookup_insert_eq.
    + intros r Hne. left. unfold held. simpl. by rewrite !lookup_insert_ne.
  - rewrite async_receive_from_full by done.
    erewrite complete_receive by (simpl; apply lookup_insert_eq).
    set (i := if _ <? 0 then _ else _).
    assert (∃ j, handler_of j = h ∧ i = invoke j
                   (new (receive_operation h uninit_addr
                           sizeof_sockaddr_storage None) w).2)
      as (j & Hj & ->).
    { unfold i. destruct (- EBUSY <? 0); eexists; split; try reflexivity; done. }
    apply mv_submit_fire.
    + by rewrite fired_delete_this, ring_fired_invoke, fired_new, Hj.
    + intros r. unfold held. simpl. rewrite ring_invoke_heap. simpl.
      rewrite delete_insert_eq. destruct (decide (r = next w)) as [->|Hne].
      * right. by rewrite lookup_delete_eq.
      * left. by rewrite lookup_delete_ne.
Qed.

Lemma ring_moves_close s w : moves fired held [] w (close s w).2.
Proof.
  unfold close. destruct (0 <=? fd_ s); simpl; [|apply TraceFacts.moves_refl].
  apply mv_quiet; [|by left].
  unfold fired. simpl. rewrite TraceFacts.called_app. apply app_nil_r.
Qed.

Lemma ring_moves_exec a w : moves fired held (submitted a) w (exec w a).
Proof.
  destruct a; simpl.
  - apply ring_moves_send.
  - apply ring_moves_receive.
  - apply ring_moves_close.
  - apply ring_moves_stop.
  - apply moves_kernel.
  - apply ring_moves_run.
  - apply ring_moves_run_wait.
Qed.

Lemma ring_moves_execs acts w :
  moves fired held (acts ≫= submitted) w (foldl exec w acts).
Proof.
  revert w. induction acts as [|a acts IH]; intros w; simpl.
  - apply TraceFacts.moves_refl.
  - eapply mv_trans; [apply ring_moves_exec|apply IH].
Qed.

(** *** The calls each entry point makes *)

Lemma ring_calls_invoke i w : calls (trace (invoke i w)) = calls (trace w) ++ [i].
Proof. by rewrite ring_invoke_trace, TraceFacts.calls_app. Qed.

Lemma calls_delete_this r w : calls (trace (delete_this r w)) = calls (trace w).
Proof. simpl. rewrite TraceFacts.calls_app. apply app_nil_r. Qed.

Lemma calls_new op w : calls (trace (new op w).2) = calls (trace w).
Proof. simpl. rewrite TraceFacts.calls_app. apply app_nil_r. Qed.

(** The call [complete] makes for a record. *)
Lemma calls_complete r result w :
  calls (trace (complete r result w))
  = calls (trace w)
    ++ match heap w !! r with
       | Some (send_operation h _ _) =>
         [if result <? 0 then send_done h (- result) 0
          else send_done h 0 result]
       | Some (receive_operation h addr _ _) =>
         [if result <? 0 then recv_done h (- result) 0 endpoint_zero
          else recv_done h 0 result (endpoint_from addr)]
       | None => []
       end.
Proof.
  unfold complete. destruct (heap w !! r) as [[h a l|h a l iov]|];
    [| |by rewrite app_nil_r];
    rewrite calls_delete_this; destruct (result <? 0); by rewrite ring_calls_invoke.
Qed.

Lemma calls_process c w :
  calls (trace (process c w))
  = calls (trace w)
    ++ match user_data c with
       | Some r =>
         match heap w !! r with
         | Some (send_operation h _ _) =>
           [if res c <? 0 then send_done h (- res c) 0
            else send_done h 0 (res c)]
         | Some (receive_operation h addr _ _) =>
           [if res c <? 0 then recv_done h (- res c) 0 endpoint_zero
            else recv_done h 0 (res c) (endpoint_from addr)]
         | None => []
         end
       | None => []
       end.
Proof.
  unfold process.
  change (calls (trace (io_uring_cqe_seen ?w0))) with (calls (trace w0)).
  destruct (user_data c); [apply calls_complete|by rewrite app_nil_r].
Qed.

Lemma held_process c w r :
  user_data c = Some r → held (process c w) r = None.
Proof.
  intros Hr. unfold process, held. rewrite Hr. simpl. unfold complete.
  destruct (heap w !! r) as [[h a l|h a l iov]|] eqn:Hop; simpl;
    rewrite ?lookup_delete_eq, ?Hop; done.
Qed.

Lemma ring_calls_send s buf ep h w :
  0 < EBUSY →
  calls (trace (async_send_to s buf ep h w))
  = calls (trace w)
    ++ (if io_uring_get_sqe w then [] else [send_done h EBUSY 0]).
Proof.
  intros Hpos. destruct (io_uring_get_sqe w) eqn:Hroom.
  - rewrite async_send_to_room by done.
    change (calls (trace (push_sqe ?q ?w0))) with (calls (trace w0)).
    by rewrite calls_new, app_nil_r.
  - rewrite async_send_to_full by done.
    rewrite calls_complete, calls_new. simpl. rewrite lookup_insert_eq.
    rewrite (proj2 (Z.ltb_lt (- EBUSY) 0)) by lia.
    by rewrite Z.opp_involutive.
Qed.

Lemma ring_calls_receive s buf h w :
  0 < EBUSY →
  calls (trace (async_receive_from s buf h w))
  = calls (trace w)
    ++ (if io_uring_get_sqe w then [] else [recv_done h EBUSY 0 endpoint_zero]).
Proof.
  intros Hpos. destruct (io_uring_get_sqe w) eqn:Hroom.
  - rewrite async_receive_from_room by done. cbv zeta.
    change (calls (trace (push_sqe ?q ?w0))) with (calls (trace w0)).
    change (calls (trace (set_heap ?m ?w0))) with (calls (trace w0)).
    by rewrite calls_new, app_nil_r.
  - rewrite async_receive_from_full by done.
    rewrite calls_complete, calls_new. simpl. rewrite lookup_insert_eq.
    rewrite (proj2 (Z.ltb_lt (- EBUSY) 0)) by lia.
    by rewrite Z.opp_involutive.
Qed.

Lemma ring_accounted_initial entries : accounted fired held [] (initial entries).
Proof.
  split.
  - intros h Hin. by apply elem_of_nil in Hin.
  - intros r h. unfold held. simpl. by rewrite lookup_empty.
  - intros r1 r2 h. unfold held. simpl. by rewrite lookup_empty.
  - apply NoDup_nil_2.
Qed.

Lemma ring_accounted_execs entries acts :
  NoDup (acts ≫= submitted) →
  accounted fired held (acts ≫= submitted) (foldl exec (initial entries) acts).
Proof.
  intros Hnd.
  apply (TraceFacts.accounted_moves fired held _ _ _
           (ring_moves_execs acts (initial entries)) [] (ring_accounted_initial entries) Hnd).
Qed.

(** *** Consistency of heap, ring and trace *)

Lemma consistent_quiet w w' :
  consistent w →
  (∀ r, is_Some (held w r) → r ∈ tags w → r ∈ tags w') →
  (∀ r, held w' r = held w r) →
  next w' = next w →
  (trace w' = trace w ∨ ∃ s, trace w' = trace w ++ [ev_sys s]) →
  consistent w'.
Proof.
  intros [Hl Hf Hd Hh Ho Hn Hc] Htags Hheld Hnext Htrace.
  assert (created (trace w') = created (trace w)) as Hcr.
  { destruct Htrace as [->|(s & ->)]; [done|].
    rewrite TraceFacts.created_app. apply app_nil_r. }
  assert (deleted (trace w') = deleted (trace w)) as Hde.
  { destruct Htrace as [->|(s & ->)]; [done|].
    rewrite TraceFacts.deleted_app. apply app_nil_r. }
  split.
  - intros r. rewrite Hheld. intros Hr. by apply Htags, Hl.
  - intros r. rewrite Hcr, Hnext. apply Hf.
  - intros r. rewrite Hcr, Hde. apply Hd.
  - intros r. rewrite Hcr, Hde, Hheld. apply Hh.
  - by rewrite Hde.
  - intros r h. rewrite Hheld. intros Hr. specialize (Hn r h Hr).
    destruct Htrace as [->|(s & ->)]; [done|]. apply elem_of_app. by left.
  - destruct Htrace as [->|(s & ->)]; [done|]. by apply lc_sys.
Qed.

Lemma consistent_next_free w : consistent w → held w (next w) = None.
Proof.
  intros [Hl Hf Hd Hh Ho Hn Hc].
  destruct (held w (next w)) eqn:E; [|done].
  assert (is_Some (held w (next w))) as Hs by (by eexists).
  apply Hh in Hs as [Hcr _]. specialize (Hf _ Hcr). lia.
Qed.

Lemma consistent_alloc w w' h :
  consistent w →
  next w ∈ tags w' →
  (∀ r, r ∈ tags w → r ∈ tags w') →
  held w' (next w) = Some h →
  (∀ r, r ≠ next w → held w' r = held w r) →
  next w' = S (next w) →
  trace w' = trace w ++ [ev_new (next w) h] →
  consistent w'.
Proof.
  intros Hcon Htag Htags Hnew Hold Hnext Htrace.
  pose proof (consistent_next_free w Hcon) as Hfree.
  destruct Hcon as [Hl Hf Hd Hh Ho Hn Hc].
  assert (created (trace w') = created (trace w) ++ [next w]) as Hcr.
  { by rewrite Htrace, TraceFacts.created_app. }
  assert (deleted (trace w') = deleted (trace w)) as Hde.
  { rewrite Htrace, TraceFacts.deleted_app. apply app_nil_r. }
  assert (next w ∉ deleted (trace w)) as Hnd.
  { intros Hin. specialize (Hf _ (Hd _ Hin)). lia. }
  split.
  - intros r. destruct (decide (r = next w)) as [->|Hne]; [done|].
    rewrite Hold by done. intros Hr. by apply Htags, Hl.
  - intros r. rewrite Hcr, Hnext, elem_of_app, list_elem_of_singleton.
    intros [Hin| ->]; [|lia]. specialize (Hf _ Hin). lia.
  - intros r. rewrite Hcr, Hde, elem_of_app. intros Hin. left. by apply Hd.
  - intros r. rewrite Hcr, Hde, elem_of_app, list_elem_of_singleton.
    destruct (decide (r = next w)) as [->|Hne].
    + rewrite Hnew. split; [by auto|by eexists].
    + rewrite Hold, Hh by done. tauto.
  - by rewrite Hde.
  - intros r h'. rewrite Htrace, elem_of_app, list_elem_of_singleton.
    destruct (decide (r = next w)) as [->|Hne].
    + rewrite Hnew. intros [= ->]. by right.
    + rewrite Hold by done. intros Hr. left. by apply Hn.
  - rewrite Htrace. by apply lc_new.
Qed.

Lemma consistent_complete w w' r i :
  consistent w →
  held w r = Some (handler_of i) →
  (∀ r', r' ≠ r → r' ∈ tags w → r' ∈ tags w') →
  held w' r = None →
  (∀ r', r' ≠ r → held w' r' = held w r') →
  next w' = next w →
  trace w' = trace w ++ [ev_call i; ev_delete r] →
  consistent w'.
Proof.
  intros [Hl Hf Hd Hh Ho Hn Hc] Hr Htags Hgone Hold Hnext Htrace.
  assert (created (trace w') = created (trace w)) as Hcr.
  { rewrite Htrace, TraceFacts.created_app. apply app_nil_r. }
  assert (deleted (trace w') = deleted (trace w) ++ [r]) as Hde.
  { by rewrite Htrace, TraceFacts.deleted_app. }
  assert (r ∈ created (trace w) ∧ r ∉ deleted (trace w)) as [Hrc Hrd].
  { apply Hh. rewrite Hr. by eexists. }
  split.
  - intros r'. destruct (decide (r' = r)) as [->|Hne].
    + rewrite Hgone. by intros [? [=]].
    + rewrite Hold by done. intros Hr'. by apply Htags, Hl.
  - intros r'. rewrite Hcr, Hnext. apply Hf.
  - intros r'. rewrite Hcr, Hde, elem_of_app, list_elem_of_singleton.
    intros [Hin| ->]; [by apply Hd|done].
  - intros r'. rewrite Hcr, Hde, elem_of_app, list_elem_of_singleton.
    destruct (decide (r' = r)) as [->|Hne].
    + rewrite Hgone. split; [by intros [? [=]]|]. intros [_ Hnot].
      destruct Hnot. by right.
    + rewrite Hold, Hh by done. tauto.
  - rewrite Hde. apply NoDup_app. split; [done|]. split.
    + intros x Hx. rewrite list_elem_of_singleton. by intros ->.
    + apply NoDup_singleton.
  - intros r' h'. destruct (decide (r' = r)) as [->|Hne].
    + by rewrite Hgone.
    + rewrite Hold by done. intros Hr'. rewrite Htrace. apply elem_of_app.
      left. by apply Hn.
  - rewrite Htrace. apply lc_complete; [done|]. by apply Hn.
Qed.

Lemma consistent_failed w w' i :
  consistent w →
  (∀ r, r ∈ tags w → r ∈ tags w') →
  (∀ r, held w' r = held w r) →
  next w' = S (next w) →
  trace w' = trace w ++ [ev_new (next w) (handler_of i); ev_call i;
                         ev_delete (next w)] →
  consistent w'.
Proof.
  intros Hcon Htags Hheld Hnext Htrace.
  pose proof (consistent_next_free w Hcon) as Hfree.
  destruct Hcon as [Hl Hf Hd Hh Ho Hn Hc].
  assert (created (trace w') = created (trace w) ++ [next w]) as Hcr.
  { by rewrite Htrace, TraceFacts.created_app. }
  assert (deleted (trace w') = deleted (trace w) ++ [next w]) as Hde.
  { by rewrite Htrace, TraceFacts.deleted_app. }
  assert (next w ∉ deleted (trace w)) as Hnd.
  { intros Hin. specialize (Hf _ (Hd _ Hin)). lia. }
  split.
  - intros r. rewrite Hheld. intros Hr. by apply Htags, Hl.
  - intros r. rewrite Hcr, Hnext, elem_of_app, list_elem_of_singleton.
    intros [Hin| ->]; [|lia]. specialize (Hf _ Hin). lia.
  - intros r. rewrite Hcr, Hde, !elem_of_app, !list_elem_of_singleton.
    intros [Hin| ->]; [left; by apply Hd|by right].
  - intros r. rewrite Hcr, Hde, Hheld, !elem_of_app, !list_elem_of_singleton.
    destruct (decide (r = next w)) as [->|Hne].
    + rewrite Hfree. split; [by intros [? [=]]|]. intros [_ Hnot].
      destruct Hnot. by right.
    + rewrite Hh. tauto.
  - rewrite Hde. apply NoDup_app. split; [done|]. split.
    + intros x Hx. rewrite list_elem_of_singleton. by intros ->.
    + apply NoDup_singleton.
  - intros r h'. rewrite Hheld. intros Hr. rewrite Htrace. apply elem_of_app.
    left. by apply Hn.
  - rewrite Htrace.
    change [ev_new (next w) (handler_of i); ev_call i; ev_delete (next w)]
      with ([ev_new (next w) (handler_of i)]
            ++ [ev_call i; ev_delete (next w)]).
    rewrite app_assoc. apply lc_complete; [by apply lc_new|].
    apply elem_of_app. right. by apply list_elem_of_singleton.
Qed.

(** The tags of the ring, up to order. *)

Lemma omap_split_nop l :
  omap sqe_user_data l
  ≡ₚ omap sqe_user_data (List.filter (fun q => negb (is_nop q)) l)
     ++ omap user_data (map (fun q => mk_cqe (sqe_user_data q) 0)
                            (List.filter is_nop l)).
Proof.
  induction l as [|q l IH]; [done|].
  destruct q as [fd buf a len r|fd m r|[r|]]; simpl.
  - by rewrite IH.
  - by rewrite IH.
  - rewrite IH. apply Permutation_middle.
  - exact IH.
Qed.

Lemma tags_submit w : tags (io_uring_submit w) ≡ₚ tags w.
Proof.
  unfold tags. simpl. rewrite !omap_app.
  rewrite (omap_split_nop (sq (ring_ w))).
  set (A := omap sqe_user_data (List.filter _ (sq (ring_ w)))).
  set (B := omap user_data (map _ _)).
  set (C := omap sqe_user_data (inflight (ring_ w))).
  set (D := omap user_data (cq (ring_ w))).
  rewrite (Permutation_app_comm C A), (Permutation_app_comm D B).
  rewrite <- !app_assoc. apply Permutation_app_head.
  rewrite !app_assoc. apply Permutation_app_tail, Permutation_app_comm.
Qed.

Lemma tags_push q w :
  tags (push_sqe q w) ≡ₚ match sqe_user_data q with
                          | Some r => r :: tags w
                          | None => tags w
                          end.
Proof.
  unfold tags. simpl. rewrite !omap_app. simpl.
  destruct (sqe_user_data q) as [r|]; simpl.
  - rewrite <- !app_assoc. simpl. by rewrite <- Permutation_middle.
  - by rewrite app_nil_r.
Qed.

(** [stop] takes nothing out of the ring; the no-op adds the tag left in
    its entry. *)
Lemma tags_stop w :
  tags (stop w) ≡ₚ (if io_uring_get_sqe w
                    then match stale_user_data w with
                         | Some r => r :: tags w
                         | None => tags w
                         end
                    else tags w).
Proof.
  destruct (io_uring_get_sqe w) eqn:E.
  - rewrite stop_room by done. by rewrite tags_submit, tags_push.
  - by rewrite stop_full.
Qed.

Lemma tags_stop_incl w r : r ∈ tags w → r ∈ tags (stop w).
Proof.
  rewrite tags_stop. destruct (io_uring_get_sqe w); [|done].
  destruct (stale_user_data w); [|done]. intros H. by apply elem_of_cons; right.
Qed.

Lemma cq_stop w : ∃ extra, cq (ring_ (stop w)) = cq (ring_ w) ++ extra.
Proof.
  destruct (io_uring_get_sqe w) eqn:E.
  - rewrite stop_room by done. simpl. by eexists.
  - rewrite stop_full by done. exists []. by rewrite app_nil_r.
Qed.

Lemma tags_delete_this r w : tags (delete_this r w) = tags w.
Proof. done. Qed.

Lemma tags_new op w : tags (new op w).2 = tags w.
Proof. done. Qed.

Lemma tags_invoke_incl i w r : r ∈ tags w → r ∈ tags (invoke i w).
Proof.
  unfold invoke. destruct (h_stops _); [|done].
  exact (tags_stop_incl (emit (ev_call i) w) r).
Qed.

Lemma cq_invoke i w : ∃ extra, cq (ring_ (invoke i w)) = cq (ring_ w) ++ extra.
Proof.
  unfold invoke. destruct (h_stops _); [exact (cq_stop (emit (ev_call i) w))|].
  exists []. by rewrite app_nil_r.
Qed.

Lemma tags_kernel i result from w :
  tags (kernel_complete_op i result from w) ≡ₚ tags w.
Proof.
  unfold kernel_complete_op. destruct (inflight (ring_ w) !! i) as [q|] eqn:E;
    [|done].
  unfold tags. simpl. rewrite !omap_app.
  rewrite (delete_Permutation _ _ _ E) at 2.
  set (A := omap sqe_user_data (sq (ring_ w))).
  set (B := omap sqe_user_data (delete i (inflight (ring_ w)))).
  set (C := omap user_data (cq (ring_ w))).
  assert (omap sqe_user_data (q :: delete i (inflight (ring_ w)))
          = match sqe_user_data q with Some r => r :: B | None => B end) as ->
    by done.
  assert (omap user_data [mk_cqe (sqe_user_data q) result]
          = match sqe_user_data q with Some r => [r] | None => [] end) as ->.
  { simpl. by destruct (sqe_user_data q). }
  destruct (sqe_user_data q) as [r|].
  - rewrite <- !app_assoc. apply Permutation_app_head.
    rewrite (app_assoc B C [r]), <- Permutation_cons_append. done.
  - by rewrite app_nil_r.
Qed.

(** What [complete] does to a live record, in the terms of the accounting. *)
Lemma complete_live r result w h :
  held w r = Some h →
  ∃ i, handler_of i = h ∧ complete r result w = delete_this r (invoke i w).
Proof.
  unfold held. destruct (heap w !! r) as [op|] eqn:Hop; [|done].
  intros [= <-]. destruct op as [h a l|h a l iov].
  - rewrite (complete_send _ _ _ _ _ _ Hop).
    destruct (result <? 0); eexists; split; try reflexivity; done.
  - rewrite (complete_receive _ _ _ _ _ _ _ Hop).
    destruct (result <? 0); eexists; split; try reflexivity; done.
Qed.

Lemma held_delete_this r w r' :
  held (delete_this r w) r' = if decide (r' = r) then None else held w r'.
Proof.
  unfold held. simpl. case_decide as Hd.
  - subst. by rewrite lookup_delete_eq.
  - by rewrite lookup_delete_ne.
Qed.

Lemma held_invoke i w r : held (invoke i w) r = held w r.
Proof. apply held_heap, ring_invoke_heap. Qed.

Lemma consistent_stop w : consistent w → consistent (stop w).
Proof.
  intros H. apply (consistent_quiet w); [done| | | |].
  - intros r _. apply tags_stop_incl.
  - intros r. apply held_heap, stop_heap.
  - apply stop_next.
  - left. apply stop_trace.
Qed.

Lemma consistent_submit w : consistent w → consistent (io_uring_submit w).
Proof.
  intros H. apply (consistent_quiet w); [done| |done|done|by left].
  intros r _. by rewrite tags_submit.
Qed.

Lemma consistent_set_running b w : consistent w → consistent (set_running b w).
Proof. intros H. apply (consistent_quiet w); auto. Qed.

Lemma consistent_kernel i result from w :
  consistent w → consistent (kernel_complete_op i result from w).
Proof.
  intros H. apply (consistent_quiet w); [done| | | |].
  - intros r _. by rewrite tags_kernel.
  - intros r. unfold kernel_complete_op.
    destruct (inflight (ring_ w) !! i) as [q|]; [|done].
    apply held_store_sender.
  - unfold kernel_complete_op. by destruct (inflight (ring_ w) !! i).
  - left. unfold kernel_complete_op. by destruct (inflight (ring_ w) !! i).
Qed.

Lemma consistent_close s w : consistent w → consistent (close s w).2.
Proof.
  intros H. unfold close. destruct (0 <=? fd_ s); [|done]. simpl.
  apply (consistent_quiet w); [done|done|done|done|]. right. by eexists.
Qed.

Lemma consistent_send s buf ep h w :
  consistent w → consistent (async_send_to s buf ep h w).
Proof.
  intros H. destruct (io_uring_get_sqe w) eqn:Hroom.
  - rewrite async_send_to_room by done.
    apply (consistent_alloc w _ h); [done| | | | |done|done].
    + rewrite tags_push. simpl. apply elem_of_cons. by left.
    + intros r Hr. rewrite tags_push. simpl. apply elem_of_cons. by right.
    + unfold held. simpl. by rewrite lookup_insert_eq.
    + intros r Hne. unfold held. simpl. by rewrite lookup_insert_ne.
  - rewrite async_send_to_full by done.
    set (w1 := (new _ w).2).
    destruct (complete_live (next w) (- EBUSY) w1 h) as (i & Hi & ->).
    { unfold held, w1. simpl. by rewrite lookup_insert_eq. }
    pose proof (consistent_next_free w H) as Hfree.
    apply (consistent_failed w _ i); [done| | | |].
    + intros r Hr. rewrite tags_delete_this. by apply tags_invoke_incl.
    + intros r. rewrite held_delete_this, held_invoke. unfold held, w1. simpl.
      case_decide as Hd; [by subst|]. by rewrite lookup_insert_ne.
    + simpl. by rewrite ring_invoke_next.
    + simpl. rewrite ring_invoke_trace, Hi. simpl. by rewrite <- !app_assoc.
Qed.

Lemma consistent_receive s buf h w :
  consistent w → consistent (async_receive_from s buf h w).
Proof.
  intros H. destruct (io_uring_get_sqe w) eqn:Hroom.
  - rewrite async_receive_from_room by done.
    apply (consistent_alloc w _ h); [done| | | | |done|done].
    + rewrite tags_push. simpl. apply elem_of_cons. by left.
    + intros r Hr. rewrite tags_push. simpl. apply elem_of_cons. by right.
    + unfold held. simpl. by rewrite lookup_insert_eq.
    + intros r Hne. unfold held. simpl. by rewrite !lookup_insert_ne.
  - rewrite async_receive_from_full by done.
    set (w1 := (new _ w).2).
    destruct (complete_live (next w) (- EBUSY) w1 h) as (i & Hi & ->).
    { unfold held, w1. simpl. by rewrite lookup_insert_eq. }
    pose proof (consistent_next_free w H) as Hfree.
    apply (consistent_failed w _ i); [done| | | |].
    + intros r Hr. rewrite tags_delete_this. by apply tags_invoke_incl.
    + intros r. rewrite held_delete_this, held_invoke. unfold held, w1. simpl.
      case_decide as Hd; [by subst|]. by rewrite lookup_insert_ne.
    + simpl. by rewrite ring_invoke_next.
    + simpl. rewrite ring_invoke_trace, Hi. simpl. by rewrite <- !app_assoc.
Qed.

(** Consuming the completion at the head of the queue: a record that is
    still referred to afterwards was referred to before, by something other
    than this completion. *)
Lemma consistent_process c rest w :
  cq (ring_ w) = c :: rest → consistent w → consistent (process c w).
Proof.
  intros Hcq H. unfold process. destruct (user_data c) as [r|] eqn:Hr.
  - destruct (held w r) as [h|] eqn:Hh.
    + destruct (complete_live r (res c) w h Hh) as (i & Hi & ->).
      destruct (cq_invoke i w) as (extra & Hextra).
      apply (consistent_complete w _ r i); [done|by rewrite Hi| | | | |].
      * intros r' Hne Hin. apply (tags_invoke_incl i) in Hin.
        revert Hin. unfold tags. simpl. rewrite Hextra, Hcq. simpl.
        rewrite Hr, !elem_of_app, elem_of_cons. intros [?|[?|?]]; auto; done.
      * change (held (io_uring_cqe_seen ?w0) r) with (held w0 r).
        rewrite held_delete_this. by rewrite decide_True.
      * intros r' Hne. change (held (io_uring_cqe_seen ?w0) r') with (held w0 r').
        rewrite held_delete_this, held_invoke. by rewrite decide_False.
      * simpl. by rewrite ring_invoke_next.
      * simpl. rewrite ring_invoke_trace. by rewrite <- app_assoc.
    + rewrite complete_dangling; last first.
      { unfold held in Hh. by destruct (heap w !! r). }
      apply (consistent_quiet w); [done| |done|done|by left].
      intros r' Hlive. unfold tags. simpl. rewrite Hcq. simpl.
      rewrite Hr, !elem_of_app, elem_of_cons. intros [?|[->|?]]; auto.
      rewrite Hh in Hlive. by destruct Hlive.
  - apply (consistent_quiet w); [done| |done|done|by left].
    intros r _. unfold tags. simpl. rewrite Hcq. simpl. by rewrite Hr.
Qed.

Lemma consistent_wait env w :
  consistent w →
  match io_uring_wait_cqe env w with
  | wait_cqe c _ w' => consistent w' ∧ ∃ rest, cq (ring_ w') = c :: rest
  | wait_failed _ w' | wait_blocked w' => consistent w'
  end.
Proof.
  revert w. induction env as [|[i result from|] env IH]; intros w H; simpl;
    destruct (cq (ring_ w)) eqn:Hcq; try done; try (split; [done|by eexists]).
  apply IH. by apply consistent_kernel.
Qed.

Lemma consistent_run_wait fuel env w :
  consistent w → consistent (run_wait fuel env w).2.
Proof.
  revert env w. induction fuel as [|fuel IH]; intros env w H; [done|].
  rewrite run_wait_unfold.
  pose proof (consistent_wait env w H) as Hw.
  destruct (io_uring_wait_cqe env w) as [c env' w'|env' w'|w']; [| |done].
  - destruct Hw as [Hw (rest & Hcq)].
    pose proof (consistent_process c rest w' Hcq Hw) as Hp.
    destruct (running_ (process c w')); [|done].
    by apply IH, consistent_submit.
  - destruct (running_ w'); [|done]. by apply IH, consistent_submit.
Qed.

Lemma consistent_run fuel env w : consistent w → consistent (run fuel env w).2.
Proof.
  intros H. unfold run.
  by apply consistent_run_wait, consistent_submit, consistent_set_running.
Qed.

Lemma consistent_exec a w : consistent w → consistent (exec w a).
Proof.
  intros H. destruct a; simpl.
  - by apply consistent_send.
  - by apply consistent_receive.
  - by apply consistent_close.
  - by apply consistent_stop.
  - by apply consistent_kernel.
  - by apply consistent_run.
  - by apply consistent_run_wait.
Qed.

Lemma consistent_initial entries : consistent (initial entries).
Proof.
  split; simpl; try apply NoDup_nil_2; try apply lc_nil.
  - intros r. unfold held. simpl. rewrite lookup_empty. by intros [? [=]].
  - intros r Hin. by apply elem_of_nil in Hin.
  - intros r Hin. by apply elem_of_nil in Hin.
  - intros r. unfold held. simpl. rewrite lookup_empty. split.
    + by intros [? [=]].
    + intros [Hin _]. by apply elem_of_nil in Hin.
  - intros r h. unfold held. simpl. by rewrite lookup_empty.
Qed.

Lemma consistent_execs entries acts :
  consistent (foldl exec (initial entries) acts).
Proof.
  pose proof (consistent_initial entries) as H. revert H.
  generalize (initial entries).
  induction acts as [|a acts IH]; intros w H; simpl; [done|].
  by apply IH, consistent_exec.
Qed.

(** In a trace that follows [lifecycle], a record is deleted right after
    the call of the handler it was created with. *)
Lemma lifecycle_delete t :
  lifecycle t →
  ∀ t1 t2 r, t = t1 ++ ev_delete r :: t2 →
             ∃ t0 i, t1 = t0 ++ [ev_call i] ∧ ev_new r (handler_of i) ∈ t0.
Proof.
  induction 1 as [|t r h Hl IH|t s Hl IH|t i r Hl IH Hin]; intros t1 t2 r' Heq.
  - by destruct t1.
  - destruct (decide (t2 = [])) as [->|Hne].
    + apply app_inj_tail in Heq as [_ [=]].
    + destruct (exists_last Hne) as (t2' & e & ->).
      rewrite app_comm_cons, app_assoc in Heq.
      apply app_inj_tail in Heq as [-> _]. by eapply IH.
  - destruct (decide (t2 = [])) as [->|Hne].
    + apply app_inj_tail in Heq as [_ [=]].
    + destruct (exists_last Hne) as (t2' & e & ->).
      rewrite app_comm_cons, app_assoc in Heq.
      apply app_inj_tail in Heq as [-> _]. by eapply IH.
  - destruct (decide (t2 = [])) as [->|Hne].
    + change [ev_call i; ev_delete r] with ([ev_call i] ++ [ev_delete r]) in Heq.
      rewrite app_assoc in Heq. apply app_inj_tail in Heq as [<- [= <-]].
      by exists t, i.
    + destruct (exists_last Hne) as (t2' & e & ->).
      change [ev_call i; ev_delete r] with ([ev_call i] ++ [ev_delete r]) in Heq.
      rewrite app_assoc, app_comm_cons, (app_assoc t1) in Heq.
      apply app_inj_tail in Heq as [Heq _].
      destruct (decide (t2' = [])) as [->|Hne'].
      * apply app_inj_tail in Heq as [_ [=]].
      * destruct (exists_last Hne') as (t2'' & e' & ->).
        rewrite app_comm_cons, app_assoc in Heq.
        apply app_inj_tail in Heq as [-> _]. by eapply IH.
Qed.

(** C5 (amended).  When the submission queue is full, [async_send_to] and
    [async_receive_from] do not submit or retry anything: the record just
    created is completed at once, its handler is called with [EBUSY] and 0
    bytes (and the zero endpoint for a receive), the record is destroyed,
    and the ring is left as it was. *)
Theorem ring_queue_full_completes_with_EBUSY s buf ep h w :
  0 < EBUSY →
  io_uring_get_sqe w = false →
  trace (async_send_to s buf ep h w)
    = trace w ++ [ev_new (next w) h; ev_call (send_done h EBUSY 0);
                  ev_delete (next w)] ∧
  ring_ (async_send_to s buf ep h w) = ring_ w ∧
  heap (async_send_to s buf ep h w) = delete (next w) (heap w) ∧
  trace (async_receive_from s buf h w)
    = trace w ++ [ev_new (next w) h; ev_call (recv_done h EBUSY 0 endpoint_zero);
                  ev_delete (next w)] ∧
  ring_ (async_receive_from s buf h w) = ring_ w ∧
  heap (async_receive_from s buf h w) = delete (next w) (heap w).
Proof.
  intros Hpos Hfull.
  assert ((- EBUSY <? 0) = true) as Hneg by (apply Z.ltb_lt; lia).
  rewrite async_send_to_full, async_receive_from_full by done.
  erewrite complete_send by (simpl; apply lookup_insert_eq).
  erewrite complete_receive by (simpl; apply lookup_insert_eq).
  rewrite Hneg, Z.opp_involutive. simpl.
  rewrite !ring_invoke_trace, !ring_invoke_heap, !ring_invoke_full by done. simpl.
  rewrite !delete_insert_eq, <- !app_assoc. done.
Qed.

(** C9.  With a free submission entry, the send entry [async_send_to]
    writes points at the address stored in the new record, and that
    address is the endpoint's embedded [sockaddr_in] whenever its family is
    [AF_INET] -- the numeric address and port are then not read at all --
    and is built from the numeric address and port only when the family is
    something else. *)
Theorem ring_send_destination s buf ep h w :
  io_uring_get_sqe w = true →
  sq (ring_ (async_send_to s buf ep h w))
    = sq (ring_ w) ++ [sqe_sendto (fd_ s) buf (next w) sizeof_sockaddr_in (next w)] ∧
  (sin_family (sin ep) = AF_INET →
     wire_destination (async_send_to s buf ep h w)
       (sqe_sendto (fd_ s) buf (next w) sizeof_sockaddr_in (next w))
     = Some (sin ep) ∧
     ∀ a p, async_send_to s buf (mk_endpoint a p (sin ep)) h w
            = async_send_to s buf ep h w) ∧
  (sin_family (sin ep) ≠ AF_INET →
     wire_destination (async_send_to s buf ep h w)
       (sqe_sendto (fd_ s) buf (next w) sizeof_sockaddr_in (next w))
     = Some (mk_sockaddr_in AF_INET (htons (port ep)) (htonl (address ep)))).
Proof.
  intros Hroom. rewrite async_send_to_room by done.
  split; [done|]. split.
  - intros Hfam. split.
    + simpl. rewrite lookup_insert_eq. unfold destination.
      by rewrite (proj2 (Z.eqb_eq _ _) Hfam).
    + intros a p. rewrite async_send_to_room by done.
      unfold destination. simpl. by rewrite (proj2 (Z.eqb_eq _ _) Hfam).
  - intros Hfam. simpl. rewrite lookup_insert_eq. unfold destination.
    by rewrite (proj2 (Z.eqb_neq _ _) Hfam).
Qed.

End Facts.

(** C5 at a concrete input: a ring of one entry, taken by a receive that
    has not been submitted yet; a send then finds the queue full. *)
Lemma ring_queue_full_completes_with_EBUSY_witness :
  let h0 := mk_handler 6 false in
  let h := mk_handler 7 false in
  let w := async_receive_from (K:=linux) (mk_socket 3) (mk_span 8192 64) h0
             (initial 1) in
  trace (async_send_to (K:=linux) (mk_socket 3) (mk_span 4096 5)
                       (mk_endpoint 2130706433 8080 sockaddr_zero) h w)
  = trace w ++ [ev_new 1%nat h; ev_call (send_done h 16 0); ev_delete 1%nat].
Proof.
  intros h0 h w.
  destruct (ring_queue_full_completes_with_EBUSY (K:=linux) (mk_socket 3)
              (mk_span 4096 5) (mk_endpoint 2130706433 8080 sockaddr_zero) h w
              ltac:(simpl; lia) ltac:(reflexivity)) as (E & _).
  exact E.
Defined.

(** The claim as stated fails: with the queue full (a ring of one entry,
    taken by a receive not yet submitted) the handler of the send receives
    [EBUSY] as its final result; the ring is unchanged and the record of the
    send is gone, so nothing is left to resubmit; when the loop runs and the
    receive completes, the send is not heard of again. *)
Lemma ring_queue_full_no_retry :
  let h0 := mk_handler 6 false in
  let h := mk_handler 7 false in
  let w := async_receive_from (K:=linux) (mk_socket 3) (mk_span 8192 64) h0
             (initial 1) in
  let w' := async_send_to (K:=linux) (mk_socket 3) (mk_span 4096 5)
              (mk_endpoint 2130706433 8080 sockaddr_zero) h w in
  let from := mk_sockaddr_in 2 36895 16777343 in
  io_uring_get_sqe w = false ∧
  calls (trace w') = [send_done h 16 0] ∧
  ring_ w' = ring_ w ∧
  heap w' !! 1%nat = None ∧
  (run (K:=linux) 8 [kernel_complete 0 5 from] w').1 = Blocked ∧
  calls (trace (run (K:=linux) 8 [kernel_complete 0 5 from] w').2)
  = [send_done h 16 0;
     recv_done h0 0 5 (mk_endpoint 2130706433 8080 from)].
Proof. by vm_compute. Qed.

(** The no-op of [stop] repeats the tag left in its entry.  On a ring of
    one entry a receive is submitted and the loop waits for it; [stop()] is
    called from another thread.  The entry of the no-op is the one the
    receive used, so its completion names the record of the receive: the
    loop calls the handler of the receive with no error and 0 bytes,
    destroys the record, and [run()] returns.  When the receive itself
    completes afterwards, the kernel writes the sender into the destroyed
    record, and a loop that runs again calls [complete] through the
    dangling pointer. *)
Example ring_stop_repeats_stale_tag :
  let h := mk_handler 1 false in
  let from := mk_sockaddr_in 2 36895 16777343 in
  let w1 := (run (K:=linux) 8 []
               (async_receive_from (K:=linux) (mk_socket 3) (mk_span 4096 64) h
                  (initial 1))).2 in
  let w2 := run_wait (K:=linux) 8 [] (stop w1) in
  stale_user_data w1 = Some 0%nat ∧
  cq (ring_ (stop w1)) = [mk_cqe (Some 0%nat) 0] ∧
  w2.1 = Returned ∧
  calls (trace w2.2)
  = [recv_done h 0 0 (endpoint_from (K:=linux) (uninit_addr (constants:=linux)))] ∧
  heap w2.2 !! 0%nat = None ∧
  dangling w2.2 = [] ∧
  dangling (kernel_complete_op 0 5 from w2.2) = [0%nat] ∧
  dangling (run (K:=linux) 8 [kernel_complete 0 5 from] w2.2).2
  = [0%nat; 0%nat].
Proof. by vm_compute. Qed.

(** C9 at concrete inputs: an endpoint as a receive delivers it, and one
    built from an address and a port. *)
Lemma ring_send_destination_witness :
  let w := initial 4 in
  let h := mk_handler 7 false in
  let from := mk_sockaddr_in 2 36895 16777343 in
  wire_destination
    (async_send_to (K:=linux) (mk_socket 3) (mk_span 4096 5)
                   (mk_endpoint 1 2 from) h w)
    (sqe_sendto 3 (mk_span 4096 5) 0 16 0) = Some from ∧
  wire_destination
    (async_send_to (K:=linux) (mk_socket 3) (mk_span 4096 5)
                   (mk_endpoint 2130706433 8080 sockaddr_zero) h w)
    (sqe_sendto 3 (mk_span 4096 5) 0 16 0)
  = Some (mk_sockaddr_in 2 36895 16777343).
Proof.
  intros w h from. split.
  - destruct (ring_send_destination (K:=linux) (mk_socket 3) (mk_span 4096 5)
                (mk_endpoint 1 2 from) h w ltac:(reflexivity)) as (_ & H & _).
    exact (proj1 (H ltac:(reflexivity))).
  - destruct (ring_send_destination (K:=linux) (mk_socket 3) (mk_span 4096 5)
                (mk_endpoint 2130706433 8080 sockaddr_zero) h w
                ltac:(reflexivity)) as (_ & _ & H).
    exact (H ltac:(simpl; lia)).
Defined.

End IoUringFacts.

(** ** The ring backend with handlers that call back *)

Module IoUringCallFacts.
Import IoUring IoUringFacts.

Section Facts.

Context {K : constants}.

Lemma ring_perform_send s buf ep h then_ w :
  perform (call_send s buf ep h then_) w
  = async_send_to_with (performs then_) s buf ep h w.
Proof. done. Qed.

Lemma ring_perform_receive s buf h then_ w :
  perform (call_receive s buf h then_) w
  = async_receive_from_with (performs then_) s buf h w.
Proof. done. Qed.

Lemma ring_performs_cons c cs w :
  performs (c :: cs) w = performs cs (perform c w).
Proof. done. Qed.

(** *** The plain model is the model of handlers that make no call *)
Lemma complete_with_none r result w :
  complete_with (fun w => w) r result w = complete r result w.
Proof. done. Qed.

Lemma run_wait_with_unfold fuel env bodies w :
  run_wait_with (S fuel) env bodies w
  = match io_uring_wait_cqe env w with
    | wait_blocked w => (Blocked, w)
    | wait_failed env w =>
      if running_ w then run_wait_with fuel env bodies (io_uring_submit w)
      else (Returned, w)
    | wait_cqe c env w =>
      if running_ (process_with (performs (hd [] bodies)) c w)
      then run_wait_with fuel env (tl bodies)
             (io_uring_submit (process_with (performs (hd [] bodies)) c w))
      else (Returned, process_with (performs (hd [] bodies)) c w)
    end.
Proof. done. Qed.

Lemma ring_run_wait_with_quiet fuel env w :
  run_wait_with fuel env [] w = run_wait fuel env w.
Proof.
  revert env w. induction fuel as [|fuel IH]; intros env w; [done|].
  rewrite run_wait_with_unfold, run_wait_unfold.
  destruct (io_uring_wait_cqe env w) as [c env' w'|env' w'|w']; [| |done].
  - change (process_with (performs (hd [] [])) c w') with (process c w').
    destruct (running_ (process c w')); [apply IH|done].
  - destruct (running_ w'); [apply IH|done].
Qed.

Lemma ring_exec_with_quiet a w : exec_with w (quiet a) = exec w a.
Proof.
  destruct a; simpl; try done.
  - unfold run_with, run. by rewrite ring_run_wait_with_quiet.
  - by rewrite ring_run_wait_with_quiet.
Qed.

Lemma ring_execs_with_quiet acts w :
  foldl exec_with w (quiet <$> acts) = foldl exec w acts.
Proof.
  revert w. induction acts as [|a acts IH]; intros w; [done|].
  simpl. by rewrite ring_exec_with_quiet, IH.
Qed.

Lemma ring_step_handlers_quiet a : step_handlers (quiet a) = submitted a.
Proof. by destruct a. Qed.

(** What [complete] does to a live record. *)
Lemma complete_with_live body r result w h :
  held w r = Some h →
  ∃ i, handler_of i = h ∧
       complete_with body r result w = delete_this r (body (invoke i w)).
Proof.
  unfold held, complete_with. destruct (heap w !! r) as [op|] eqn:Hop; [|done].
  intros [= <-]. destruct op as [h a l|h a l iov];
    destruct (result <? 0); eexists; split; try reflexivity; done.
Qed.

Lemma complete_with_dangling body r result w :
  held w r = None → complete_with body r result w = use_after_delete r w.
Proof.
  unfold held, complete_with. by destruct (heap w !! r) as [[]|].
Qed.

Lemma async_send_to_with_room body s buf ep h w :
  io_uring_get_sqe w = true →
  async_send_to_with body s buf ep h w = async_send_to s buf ep h w.
Proof.
  intros H. unfold async_send_to_with, async_send_to. simpl.
  change (io_uring_get_sqe (emit _ _)) with (io_uring_get_sqe w). by rewrite H.
Qed.

Lemma async_send_to_with_full body s buf ep h w :
  io_uring_get_sqe w = false →
  ∃ i, handler_of i = h ∧
       async_send_to_with body s buf ep h w
       = delete_this (next w)
           (body (invoke i
              (new (send_operation h (destination ep) sizeof_sockaddr_in) w).2)).
Proof.
  intros H. unfold async_send_to_with. simpl.
  change (io_uring_get_sqe (emit _ _)) with (io_uring_get_sqe w). rewrite H.
  apply complete_with_live. unfold held. simpl. by rewrite lookup_insert_eq.
Qed.

Lemma async_receive_from_with_room body s buf h w :
  io_uring_get_sqe w = true →
  async_receive_from_with body s buf h w = async_receive_from s buf h w.
Proof.
  intros H. unfold async_receive_from_with, async_receive_from. simpl.
  change (io_uring_get_sqe (emit _ _)) with (io_uring_get_sqe w). by rewrite H.
Qed.

Lemma async_receive_from_with_full body s buf h w :
  io_uring_get_sqe w = false →
  ∃ i, handler_of i = h ∧
       async_receive_from_with body s buf h w
       = delete_this (next w)
           (body (invoke i
              (new (receive_operation h uninit_addr sizeof_sockaddr_storage
                                      None) w).2)).
Proof.
  intros H. unfold async_receive_from_with. simpl.
  change (io_uring_get_sqe (emit _ _)) with (io_uring_get_sqe w). rewrite H.
  apply complete_with_live. unfold held. simpl. by rewrite lookup_insert_eq.
Qed.

(** *** What a handler does not depend on

    What happens while a handler runs never reads a record that exists
    already: two worlds that differ only in one such record are taken to
    worlds that differ only in that record. *)
Ltac same_but_fields H :=
  let Hh := fresh "Hh" in
  let Hlt := fresh "Hlt" in
  match type of H with
  | same_but _ ?a ?b =>
    destruct a as [ha na ra ua ta da], b as [hb nb rb ub tb db];
    destruct H as (Hh & ? & ? & ? & ? & Hlt); simpl in *; subst
  end.

Lemma same_but_removed r w :
  (r < next w)%nat → same_but r w (set_heap (delete r (heap w)) w).
Proof.
  intros Hlt. split; [|done]. intros i Hi. simpl. by rewrite lookup_delete_ne.
Qed.

Lemma same_but_fired r a b : same_but r a b → fired a = fired b.
Proof. intros (_ & _ & _ & _ & Ht & _). unfold fired. by rewrite Ht. Qed.

Lemma same_but_held r a b k : same_but r a b → k ≠ r → held a k = held b k.
Proof. intros (Hh & _) Hk. unfold held. by rewrite Hh. Qed.

Lemma same_but_emit r e a b :
  same_but r a b → same_but r (emit e a) (emit e b).
Proof. intros H. same_but_fields H. by split. Qed.

Lemma same_but_stop r a b : same_but r a b → same_but r (stop a) (stop b).
Proof.
  intros H. same_but_fields H. unfold stop, io_uring_get_sqe. simpl.
  destruct (bool_decide _); by split.
Qed.

Lemma same_but_invoke r i a b :
  same_but r a b → same_but r (invoke i a) (invoke i b).
Proof.
  intros H. unfold invoke. destruct (h_stops _).
  - by apply same_but_stop, same_but_emit.
  - by apply same_but_emit.
Qed.

Lemma same_but_new r op a b :
  same_but r a b → same_but r (new op a).2 (new op b).2.
Proof.
  intros H. same_but_fields H. split; [|simpl; repeat split; try done; lia].
  intros i Hi. simpl. destruct (decide (i = nb)) as [->|Hne].
  - by rewrite !lookup_insert_eq.
  - rewrite !lookup_insert_ne by done. by apply Hh.
Qed.

Lemma same_but_push r q a b :
  same_but r a b → same_but r (push_sqe q a) (push_sqe q b).
Proof. intros H. same_but_fields H. by split. Qed.

Lemma same_but_insert r k op a b :
  same_but r a b →
  same_but r (set_heap (<[k := op]> (heap a)) a)
             (set_heap (<[k := op]> (heap b)) b).
Proof.
  intros H. same_but_fields H. split; [|done].
  intros i Hi. simpl. destruct (decide (i = k)) as [->|Hne].
  - by rewrite !lookup_insert_eq.
  - rewrite !lookup_insert_ne by done. by apply Hh.
Qed.

Lemma same_but_delete_this r k a b :
  same_but r a b → same_but r (delete_this k a) (delete_this k b).
Proof.
  intros H. same_but_fields H. split; [|done].
  intros i Hi. simpl. destruct (decide (i = k)) as [->|Hne].
  - by rewrite !lookup_delete_eq.
  - rewrite !lookup_delete_ne by done. by apply Hh.
Qed.

Lemma same_but_kernel r i result from a b :
  same_but r a b →
  same_but r (kernel_complete_op i result from a)
             (kernel_complete_op i result from b).
Proof.
  intros H. same_but_fields H. unfold kernel_complete_op. simpl.
  destruct (inflight rb !! i) as [q|]; [|by split].
  split; [|done]. intros k Hk. simpl. unfold store_sender.
  destruct q as [| fd m u |]; try (by apply Hh).
  destruct (0 <=? result); [|by apply Hh].
  destruct (decide (k = m)) as [->|Hne].
  - by rewrite !lookup_alter_eq, Hh.
  - rewrite !lookup_alter_ne by done. by apply Hh.
Qed.

Lemma same_but_close r s a b :
  same_but r a b → same_but r (close s a).2 (close s b).2.
Proof.
  intros H. unfold close. destruct (0 <=? fd_ s); [|done].
  by apply same_but_emit.
Qed.

Lemma same_but_next r a b : same_but r a b → next a = next b.
Proof. by intros (_ & ? & _). Qed.

Lemma same_but_room r a b :
  same_but r a b → io_uring_get_sqe a = io_uring_get_sqe b.
Proof. intros (_ & _ & Hr & _). unfold io_uring_get_sqe. by rewrite Hr. Qed.

Lemma same_but_complete_with r body k result a b :
  (∀ a b, same_but r a b → same_but r (body a) (body b)) →
  k ≠ r →
  same_but r a b →
  same_but r (complete_with body k result a) (complete_with body k result b).
Proof.
  intros Hbody Hk H. unfold complete_with.
  destruct H as (Hh & Hrest). rewrite <- (Hh k Hk).
  assert (same_but r a b) as H by (by split).
  destruct (heap a !! k) as [[h ad l|h ad l iov]|].
  - destruct (result <? 0);
      by apply same_but_delete_this, Hbody, same_but_invoke.
  - destruct (result <? 0);
      by apply same_but_delete_this, Hbody, same_but_invoke.
  - clear Hh Hrest. same_but_fields H. by split.
Qed.

Lemma async_send_to_with_unfold body s buf ep h w :
  async_send_to_with body s buf ep h w
  = if io_uring_get_sqe w
    then push_sqe (sqe_sendto (fd_ s) buf (next w) sizeof_sockaddr_in (next w))
           (new (send_operation h (destination ep) sizeof_sockaddr_in) w).2
    else complete_with body (next w) (- EBUSY)
           (new (send_operation h (destination ep) sizeof_sockaddr_in) w).2.
Proof. done. Qed.

Lemma async_receive_from_with_unfold body s buf h w :
  async_receive_from_with body s buf h w
  = let w1 := (new (receive_operation h uninit_addr sizeof_sockaddr_storage
                                      None) w).2 in
    if io_uring_get_sqe w
    then push_sqe (sqe_recvmsg (fd_ s) (next w) (next w))
           (set_heap (<[next w := receive_operation h uninit_addr
                                    sizeof_sockaddr_storage (Some buf)]>
                        (heap w1)) w1)
    else complete_with body (next w) (- EBUSY) w1.
Proof. done. Qed.

Lemma same_but_send_with r body s buf ep h a b :
  (∀ a b, same_but r a b → same_but r (body a) (body b)) →
  same_but r a b →
  same_but r (async_send_to_with body s buf ep h a)
             (async_send_to_with body s buf ep h b).
Proof.
  intros Hbody H. rewrite !async_send_to_with_unfold.
  rewrite <- (same_but_room _ _ _ H), <- (same_but_next _ _ _ H).
  assert (r < next a)%nat as Hlt by (by destruct H as (_ & _ & _ & _ & _ & ?)).
  destruct (io_uring_get_sqe a).
  - by apply same_but_push, same_but_new.
  - apply same_but_complete_with; [done|lia|]. by apply same_but_new.
Qed.

Lemma same_but_receive_with r body s buf h a b :
  (∀ a b, same_but r a b → same_but r (body a) (body b)) →
  same_but r a b →
  same_but r (async_receive_from_with body s buf h a)
             (async_receive_from_with body s buf h b).
Proof.
  intros Hbody H. rewrite !async_receive_from_with_unfold. cbv zeta.
  rewrite <- (same_but_room _ _ _ H), <- (same_but_next _ _ _ H).
  assert (r < next a)%nat as Hlt by (by destruct H as (_ & _ & _ & _ & _ & ?)).
  destruct (io_uring_get_sqe a).
  - by apply same_but_push, same_but_insert, same_but_new.
  - apply same_but_complete_with; [done|lia|]. by apply same_but_new.
Qed.

Lemma same_but_performs_of r cs :
  Forall (fun c => ∀ a b, same_but r a b → same_but r (perform c a) (perform c b))
         cs →
  ∀ a b, same_but r a b → same_but r (performs cs a) (performs cs b).
Proof.
  induction 1 as [|c cs Hc _ IH]; intros a b H; [done|].
  rewrite !ring_performs_cons. by apply IH, Hc.
Qed.

Lemma same_but_perform r c :
  ∀ a b, same_but r a b → same_but r (perform c a) (perform c b).
Proof.
  induction c as [s buf ep h then_ IH|s buf h then_ IH|s| |i result from]
    using ring_call_ind; intros a b H.
  - rewrite !ring_perform_send. apply same_but_send_with; [|done].
    by apply same_but_performs_of.
  - rewrite !ring_perform_receive. apply same_but_receive_with; [|done].
    by apply same_but_performs_of.
  - by apply same_but_close.
  - by apply same_but_stop.
  - by apply same_but_kernel.
Qed.

Lemma same_but_performs r cs a b :
  same_but r a b → same_but r (performs cs a) (performs cs b).
Proof.
  apply same_but_performs_of, Forall_forall. intros c _. apply same_but_perform.
Qed.

(** *** What a handler leaves as it is

    While a handler runs nothing is undone: the allocation counter and the
    trace only grow, completions are only appended to the completion queue,
    and the handlers of the records that exist already stay where they
    are. *)
Lemma grows_refl w : grows w w.
Proof.
  split; [done|]. split; [exists []; by rewrite app_nil_r|]. split; [done|].
  exists []. by rewrite app_nil_r.
Qed.

Lemma grows_trans w1 w2 w3 : grows w1 w2 → grows w2 w3 → grows w1 w3.
Proof.
  intros (Hn1 & (t1 & Ht1) & Hh1 & (e1 & He1)) (Hn2 & (t2 & Ht2) & Hh2 & (e2 & He2)).
  split; [lia|]. split; [exists (t1 ++ t2); by rewrite Ht2, Ht1, app_assoc|].
  split; [intros r Hr; rewrite Hh2 by lia; by apply Hh1|].
  exists (e1 ++ e2). by rewrite He2, He1, app_assoc.
Qed.

Lemma grows_stop w : grows w (stop w).
Proof.
  split; [by rewrite stop_next|]. split.
  { exists []. by rewrite stop_trace, app_nil_r. }
  split; [intros r _; apply held_heap, stop_heap|apply cq_stop].
Qed.

Lemma grows_emit e w : grows w (emit e w).
Proof.
  split; [done|]. split; [by exists [e]|]. split; [done|].
  exists []. by rewrite app_nil_r.
Qed.

Lemma grows_invoke i w : grows w (invoke i w).
Proof.
  unfold invoke. destruct (h_stops _); [|apply grows_emit].
  eapply grows_trans; [apply grows_emit|apply grows_stop].
Qed.

Lemma grows_kernel i result from w : grows w (kernel_complete_op i result from w).
Proof.
  unfold kernel_complete_op.
  destruct (inflight (ring_ w) !! i) as [q|]; [|apply grows_refl].
  split; [done|]. split; [exists []; simpl; by rewrite app_nil_r|].
  split; [intros r _; apply held_store_sender|]. simpl. by eexists.
Qed.

Lemma grows_close s w : grows w (close s w).2.
Proof.
  unfold close. destruct (0 <=? fd_ s); [apply grows_emit|apply grows_refl].
Qed.

Lemma grows_send_plain s buf ep h w :
  io_uring_get_sqe w = true → grows w (async_send_to s buf ep h w).
Proof.
  intros Hroom. rewrite async_send_to_room by done.
  split; [simpl; lia|]. split; [by eexists|]. split.
  - intros r Hr. unfold held. simpl. rewrite lookup_insert_ne by lia. done.
  - exists []. simpl. by rewrite app_nil_r.
Qed.

Lemma grows_receive_plain s buf h w :
  io_uring_get_sqe w = true → grows w (async_receive_from s buf h w).
Proof.
  intros Hroom. rewrite async_receive_from_room by done. cbv zeta.
  split; [simpl; lia|]. split; [by eexists|]. split.
  - intros r Hr. unfold held. simpl. rewrite !lookup_insert_ne by lia. done.
  - exists []. simpl. by rewrite app_nil_r.
Qed.

Lemma trace_delete_this r w : trace (delete_this r w) = trace w ++ [ev_delete r].
Proof. done. Qed.

Lemma grows_failed (body : world → world) op i w :
  (∀ w, grows w (body w)) →
  grows w (delete_this (next w) (body (invoke i (new op w).2))).
Proof.
  intros Hbody.
  assert (grows w (new op w).2) as H1.
  { split; [simpl; lia|]. split; [by eexists|]. split.
    - intros r Hr. unfold held. simpl. rewrite lookup_insert_ne by lia. done.
    - exists []. simpl. by rewrite app_nil_r. }
  pose proof (grows_trans _ _ _ H1
                (grows_trans _ _ _ (grows_invoke i _) (Hbody _)))
    as (Hn & (t & Ht) & Hh & He).
  split; [done|]. split.
  { exists (t ++ [ev_delete (next w)]).
    by rewrite trace_delete_this, Ht, app_assoc. }
  split; [|done].
  intros r Hr. rewrite held_delete_this, decide_False by lia. by apply Hh.
Qed.

Lemma grows_send_with body s buf ep h w :
  (∀ w, grows w (body w)) → grows w (async_send_to_with body s buf ep h w).
Proof.
  intros Hbody. destruct (io_uring_get_sqe w) eqn:Hroom.
  - rewrite async_send_to_with_room by done. by apply grows_send_plain.
  - destruct (async_send_to_with_full body s buf ep h w Hroom) as (i & _ & ->).
    by apply grows_failed.
Qed.

Lemma grows_receive_with body s buf h w :
  (∀ w, grows w (body w)) → grows w (async_receive_from_with body s buf h w).
Proof.
  intros Hbody. destruct (io_uring_get_sqe w) eqn:Hroom.
  - rewrite async_receive_from_with_room by done. by apply grows_receive_plain.
  - destruct (async_receive_from_with_full body s buf h w Hroom) as (i & _ & ->).
    by apply grows_failed.
Qed.

Lemma grows_performs_of cs :
  Forall (fun c => ∀ w, grows w (perform c w)) cs →
  ∀ w, grows w (performs cs w).
Proof.
  induction 1 as [|c cs Hc _ IH]; intros w; [apply grows_refl|].
  rewrite ring_performs_cons. eapply grows_trans; [apply Hc|apply IH].
Qed.

Lemma grows_perform c : ∀ w, grows w (perform c w).
Proof.
  induction c as [s buf ep h then_ IH|s buf h then_ IH|s| |i result from]
    using ring_call_ind; intros w.
  - rewrite ring_perform_send. by apply grows_send_with, grows_performs_of.
  - rewrite ring_perform_receive. by apply grows_receive_with, grows_performs_of.
  - apply grows_close.
  - apply grows_stop.
  - apply grows_kernel.
Qed.

Lemma grows_performs cs w : grows w (performs cs w).
Proof.
  apply grows_performs_of, Forall_forall. intros c _. apply grows_perform.
Qed.

(** *** Heap, ring and trace while handlers run *)

Lemma ordered_app t t' : ordered t → deleted t' = [] → ordered (t ++ t').
Proof.
  intros Ho Hd t1 t2 r Heq.
  apply app_eq_app in Heq as (l & [[-> Hl]|[-> Hl]]).
  - destruct l as [|e l].
    + simpl in Hl. subst t'. done.
    + simplify_eq/=. by eapply Ho.
  - subst t'. rewrite TraceFacts.deleted_app in Hd. simpl in Hd.
    by destruct (deleted l).
Qed.

Lemma ordered_delete t ta tb i r :
  ordered t → t = ta ++ ev_call i :: tb → ev_new r (handler_of i) ∈ ta →
  ordered (t ++ [ev_delete r]).
Proof.
  intros Ho Ht Hin t1 t2 r' Heq.
  destruct (decide (t2 = [])) as [->|Hne].
  - apply app_inj_tail in Heq as [<- [= <-]]. by exists ta, tb, i.
  - destruct (exists_last Hne) as (t2' & e & ->).
    rewrite app_comm_cons, app_assoc in Heq.
    apply app_inj_tail in Heq as [Heq _]. by eapply Ho.
Qed.

Lemma inv_bounded E w r : inv E w → is_Some (held w r) → (r < next w)%nat.
Proof. intros H Hr. apply (inv_fresh _ _ H). by apply (inv_heap _ _ H). Qed.

Lemma inv_weaken E E' w : inv E w → (∀ r, r ∈ E → r ∈ E') → inv E' w.
Proof.
  intros [Hl Hf Hd Hh Ho Hn Hc] Hsub. split; try done.
  intros r Hr. destruct (Hl r Hr); auto.
Qed.

Lemma inv_quiet E w w' t :
  inv E w →
  (∀ r, is_Some (held w r) → r ∈ tags w → r ∈ tags w') →
  (∀ r, held w' r = held w r) →
  next w' = next w →
  trace w' = trace w ++ t → created t = [] → deleted t = [] →
  inv E w'.
Proof.
  intros [Hl Hf Hd Hh Ho Hn Hc] Htags Hheld Hnext Htrace Hct Hdt.
  assert (created (trace w') = created (trace w)) as Hcr.
  { by rewrite Htrace, TraceFacts.created_app, Hct, app_nil_r. }
  assert (deleted (trace w') = deleted (trace w)) as Hde.
  { by rewrite Htrace, TraceFacts.deleted_app, Hdt, app_nil_r. }
  split.
  - intros r. rewrite Hheld. intros Hr. destruct (Hl r Hr); auto.
  - intros r. rewrite Hcr, Hnext. apply Hf.
  - intros r. rewrite Hcr, Hde. apply Hd.
  - intros r. rewrite Hcr, Hde, Hheld. apply Hh.
  - by rewrite Hde.
  - intros r h. rewrite Hheld. intros Hr. rewrite Htrace. apply elem_of_app.
    left. by apply Hn.
  - rewrite Htrace. by apply ordered_app.
Qed.

Lemma inv_next_free E w : inv E w → held w (next w) = None.
Proof.
  intros H. destruct (held w (next w)) eqn:Hh; [|done].
  assert (next w < next w)%nat; [|lia].
  apply (inv_bounded E w _ H). rewrite Hh. by eexists.
Qed.

Lemma inv_alloc E E' w w' h :
  inv E w →
  next w ∈ tags w' ∨ next w ∈ E' →
  (∀ r, r ∈ tags w → r ∈ tags w') →
  (∀ r, r ∈ E → r ∈ E') →
  held w' (next w) = Some h →
  (∀ r, r ≠ next w → held w' r = held w r) →
  next w' = S (next w) →
  trace w' = trace w ++ [ev_new (next w) h] →
  inv E' w'.
Proof.
  intros Hinv Htag Htags Hsub Hnew Hold Hnext Htrace.
  pose proof (inv_next_free E w Hinv) as Hfree.
  destruct Hinv as [Hl Hf Hd Hh Ho Hn Hc].
  assert (created (trace w') = created (trace w) ++ [next w]) as Hcr.
  { by rewrite Htrace, TraceFacts.created_app. }
  assert (deleted (trace w') = deleted (trace w)) as Hde.
  { rewrite Htrace, TraceFacts.deleted_app. apply app_nil_r. }
  assert (next w ∉ deleted (trace w)) as Hnd.
  { intros Hin. specialize (Hf _ (Hd _ Hin)). lia. }
  split.
  - intros r. destruct (decide (r = next w)) as [->|Hne]; [done|].
    rewrite Hold by done. intros Hr. destruct (Hl r Hr); auto.
  - intros r. rewrite Hcr, Hnext, elem_of_app, list_elem_of_singleton.
    intros [Hin| ->]; [|lia]. specialize (Hf _ Hin). lia.
  - intros r. rewrite Hcr, Hde, elem_of_app. intros Hin. left. by apply Hd.
  - intros r. rewrite Hcr, Hde, elem_of_app, list_elem_of_singleton.
    destruct (decide (r = next w)) as [->|Hne].
    + rewrite Hnew. split; [by auto|by eexists].
    + rewrite Hold, Hh by done. tauto.
  - by rewrite Hde.
  - intros r h'. rewrite Htrace, elem_of_app, list_elem_of_singleton.
    destruct (decide (r = next w)) as [->|Hne].
    + rewrite Hnew. intros [= ->]. by right.
    + rewrite Hold by done. intros Hr. left. by apply Hn.
  - rewrite Htrace. by apply ordered_app.
Qed.

Lemma inv_delete E w r i ta tb :
  inv (r :: E) w →
  held w r = Some (handler_of i) →
  trace w = ta ++ ev_call i :: tb →
  ev_new r (handler_of i) ∈ ta →
  inv E (delete_this r w).
Proof.
  intros [Hl Hf Hd Hh Ho Hn Hc] Hr Htrace Hnew.
  assert (created (trace (delete_this r w)) = created (trace w)) as Hcr.
  { simpl. rewrite TraceFacts.created_app. apply app_nil_r. }
  assert (deleted (trace (delete_this r w)) = deleted (trace w) ++ [r]) as Hde.
  { simpl. by rewrite TraceFacts.deleted_app. }
  assert (r ∈ created (trace w) ∧ r ∉ deleted (trace w)) as [Hrc Hrd].
  { apply Hh. rewrite Hr. by eexists. }
  split.
  - intros r'. rewrite held_delete_this. case_decide as Hd'; [by intros [? [=]]|].
    intros Hr'. rewrite tags_delete_this.
    destruct (Hl r' Hr') as [?|Hin]; [by left|].
    apply elem_of_cons in Hin as [?|?]; [done|by right].
  - intros r'. rewrite Hcr. apply Hf.
  - intros r'. rewrite Hcr, Hde, elem_of_app, list_elem_of_singleton.
    intros [Hin| ->]; [by apply Hd|done].
  - intros r'. rewrite Hcr, Hde, elem_of_app, list_elem_of_singleton.
    rewrite held_delete_this. case_decide as Hd'.
    + subst r'. split; [by intros [? [=]]|]. intros [_ Hnot].
      destruct Hnot. by right.
    + rewrite Hh. tauto.
  - rewrite Hde. apply NoDup_app. split; [done|]. split.
    + intros x Hx. rewrite list_elem_of_singleton. by intros ->.
    + apply NoDup_singleton.
  - intros r' h'. rewrite held_delete_this. case_decide as Hd'; [done|].
    intros Hr'. simpl. apply elem_of_app. left. by apply Hn.
  - simpl. by apply (ordered_delete _ ta tb i r).
Qed.

Lemma inv_seen E w c rest :
  inv E w →
  cq (ring_ w) = c :: rest →
  (∀ r, user_data c = Some r → held w r = None) →
  inv E (io_uring_cqe_seen w).
Proof.
  intros H Hcq Hgone. apply (inv_quiet E w _ []); try done.
  - intros r Hlive. unfold tags. simpl. rewrite Hcq. simpl.
    destruct (user_data c) as [r'|] eqn:Hr; [|done].
    rewrite !elem_of_app, elem_of_cons. intros [?|[->|?]]; auto.
    rewrite (Hgone r' eq_refl) in Hlive. by destruct Hlive.
  - simpl. by rewrite app_nil_r.
Qed.

Lemma inv_stop E w : inv E w → inv E (stop w).
Proof.
  intros H. apply (inv_quiet E w _ []); try done.
  - intros r _. apply tags_stop_incl.
  - intros r. apply held_heap, stop_heap.
  - apply stop_next.
  - by rewrite stop_trace, app_nil_r.
Qed.

Lemma inv_invoke E i w : inv E w → inv E (invoke i w).
Proof.
  intros H. apply (inv_quiet E w _ [ev_call i]); try done.
  - intros r _. apply tags_invoke_incl.
  - apply held_invoke.
  - apply ring_invoke_next.
  - apply ring_invoke_trace.
Qed.

Lemma inv_submit E w : inv E w → inv E (io_uring_submit w).
Proof.
  intros H. apply (inv_quiet E w _ []); try done.
  - intros r _. by rewrite tags_submit.
  - simpl. by rewrite app_nil_r.
Qed.

Lemma inv_set_running E b w : inv E w → inv E (set_running b w).
Proof.
  intros H. apply (inv_quiet E w _ []); try done. simpl. by rewrite app_nil_r.
Qed.

Lemma inv_kernel E i result from w :
  inv E w → inv E (kernel_complete_op i result from w).
Proof.
  intros H. apply (inv_quiet E w _ []); try done.
  - intros r _. by rewrite tags_kernel.
  - intros r. unfold kernel_complete_op.
    destruct (inflight (ring_ w) !! i) as [q|]; [|done].
    apply held_store_sender.
  - unfold kernel_complete_op. by destruct (inflight (ring_ w) !! i).
  - rewrite app_nil_r. unfold kernel_complete_op.
    by destruct (inflight (ring_ w) !! i).
Qed.

Lemma inv_close E s w : inv E w → inv E (close s w).2.
Proof.
  intros H. unfold close. destruct (0 <=? fd_ s); [|done]. simpl.
  by apply (inv_quiet E w _ [ev_sys (sys_close (fd_ s))]).
Qed.

Lemma inv_use_after_delete E r w : inv E w → inv E (use_after_delete r w).
Proof.
  intros H. apply (inv_quiet E w _ []); try done. simpl. by rewrite app_nil_r.
Qed.

Lemma inv_send_plain E s buf ep h w :
  io_uring_get_sqe w = true → inv E w → inv E (async_send_to s buf ep h w).
Proof.
  intros Hroom H. rewrite async_send_to_room by done.
  apply (inv_alloc E E w _ h); try done.
  - left. rewrite tags_push. simpl. apply elem_of_cons. by left.
  - intros r Hr. rewrite tags_push. simpl. apply elem_of_cons. by right.
  - unfold held. simpl. by rewrite lookup_insert_eq.
  - intros r Hne. unfold held. simpl. by rewrite lookup_insert_ne.
Qed.

Lemma inv_receive_plain E s buf h w :
  io_uring_get_sqe w = true → inv E w → inv E (async_receive_from s buf h w).
Proof.
  intros Hroom H. rewrite async_receive_from_room by done.
  apply (inv_alloc E E w _ h); try done.
  - left. rewrite tags_push. simpl. apply elem_of_cons. by left.
  - intros r Hr. rewrite tags_push. simpl. apply elem_of_cons. by right.
  - unfold held. simpl. by rewrite lookup_insert_eq.
  - intros r Hne. unfold held. simpl. by rewrite !lookup_insert_ne.
Qed.

(** A record completed on the spot: created, its handler called, destroyed
    when the handler has returned. *)
Lemma inv_failed E (body : world → world) op i w :
  (∀ E w, inv E w → inv E (body w)) →
  (∀ w, grows w (body w)) →
  op_handler op = handler_of i →
  inv E w →
  inv E (delete_this (next w) (body (invoke i (new op w).2))).
Proof.
  intros Hbody Hgrows Hop H.
  set (w1 := (new op w).2). set (w2 := invoke i w1).
  assert (inv (next w :: E) w1) as H1.
  { apply (inv_alloc E (next w :: E) w _ (op_handler op)); try done.
    - right. apply elem_of_cons. by left.
    - intros r Hr. apply elem_of_cons. by right.
    - unfold held, w1. simpl. by rewrite lookup_insert_eq.
    - intros r Hne. unfold held, w1. simpl. by rewrite lookup_insert_ne. }
  assert (inv (next w :: E) (body w2)) as H3 by (by apply Hbody, inv_invoke).
  destruct (Hgrows w2) as (_ & (t & Ht) & Hh & _).
  apply (inv_delete E _ _ i (trace w1) t); [done| | |].
  - rewrite Hh by (unfold w2; rewrite ring_invoke_next; simpl; lia).
    unfold w2. rewrite held_invoke. unfold held, w1. simpl.
    rewrite lookup_insert_eq. simpl. by rewrite Hop.
  - rewrite Ht. unfold w2. by rewrite ring_invoke_trace, <- app_assoc.
  - unfold w1. simpl. rewrite Hop. apply elem_of_app. right.
    by apply list_elem_of_singleton.
Qed.

Lemma inv_send_with E body s buf ep h w :
  (∀ E w, inv E w → inv E (body w)) →
  (∀ w, grows w (body w)) →
  inv E w → inv E (async_send_to_with body s buf ep h w).
Proof.
  intros Hbody Hgrows H. destruct (io_uring_get_sqe w) eqn:Hroom.
  - rewrite async_send_to_with_room by done. by apply inv_send_plain.
  - destruct (async_send_to_with_full body s buf ep h w Hroom) as (i & Hi & ->).
    by apply inv_failed.
Qed.

Lemma inv_receive_with E body s buf h w :
  (∀ E w, inv E w → inv E (body w)) →
  (∀ w, grows w (body w)) →
  inv E w → inv E (async_receive_from_with body s buf h w).
Proof.
  intros Hbody Hgrows H. destruct (io_uring_get_sqe w) eqn:Hroom.
  - rewrite async_receive_from_with_room by done. by apply inv_receive_plain.
  - destruct (async_receive_from_with_full body s buf h w Hroom)
      as (i & Hi & ->).
    by apply inv_failed.
Qed.

Lemma inv_performs_of cs :
  Forall (fun c => ∀ E w, inv E w → inv E (perform c w)) cs →
  ∀ E w, inv E w → inv E (performs cs w).
Proof.
  induction 1 as [|c cs Hc _ IH]; intros E w H; [done|].
  rewrite ring_performs_cons. by apply IH, Hc.
Qed.

Lemma inv_perform c : ∀ E w, inv E w → inv E (perform c w).
Proof.
  induction c as [s buf ep h then_ IH|s buf h then_ IH|s| |i result from]
    using ring_call_ind; intros E w H.
  - rewrite ring_perform_send. apply inv_send_with; [|apply grows_performs|done].
    by apply inv_performs_of.
  - rewrite ring_perform_receive.
    apply inv_receive_with; [|apply grows_performs|done].
    by apply inv_performs_of.
  - by apply inv_close.
  - by apply inv_stop.
  - by apply inv_kernel.
Qed.

Lemma inv_performs cs E w : inv E w → inv E (performs cs w).
Proof.
  revert E w. apply inv_performs_of, Forall_forall. intros c _.
  apply inv_perform.
Qed.

(** Consuming the completion at the head of the queue. *)
Lemma inv_process_with E cs c rest w :
  cq (ring_ w) = c :: rest →
  inv E w → inv E (process_with (performs cs) c w).
Proof.
  intros Hcq H. unfold process_with. destruct (user_data c) as [r|] eqn:Hr.
  - destruct (held w r) as [h|] eqn:Hh.
    + destruct (complete_with_live (performs cs) r (res c) w h Hh)
        as (i & Hi & ->).
      set (w2 := invoke i w).
      destruct (grows_performs cs w2) as (_ & (t & Ht) & Hheld & (extra & Hextra)).
      destruct (cq_invoke i w) as (extra0 & Hextra0).
      assert (r < next w)%nat as Hlt.
      { apply (inv_bounded E w r H). rewrite Hh. by eexists. }
      assert (inv E (delete_this r (performs cs w2))) as H4.
      { apply (inv_delete E _ _ i (trace w) t).
        - apply inv_performs, inv_invoke.
          apply (inv_weaken E); [done|]. intros r' Hr'. apply elem_of_cons.
          by right.
        - rewrite Hheld by (unfold w2; by rewrite ring_invoke_next).
          unfold w2. by rewrite held_invoke, Hh, Hi.
        - rewrite Ht. unfold w2. by rewrite ring_invoke_trace, <- app_assoc.
        - rewrite Hi. by apply (inv_handler E w H). }
      apply (inv_seen E _ c (rest ++ extra0 ++ extra)); [done| |].
      * simpl. rewrite Hextra. fold w2. unfold w2 at 1.
        by rewrite Hextra0, Hcq, <- !app_assoc.
      * intros r' Hr'. rewrite Hr in Hr'. simplify_eq.
        by rewrite held_delete_this, decide_True.
    + rewrite complete_with_dangling by done.
      apply (inv_seen E _ c rest); [by apply inv_use_after_delete|done|].
      intros r' Hr'. rewrite Hr in Hr'. by simplify_eq.
  - apply (inv_seen E _ c rest); [done|done|]. intros r' Hr'.
    rewrite Hr in Hr'. done.
Qed.

Lemma inv_wait E env w :
  inv E w →
  match io_uring_wait_cqe env w with
  | wait_cqe c _ w' => inv E w' ∧ ∃ rest, cq (ring_ w') = c :: rest
  | wait_failed _ w' | wait_blocked w' => inv E w'
  end.
Proof.
  revert w. induction env as [|[i result from|] env IH]; intros w H; simpl;
    destruct (cq (ring_ w)) eqn:Hcq; try done; try (split; [done|by eexists]).
  apply IH. by apply inv_kernel.
Qed.

Lemma inv_run_wait_with E fuel env bodies w :
  inv E w → inv E (run_wait_with fuel env bodies w).2.
Proof.
  revert env bodies w. induction fuel as [|fuel IH]; intros env bodies w H;
    [done|].
  rewrite run_wait_with_unfold.
  pose proof (inv_wait E env w H) as Hw.
  destruct (io_uring_wait_cqe env w) as [c env' w'|env' w'|w']; [| |done].
  - destruct Hw as [Hw (rest & Hcq)].
    pose proof (inv_process_with E (hd [] bodies) c rest w' Hcq Hw) as Hp.
    destruct (running_ (process_with _ c w')); [|done].
    by apply IH, inv_submit.
  - destruct (running_ w'); [|done]. by apply IH, inv_submit.
Qed.

Lemma inv_exec_with E a w : inv E w → inv E (exec_with w a).
Proof.
  intros H. destruct a as [c|fuel env bodies|fuel env bodies]; simpl.
  - by apply inv_perform.
  - unfold run_with. by apply inv_run_wait_with, inv_submit, inv_set_running.
  - by apply inv_run_wait_with.
Qed.

Lemma inv_initial entries : inv [] (initial entries).
Proof.
  split; simpl; try apply NoDup_nil_2.
  - intros r. unfold held. simpl. rewrite lookup_empty. by intros [? [=]].
  - intros r Hin. by apply elem_of_nil in Hin.
  - intros r Hin. by apply elem_of_nil in Hin.
  - intros r. unfold held. simpl. rewrite lookup_empty. split.
    + by intros [? [=]].
    + intros [Hin _]. by apply elem_of_nil in Hin.
  - intros r h. unfold held. simpl. by rewrite lookup_empty.
  - intros t1 t2 r Heq. by destruct t1.
Qed.

Lemma inv_execs_with entries steps :
  inv [] (foldl exec_with (initial entries) steps).
Proof.
  pose proof (inv_initial entries) as H. revert H.
  generalize (initial entries).
  induction steps as [|a steps IH]; intros w H; simpl; [done|].
  by apply IH, inv_exec_with.
Qed.

(** *** Accounting for the handlers

    While its handler runs a record is still on the heap.  What happens
    meanwhile is the same, record for record, as if the record had been
    removed before the call, except for that record; and that record is
    destroyed when the handler has returned. *)
Lemma ring_moves_after_handler r (body : world → world) hs w h w2 :
  (∀ w, moves fired held hs w (body w)) →
  (∀ a b, same_but r a b → same_but r (body a) (body b)) →
  (r < next w2)%nat →
  fired w2 = fired w ++ [h] →
  (∀ k, k ≠ r → held w2 k = held w k) →
  ∃ v, fired v = fired w ++ [h] ∧
       (∀ k, held v k = if decide (k = r) then None else held w k) ∧
       moves fired held hs v (delete_this r (body w2)).
Proof.
  intros Hm Ha Hlt Hf2 Hs2.
  set (v := set_heap (delete r (heap w2)) w2).
  pose proof (same_but_removed r w2 Hlt) as Hv. fold v in Hv.
  assert (∀ k, held v k = if decide (k = r) then None else held w k) as Hsv.
  { intros k. unfold held, v. simpl. case_decide as Hk.
    - subst. by rewrite lookup_delete_eq.
    - rewrite lookup_delete_ne by done. by apply Hs2. }
  exists v. split; [done|]. split; [done|].
  pose proof (Ha w2 v Hv) as Hb.
  replace hs with (hs ++ []) by apply app_nil_r.
  eapply mv_trans; [apply Hm|]. apply mv_quiet.
  - by rewrite fired_delete_this, (same_but_fired _ _ _ Hb).
  - intros k. rewrite held_delete_this. case_decide as Hk; [by right|left].
    by apply (same_but_held r).
Qed.

Lemma ring_moves_failed (body : world → world) hs op i w :
  (∀ w, moves fired held hs w (body w)) →
  (∀ r a b, same_but r a b → same_but r (body a) (body b)) →
  moves fired held (handler_of i :: hs) w
        (delete_this (next w) (body (invoke i (new op w).2))).
Proof.
  intros Hm Ha.
  destruct (ring_moves_after_handler (next w) body hs w (handler_of i)
              (invoke i (new op w).2) Hm (Ha (next w)))
    as (v & Hfv & Hsv & Hmv).
  - rewrite ring_invoke_next. simpl. lia.
  - by rewrite ring_fired_invoke, fired_new.
  - intros k Hk. rewrite held_invoke. unfold held. simpl.
    by rewrite lookup_insert_ne.
  - change (handler_of i :: hs) with ([handler_of i] ++ hs).
    eapply mv_trans; [|exact Hmv]. apply mv_submit_fire; [done|].
    intros k. rewrite Hsv. case_decide; [by right|by left].
Qed.

Lemma ring_moves_send_with body hs s buf ep h w :
  (∀ w, moves fired held hs w (body w)) →
  (∀ r a b, same_but r a b → same_but r (body a) (body b)) →
  moves fired held (h :: hs) w (async_send_to_with body s buf ep h w).
Proof.
  intros Hm Ha. destruct (io_uring_get_sqe w) eqn:Hroom.
  - rewrite async_send_to_with_room by done.
    change (h :: hs) with ([h] ++ hs).
    eapply mv_trans; [apply ring_moves_send|apply mv_unused].
  - destruct (async_send_to_with_full body s buf ep h w Hroom) as (i & <- & ->).
    by apply ring_moves_failed.
Qed.

Lemma ring_moves_receive_with body hs s buf h w :
  (∀ w, moves fired held hs w (body w)) →
  (∀ r a b, same_but r a b → same_but r (body a) (body b)) →
  moves fired held (h :: hs) w (async_receive_from_with body s buf h w).
Proof.
  intros Hm Ha. destruct (io_uring_get_sqe w) eqn:Hroom.
  - rewrite async_receive_from_with_room by done.
    change (h :: hs) with ([h] ++ hs).
    eapply mv_trans; [apply ring_moves_receive|apply mv_unused].
  - destruct (async_receive_from_with_full body s buf h w Hroom)
      as (i & <- & ->).
    by apply ring_moves_failed.
Qed.

Lemma ring_moves_performs_of cs :
  Forall (fun c => ∀ w, moves fired held (call_handlers c) w (perform c w)) cs →
  ∀ w, moves fired held (flat_map call_handlers cs) w (performs cs w).
Proof.
  induction 1 as [|c cs Hc _ IH]; intros w.
  - apply TraceFacts.moves_refl.
  - rewrite ring_performs_cons.
    change (flat_map call_handlers (c :: cs))
      with (call_handlers c ++ flat_map call_handlers cs).
    eapply mv_trans; [apply Hc|apply IH].
Qed.

(** A call, with everything that happens while the handlers it invokes
    run, calls only handlers the backend holds or was handed. *)
Lemma ring_moves_perform c w :
  moves fired held (call_handlers c) w (perform c w).
Proof.
  revert w.
  induction c as [s buf ep h then_ IH|s buf h then_ IH|s| |i result from]
    using ring_call_ind; intros w.
  - rewrite ring_perform_send. simpl. apply ring_moves_send_with.
    + by apply ring_moves_performs_of.
    + intros r a b. apply same_but_performs.
  - rewrite ring_perform_receive. simpl. apply ring_moves_receive_with.
    + by apply ring_moves_performs_of.
    + intros r a b. apply same_but_performs.
  - apply ring_moves_close.
  - apply ring_moves_stop.
  - apply moves_kernel.
Qed.

Lemma ring_moves_performs cs w :
  moves fired held (flat_map call_handlers cs) w (performs cs w).
Proof.
  apply ring_moves_performs_of, Forall_forall. intros c _.
  apply ring_moves_perform.
Qed.

Lemma ring_moves_process_with E cs c w :
  inv E w →
  moves fired held (flat_map call_handlers cs) w
        (process_with (performs cs) c w).
Proof.
  intros Hinv. unfold process_with.
  set (hs := flat_map call_handlers cs).
  set (w1 := match user_data c with Some _ => _ | None => _ end).
  assert (moves fired held hs w w1) as H1.
  { unfold w1. destruct (user_data c) as [r|]; [|apply mv_unused].
    destruct (held w r) as [h|] eqn:Hh.
    2:{ rewrite complete_with_dangling by done.
        replace hs with ([] ++ hs) by done.
        eapply mv_trans; [|apply mv_unused]. by apply moves_heap_trace. }
    destruct (complete_with_live (performs cs) r (res c) w h Hh)
      as (i & Hi & ->).
    destruct (ring_moves_after_handler r (performs cs) hs w h (invoke i w))
      as (v & Hfv & Hsv & Hmv).
    - apply ring_moves_performs.
    - intros a b. apply same_but_performs.
    - rewrite ring_invoke_next. apply (inv_bounded E w r Hinv). rewrite Hh.
      by eexists.
    - by rewrite ring_fired_invoke, Hi.
    - intros k _. apply held_invoke.
    - replace hs with ([] ++ hs) by done.
      eapply mv_trans; [|exact Hmv].
      apply (mv_fire _ _ _ _ r h); [done|done| |].
      + by rewrite Hsv, decide_True.
      + intros k. rewrite Hsv. case_decide; [by right|by left]. }
  replace hs with (hs ++ []) by apply app_nil_r.
  eapply mv_trans; [exact H1|]. by apply moves_heap_trace.
Qed.

Lemma bodies_handlers (bodies : list (list call)) :
  flat_map (flat_map call_handlers) bodies
  = flat_map call_handlers (hd [] bodies)
    ++ flat_map (flat_map call_handlers) (tl bodies).
Proof. by destruct bodies. Qed.

Lemma ring_moves_run_wait_with fuel env bodies w :
  inv [] w →
  moves fired held (flat_map (flat_map call_handlers) bodies) w
        (run_wait_with fuel env bodies w).2.
Proof.
  revert env bodies w. induction fuel as [|fuel IH]; intros env bodies w Hinv;
    [apply mv_unused|].
  rewrite run_wait_with_unfold.
  pose proof (moves_wait env w) as Hw.
  pose proof (inv_wait [] env w Hinv) as Hi.
  set (hs := flat_map (flat_map call_handlers) bodies).
  replace hs with ([] ++ hs) by done.
  destruct (io_uring_wait_cqe env w) as [c env' w'|env' w'|w'].
  - destruct Hi as [Hi (rest & Hcq)].
    eapply mv_trans; [exact Hw|]. unfold hs. rewrite bodies_handlers.
    pose proof (inv_process_with [] (hd [] bodies) c rest w' Hcq Hi) as Hp.
    eapply mv_trans; [by apply (ring_moves_process_with [])|].
    destruct (running_ (process_with _ c w')); [|apply mv_unused].
    set (hs' := flat_map _ (tl bodies)).
    replace hs' with ([] ++ hs') by done.
    eapply mv_trans; [apply moves_submit|]. by apply IH, inv_submit.
  - eapply mv_trans; [exact Hw|].
    destruct (running_ w'); [|apply mv_unused].
    replace hs with ([] ++ hs) by done.
    eapply mv_trans; [apply moves_submit|]. by apply IH, inv_submit.
  - eapply mv_trans; [exact Hw|apply mv_unused].
Qed.

Lemma ring_moves_exec_with a w :
  inv [] w → moves fired held (step_handlers a) w (exec_with w a).
Proof.
  intros Hinv. destruct a as [c|fuel env bodies|fuel env bodies]; simpl.
  - apply ring_moves_perform.
  - unfold run_with.
    set (hs := flat_map (flat_map call_handlers) bodies).
    replace hs with ([] ++ hs) by done.
    eapply mv_trans; [|by apply ring_moves_run_wait_with, inv_submit,
                                inv_set_running].
    by apply moves_heap_trace.
  - by apply ring_moves_run_wait_with.
Qed.

Lemma ring_moves_execs_with steps w :
  inv [] w →
  moves fired held (steps ≫= step_handlers) w (foldl exec_with w steps).
Proof.
  revert w. induction steps as [|a steps IH]; intros w Hinv; simpl.
  - apply TraceFacts.moves_refl.
  - eapply mv_trans; [by apply ring_moves_exec_with|].
    by apply IH, inv_exec_with.
Qed.

(** Whatever the application, the loop, the kernel and the handlers do, the
    handlers stay accounted for. *)
Lemma ring_accounted_execs_with entries steps :
  NoDup (steps ≫= step_handlers) →
  accounted fired held (steps ≫= step_handlers)
            (foldl exec_with (initial entries) steps).
Proof.
  intros Hnd.
  apply (TraceFacts.accounted_moves fired held _ _ _
           (ring_moves_execs_with steps (initial entries) (inv_initial entries))
           [] (ring_accounted_initial entries) Hnd).
Qed.

(** *** What each entry point records *)

(** A call with room in the submission queue creates its record and calls
    nothing; with the queue full it creates the record, calls the handler
    with [EBUSY], and destroys the record when the handler has returned. *)
Lemma ring_trace_send_with cs s buf ep h w :
  0 < EBUSY →
  ∃ tb, trace (perform (call_send s buf ep h cs) w)
        = trace w ++ ev_new (next w) h
          :: (if io_uring_get_sqe w then []
              else ev_call (send_done h EBUSY 0) :: tb ++ [ev_delete (next w)]).
Proof.
  intros Hbusy. rewrite ring_perform_send, async_send_to_with_unfold.
  destruct (io_uring_get_sqe w); [by exists []|].
  set (w1 := (new _ w).2). unfold complete_with.
  assert (heap w1 !! next w = Some (send_operation h (destination ep) sizeof_sockaddr_in)) as ->
    by (unfold w1; simpl; apply lookup_insert_eq).
  rewrite (proj2 (Z.ltb_lt (- EBUSY) 0)) by lia. rewrite Z.opp_involutive.
  set (w2 := invoke _ w1).
  destruct (grows_performs cs w2) as (_ & (tb & Ht) & _).
  exists tb. rewrite trace_delete_this, Ht. unfold w2.
  rewrite ring_invoke_trace. unfold w1. simpl. by rewrite <- !app_assoc.
Qed.

Lemma ring_trace_receive_with cs s buf h w :
  0 < EBUSY →
  ∃ tb, trace (perform (call_receive s buf h cs) w)
        = trace w ++ ev_new (next w) h
          :: (if io_uring_get_sqe w then []
              else ev_call (recv_done h EBUSY 0 endpoint_zero)
                   :: tb ++ [ev_delete (next w)]).
Proof.
  intros Hbusy. rewrite ring_perform_receive, async_receive_from_with_unfold.
  cbv zeta. destruct (io_uring_get_sqe w); [by exists []|].
  set (w1 := (new _ w).2). unfold complete_with.
  assert (heap w1 !! next w = Some (receive_operation h uninit_addr sizeof_sockaddr_storage
                                          None)) as ->
    by (unfold w1; simpl; apply lookup_insert_eq).
  rewrite (proj2 (Z.ltb_lt (- EBUSY) 0)) by lia. rewrite Z.opp_involutive.
  set (w2 := invoke _ w1).
  destruct (grows_performs cs w2) as (_ & (tb & Ht) & _).
  exists tb. rewrite trace_delete_this, Ht. unfold w2.
  rewrite ring_invoke_trace. unfold w1. simpl. by rewrite <- !app_assoc.
Qed.

(** Consuming a completion that names a live record: the handler of the
    record is called with the result, and the record is destroyed when the
    handler has returned. *)
Lemma ring_trace_process_with cs c w r op :
  user_data c = Some r →
  heap w !! r = Some op →
  (∃ tb, trace (process_with (performs cs) c w)
         = trace w
           ++ ev_call match op with
                      | send_operation h _ _ =>
                        if res c <? 0 then send_done h (- res c) 0
                        else send_done h 0 (res c)
                      | receive_operation h addr _ _ =>
                        if res c <? 0 then recv_done h (- res c) 0 endpoint_zero
                        else recv_done h 0 (res c) (endpoint_from addr)
                      end
           :: tb ++ [ev_delete r]) ∧
  heap (process_with (performs cs) c w) !! r = None.
Proof.
  intros Hr Hop. unfold process_with. rewrite Hr. unfold complete_with.
  rewrite Hop. split.
  - destruct op as [h a l|h a l iov]; destruct (res c <? 0);
      match goal with
      | |- context [performs cs (invoke ?i w)] =>
        destruct (grows_performs cs (invoke i w)) as (_ & (tb & Ht) & _);
        exists tb;
        change (trace (io_uring_cqe_seen ?x)) with (trace x);
        rewrite trace_delete_this, Ht, ring_invoke_trace;
        by rewrite <- !app_assoc
      end.
  - destruct op as [h a l|h a l iov]; simpl; apply lookup_delete_eq.
Qed.

Lemma ring_process_with_untagged body c w :
  user_data c = None → process_with body c w = io_uring_cqe_seen w.
Proof. intros Hr. unfold process_with. by rewrite Hr. Qed.

End Facts.

(** The receive handler of the echo server (lines 867-893) under the ring
    backend, on a ring of four entries.  The first receive is submitted;
    the kernel completes it; the loop calls its handler, which sends the
    datagram back and starts the next receive: both are written to the
    ring while the first record is still on the heap.  When the handler
    has returned the first record is destroyed, and the loop submits the
    two new operations before it waits again. *)
Example ring_rearmed_receive_is_submitted :
  let s := mk_socket 3 in
  let h1 := mk_handler 1 false in
  let h2 := mk_handler 2 false in
  let h3 := mk_handler 3 false in
  let buf := mk_span 4096 1024 in
  let from := mk_sockaddr_in 2 36895 16777343 in
  let peer := mk_endpoint 2130706433 8080 from in
  let echo := call_send s (mk_span 4096 5) peer h3 [] in
  let rearm := call_receive s buf h2 [] in
  let result := run_with (K:=linux) 2 [kernel_complete 0 5 from] [[echo; rearm]]
                  (perform (K:=linux) (call_receive s buf h1 []) (initial 4)) in
  result.1 = Blocked ∧
  trace result.2
  = [ev_new 0 h1;
     ev_call (recv_done h1 0 5 peer);
     ev_new 1 h3;
     ev_new 2 h2;
     ev_delete 0] ∧
  inflight (ring_ result.2)
  = [sqe_sendto 3 (mk_span 4096 5) 1 16 1; sqe_recvmsg 3 2 2] ∧
  held result.2 0 = None ∧
  held result.2 1 = Some h3 ∧
  held result.2 2 = Some h2 ∧
  dangling result.2 = [].
Proof. by vm_compute. Qed.

End IoUringCallFacts.

(** ** The completion backend *)

Module IocpFacts.
Import Iocp.

Section Facts.

Context {K : constants}.

Lemma iocp_invoke_trace i w : trace (invoke i w) = trace w ++ [ev_call i].
Proof. unfold invoke. by destruct (h_stops _). Qed.

Lemma iocp_invoke_heap i w : heap (invoke i w) = heap w.
Proof. unfold invoke. by destruct (h_stops _). Qed.

(** [complete] on a live record: the handler is called, then the record is
    deleted; nothing else is recorded. *)
Lemma iocp_complete_live r bytes error w op :
  heap w !! r = Some op →
  ∃ i, handler_of i = op_handler op ∧
       error_of i = error ∧
       bytes_of i = bytes ∧
       trace (complete r bytes error w) = trace w ++ [ev_call i; ev_delete r] ∧
       heap (complete r bytes error w) = delete r (heap w).
Proof.
  intros Hop. unfold complete. rewrite Hop.
  assert ((if error =? 0 then 0 else error) = error) as ->.
  { destruct (Z.eqb_spec error 0); congruence. }
  destruct op as [h buf|h buf a l fl]; eexists;
    (split; [|split; [|split; [|split]]]);
    try (simpl; rewrite iocp_invoke_trace, <- app_assoc; reflexivity);
    try (simpl; rewrite iocp_invoke_heap; reflexivity); done.
Qed.

End Facts.

(** The loop of the completion backend ends only when
    [GetQueuedCompletionStatus] fails.  The packet [stop()] posts is
    dequeued, found to carry no operation, and the loop waits again. *)
Example iocp_stop_is_ignored :
  (run (K:=windows) 8 [] (stop initial)).1 = Blocked.
Proof. by vm_compute. Qed.

(** A send that ends in failure is reported by a packet with a false
    status: the loop returns without calling [complete], so the handler is
    not called and the record stays on the heap. *)
Example iocp_failed_operation_ends_run :
  let h := mk_handler 1 false in
  let w := async_send_to (K:=windows) (mk_socket 3) (mk_span 4096 5)
             (mk_endpoint 2130706433 8080 sockaddr_zero) h
             (mk_sys_result (-1) 997) initial in
  let end_ := run (K:=windows) 8 [io_finished 0 false 0 sockaddr_zero] w in
  end_.1 = Returned ∧
  calls (trace end_.2) = [] ∧
  heap end_.2 !! 0%nat = Some (send_operation h (mk_span 4096 5)).
Proof. by vm_compute. Qed.

End IocpFacts.

(** ** Properties that span the backends *)

Module Claims.

Section Generic.

Context {KQ : Kqueue.constants} {KR : IoUring.constants}
        {KW : Iocp.constants}.

(** C10.  Under the ring and the readiness backends the source endpoint a
    receive handler gets is the zero-initialised endpoint whenever the
    receive failed or the sender's family is not [AF_INET]: in the ring's
    [complete], in the immediate attempt of the readiness backend, and in
    its [handle_ready].  The numeric address and port are filled in only
    after a successful receive from an [AF_INET] sender. *)
Theorem receive_source_endpoint :
  Kqueue.EVFILT_WRITE ≠ Kqueue.EVFILT_READ →
  (∀ r result w h a l iov,
     IoUring.heap w !! r = Some (IoUring.receive_operation h a l iov) →
     (result < 0 ∨ sin_family a ≠ IoUring.AF_INET →
        sources (IoUring.trace (IoUring.complete r result w))
        = sources (IoUring.trace w) ++ [endpoint_zero]) ∧
     (0 ≤ result → sin_family a = IoUring.AF_INET →
        sources (IoUring.trace (IoUring.complete r result w))
        = sources (IoUring.trace w)
          ++ [mk_endpoint (ntohl (sin_addr a)) (ntohs (sin_port a)) a])) ∧
  (∀ s buf h rcv kev w,
     (r_ret rcv < 0 ∨ sin_family (r_addr rcv) ≠ Kqueue.AF_INET →
        sources (Kqueue.trace (Kqueue.async_receive_from s buf h rcv kev w))
        = sources (Kqueue.trace w)
        ∨ sources (Kqueue.trace (Kqueue.async_receive_from s buf h rcv kev w))
          = sources (Kqueue.trace w) ++ [endpoint_zero]) ∧
     (0 ≤ r_ret rcv → sin_family (r_addr rcv) = Kqueue.AF_INET →
        sources (Kqueue.trace (Kqueue.async_receive_from s buf h rcv kev w))
        = sources (Kqueue.trace w)
          ++ [mk_endpoint (ntohl (sin_addr (r_addr rcv)))
                          (ntohs (sin_port (r_addr rcv))) sockaddr_zero])) ∧
  (∀ fd snd rcv w ops h,
     Kqueue.pending_operations_ w !! fd = Some ops →
     Kqueue.recv_handler ops = Some h →
     (r_ret rcv < 0 ∨ sin_family (r_addr rcv) ≠ Kqueue.AF_INET →
        sources (Kqueue.trace (Kqueue.handle_ready fd Kqueue.EVFILT_READ snd rcv w))
        = sources (Kqueue.trace w) ++ [endpoint_zero]) ∧
     (0 ≤ r_ret rcv → sin_family (r_addr rcv) = Kqueue.AF_INET →
        sources (Kqueue.trace (Kqueue.handle_ready fd Kqueue.EVFILT_READ snd rcv w))
        = sources (Kqueue.trace w)
          ++ [mk_endpoint (ntohl (sin_addr (r_addr rcv)))
                          (ntohs (sin_port (r_addr rcv))) sockaddr_zero])).
Proof.
  intros Hne. split; [|split].
  - intros r result w h a l iov Hr.
    rewrite (IoUringFacts.complete_receive _ _ _ _ _ _ _ Hr). simpl. split.
    + intros Hcase. destruct (Z.ltb_spec result 0) as [Hlt|Hge];
        rewrite IoUringFacts.ring_invoke_trace, !TraceFacts.sources_app; simpl;
        rewrite app_nil_r; [done|].
      destruct Hcase as [?|Hfam]; [lia|].
      unfold IoUring.endpoint_from. by rewrite (proj2 (Z.eqb_neq _ _) Hfam).
    + intros Hge Hfam. rewrite (proj2 (Z.ltb_ge _ _) Hge).
      rewrite IoUringFacts.ring_invoke_trace, !TraceFacts.sources_app. simpl.
      rewrite app_nil_r. unfold IoUring.endpoint_from.
      by rewrite (proj2 (Z.eqb_eq _ _) Hfam).
  - intros s buf h rcv kev w. split.
    + intros Hcase. destruct (Z.le_gt_cases 0 (r_ret rcv)) as [Hge|Hlt].
      * right. rewrite KqueueFacts.async_receive_from_done by done.
        rewrite KqueueFacts.invoke_trace. simpl.
        rewrite !TraceFacts.sources_app. simpl. rewrite !app_nil_r.
        destruct Hcase as [?|Hfam]; [lia|]. unfold Kqueue.endpoint_from.
        by rewrite (proj2 (Z.eqb_neq _ _) Hfam).
      * destruct (decide (r_errno rcv = Kqueue.EAGAIN
                          ∨ r_errno rcv = Kqueue.EWOULDBLOCK)) as [Hwb|Hhard].
        -- rewrite KqueueFacts.async_receive_from_would_block by (done || lia).
           simpl. destruct (ret kev <? 0); simpl.
           ++ right. rewrite KqueueFacts.invoke_trace,
                KqueueFacts.kevent_add_trace. simpl.
              rewrite !TraceFacts.sources_app. simpl. by rewrite !app_nil_r.
           ++ left. rewrite KqueueFacts.kevent_add_trace. simpl.
              rewrite !TraceFacts.sources_app. simpl. by rewrite !app_nil_r.
        -- right.
           rewrite KqueueFacts.async_receive_from_failed by (lia || tauto).
           rewrite KqueueFacts.invoke_trace. simpl.
           rewrite !TraceFacts.sources_app. simpl. by rewrite !app_nil_r.
    + intros Hge Hfam. rewrite KqueueFacts.async_receive_from_done by done.
      rewrite KqueueFacts.invoke_trace. simpl.
      rewrite !TraceFacts.sources_app. simpl. rewrite !app_nil_r.
      unfold Kqueue.endpoint_from.
      by rewrite (proj2 (Z.eqb_eq _ _) Hfam).
  - intros fd snd rcv w ops h Hops Hh.
    rewrite (KqueueFacts.handle_ready_read _ _ _ _ _ _ Hne Hops Hh). simpl.
    split.
    + intros Hcase. destruct (Z.leb_spec 0 (r_ret rcv)) as [Hge|Hlt];
        rewrite KqueueFacts.invoke_trace; simpl;
        rewrite !TraceFacts.sources_app; simpl; rewrite !app_nil_r; [|done].
      destruct Hcase as [?|Hfam]; [lia|]. unfold Kqueue.endpoint_from.
      by rewrite (proj2 (Z.eqb_neq _ _) Hfam).
    + intros Hge Hfam. rewrite (proj2 (Z.leb_le _ _) Hge).
      rewrite KqueueFacts.invoke_trace. simpl.
      rewrite !TraceFacts.sources_app. simpl. rewrite !app_nil_r.
      unfold Kqueue.endpoint_from. by rewrite (proj2 (Z.eqb_eq _ _) Hfam).
Qed.

(** C4 (amended).  The only place where a would-block result is turned into
    a pending operation is the immediate attempt of the readiness backend.
    There the handler is not called with it: the operation is stored and
    its filter registered; and when that registration fails, the handler is
    called at once with the error of the registration and 0 bytes, the
    operation is no longer stored, and nothing is registered.  Everywhere
    else a negative result reaches the handler with its error code
    unchanged, whatever the code is: in [handle_ready], which retries the
    stored operation after a notification, and in the ring's [complete]. *)
Theorem would_block_translated_on_fast_path_only :
  Kqueue.EVFILT_WRITE ≠ Kqueue.EVFILT_READ →
  (∀ s buf ep h snd kev w,
     ret snd < 0 →
     errno snd = Kqueue.EAGAIN ∨ errno snd = Kqueue.EWOULDBLOCK →
     (0 ≤ ret kev →
        calls (Kqueue.trace (Kqueue.async_send_to s buf ep h snd kev w))
        = calls (Kqueue.trace w) ∧
        Kqueue.pending_send (Kqueue.async_send_to s buf ep h snd kev w)
                            (Kqueue.fd_ s) = Some h ∧
        Kqueue.registered (Kqueue.async_send_to s buf ep h snd kev w)
        = {[ (Kqueue.fd_ s, Kqueue.EVFILT_WRITE) ]} ∪ Kqueue.registered w) ∧
     (ret kev < 0 →
        calls (Kqueue.trace (Kqueue.async_send_to s buf ep h snd kev w))
        = calls (Kqueue.trace w) ++ [send_done h (errno kev) 0] ∧
        Kqueue.pending_send (Kqueue.async_send_to s buf ep h snd kev w)
                            (Kqueue.fd_ s) = None ∧
        Kqueue.registered (Kqueue.async_send_to s buf ep h snd kev w)
        = Kqueue.registered w)) ∧
  (∀ s buf h rcv kev w,
     r_ret rcv < 0 →
     r_errno rcv = Kqueue.EAGAIN ∨ r_errno rcv = Kqueue.EWOULDBLOCK →
     (0 ≤ ret kev →
        calls (Kqueue.trace (Kqueue.async_receive_from s buf h rcv kev w))
        = calls (Kqueue.trace w) ∧
        Kqueue.pending_recv (Kqueue.async_receive_from s buf h rcv kev w)
                            (Kqueue.fd_ s) = Some h ∧
        Kqueue.registered (Kqueue.async_receive_from s buf h rcv kev w)
        = {[ (Kqueue.fd_ s, Kqueue.EVFILT_READ) ]} ∪ Kqueue.registered w) ∧
     (ret kev < 0 →
        calls (Kqueue.trace (Kqueue.async_receive_from s buf h rcv kev w))
        = calls (Kqueue.trace w) ++ [recv_done h (errno kev) 0 endpoint_zero] ∧
        Kqueue.pending_recv (Kqueue.async_receive_from s buf h rcv kev w)
                            (Kqueue.fd_ s) = None ∧
        Kqueue.registered (Kqueue.async_receive_from s buf h rcv kev w)
        = Kqueue.registered w)) ∧
  (∀ fd snd rcv w ops h,
     Kqueue.pending_operations_ w !! fd = Some ops →
     Kqueue.send_handler ops = Some h →
     ret snd < 0 →
     calls (Kqueue.trace (Kqueue.handle_ready fd Kqueue.EVFILT_WRITE snd rcv w))
     = calls (Kqueue.trace w) ++ [send_done h (errno snd) 0]) ∧
  (∀ fd snd rcv w ops h,
     Kqueue.pending_operations_ w !! fd = Some ops →
     Kqueue.recv_handler ops = Some h →
     r_ret rcv < 0 →
     calls (Kqueue.trace (Kqueue.handle_ready fd Kqueue.EVFILT_READ snd rcv w))
     = calls (Kqueue.trace w) ++ [recv_done h (r_errno rcv) 0 endpoint_zero]) ∧
  (∀ r result w h a l,
     IoUring.heap w !! r = Some (IoUring.send_operation h a l) →
     result < 0 →
     calls (IoUring.trace (IoUring.complete r result w))
     = calls (IoUring.trace w) ++ [send_done h (- result) 0]) ∧
  (∀ r result w h a l iov,
     IoUring.heap w !! r = Some (IoUring.receive_operation h a l iov) →
     result < 0 →
     calls (IoUring.trace (IoUring.complete r result w))
     = calls (IoUring.trace w) ++ [recv_done h (- result) 0 endpoint_zero]).
Proof.
  intros Hne. split; [|split; [|split; [|split; [|split]]]].
  - intros s buf ep h snd kev w Hr He. split.
    + intros Hk.
      destruct (KqueueFacts.kqueue_immediate_attempt_send_would_block
                  s buf ep h snd kev w Hr He Hk) as (Ht & Hp & _ & _ & _ & Hreg).
      split; [|done]. rewrite Ht, TraceFacts.calls_app. simpl.
      by rewrite app_nil_r.
    + intros Hk. split; [|split].
      * rewrite KqueueFacts.calls_send, (proj2 (Z.leb_gt _ _) Hr).
        replace (negb (errno snd =? Kqueue.EAGAIN)
                 && negb (errno snd =? Kqueue.EWOULDBLOCK)) with false.
        2:{ destruct He as [-> | ->]; rewrite Z.eqb_refl; simpl;
              by rewrite ?andb_false_r. }
        by rewrite (proj2 (Z.ltb_lt _ _) Hk).
      * pose proof (KqueueFacts.slot_send_would_block s buf ep h snd kev w
                      (Kqueue.fd_ s, true) Hr He) as Hs.
        rewrite decide_True, (proj2 (Z.ltb_lt _ _) Hk) in Hs by done.
        exact Hs.
      * rewrite KqueueFacts.async_send_to_would_block by done. cbv zeta.
        rewrite (proj2 (Z.ltb_lt _ _) Hk). simpl.
        rewrite KqueueFacts.invoke_registered, KqueueFacts.kevent_add_registered.
        by rewrite (proj2 (Z.ltb_lt _ _) Hk).
  - intros s buf h rcv kev w Hr He. split.
    + intros Hk.
      destruct (KqueueFacts.kqueue_immediate_attempt_receive_would_block
                  s buf h rcv kev w Hr He Hk) as (Ht & Hp & _ & _ & Hreg).
      split; [|done]. rewrite Ht, TraceFacts.calls_app. simpl.
      by rewrite app_nil_r.
    + intros Hk. split; [|split].
      * rewrite KqueueFacts.calls_receive, (proj2 (Z.leb_gt _ _) Hr).
        replace (negb (r_errno rcv =? Kqueue.EAGAIN)
                 && negb (r_errno rcv =? Kqueue.EWOULDBLOCK)) with false.
        2:{ destruct He as [-> | ->]; rewrite Z.eqb_refl; simpl;
              by rewrite ?andb_false_r. }
        by rewrite (proj2 (Z.ltb_lt _ _) Hk).
      * pose proof (KqueueFacts.slot_receive_would_block s buf h rcv kev w
                      (Kqueue.fd_ s, false) Hr He) as Hs.
        rewrite decide_True, (proj2 (Z.ltb_lt _ _) Hk) in Hs by done.
        exact Hs.
      * rewrite KqueueFacts.async_receive_from_would_block by done. cbv zeta.
        rewrite (proj2 (Z.ltb_lt _ _) Hk). simpl.
        rewrite KqueueFacts.invoke_registered, KqueueFacts.kevent_add_registered.
        by rewrite (proj2 (Z.ltb_lt _ _) Hk).
  - intros fd snd rcv w ops h Hops Hh Hr.
    rewrite (KqueueFacts.handle_ready_write _ _ _ _ _ _ Hne Hops Hh). simpl.
    rewrite (proj2 (Z.leb_gt _ _) Hr), KqueueFacts.invoke_trace. simpl.
    rewrite !TraceFacts.calls_app. simpl. by rewrite !app_nil_r.
  - intros fd snd rcv w ops h Hops Hh Hr.
    rewrite (KqueueFacts.handle_ready_read _ _ _ _ _ _ Hne Hops Hh). simpl.
    rewrite (proj2 (Z.leb_gt _ _) Hr), KqueueFacts.invoke_trace. simpl.
    rewrite !TraceFacts.calls_app. simpl. by rewrite !app_nil_r.
  - intros r result w h a l Hr Hlt.
    rewrite (IoUringFacts.complete_send _ _ _ _ _ _ Hr). simpl.
    rewrite (proj2 (Z.ltb_lt _ _) Hlt), IoUringFacts.ring_invoke_trace.
    rewrite !TraceFacts.calls_app. simpl. by rewrite !app_nil_r.
  - intros r result w h a l iov Hr Hlt.
    rewrite (IoUringFacts.complete_receive _ _ _ _ _ _ _ Hr). simpl.
    rewrite (proj2 (Z.ltb_lt _ _) Hlt), IoUringFacts.ring_invoke_trace.
    rewrite !TraceFacts.calls_app. simpl. by rewrite !app_nil_r.
Qed.

(** C1 (amended).  [close()] releases the descriptor (the system call is
    made and the member set to -1) and calls no handler.
    Under the readiness backend it removes both filters and erases the
    table entry of the descriptor, so the handler of a stored operation is
    dropped and no later notification for the descriptor finds it.  Under
    the ring backend it leaves the ring and the operation records as they
    are: an operation already submitted stays registered. *)
Theorem close_calls_no_handler :
  (∀ s w,
     0 ≤ Kqueue.fd_ s →
     Kqueue.fd_ (Kqueue.close s w).1 = -1 ∧
     Kqueue.trace (Kqueue.close s w).2
     = Kqueue.trace w
       ++ [ev_sys (sys_kevent_delete (Kqueue.kq_ s) (Kqueue.fd_ s)
                                     Kqueue.EVFILT_READ);
           ev_sys (sys_kevent_delete (Kqueue.kq_ s) (Kqueue.fd_ s)
                                     Kqueue.EVFILT_WRITE);
           ev_sys (sys_close (Kqueue.fd_ s))] ∧
     calls (Kqueue.trace (Kqueue.close s w).2) = calls (Kqueue.trace w) ∧
     Kqueue.pending_operations_ (Kqueue.close s w).2 !! Kqueue.fd_ s = None ∧
     ((Kqueue.fd_ s, Kqueue.EVFILT_READ) ∉ Kqueue.registered (Kqueue.close s w).2) ∧
     ((Kqueue.fd_ s, Kqueue.EVFILT_WRITE) ∉ Kqueue.registered (Kqueue.close s w).2) ∧
     ∀ f snd rcv,
       Kqueue.handle_ready (Kqueue.fd_ s) f snd rcv (Kqueue.close s w).2
       = (Kqueue.close s w).2) ∧
  (∀ s w,
     0 ≤ IoUring.fd_ s →
     IoUring.fd_ (IoUring.close s w).1 = -1 ∧
     IoUring.trace (IoUring.close s w).2
     = IoUring.trace w ++ [ev_sys (sys_close (IoUring.fd_ s))] ∧
     calls (IoUring.trace (IoUring.close s w).2) = calls (IoUring.trace w) ∧
     IoUring.heap (IoUring.close s w).2 = IoUring.heap w ∧
     IoUring.ring_ (IoUring.close s w).2 = IoUring.ring_ w).
Proof.
  split.
  - intros s w Hfd. rewrite KqueueFacts.close_open by done. simpl.
    split; [done|]. split; [by rewrite <- !app_assoc|]. split.
    { rewrite !TraceFacts.calls_app. simpl. by rewrite !app_nil_r. }
    split; [apply lookup_delete_eq|].
    split.
    { rewrite !elem_of_difference, !elem_of_singleton.
      intros [[_ Hx] _]. by apply Hx. }
    split.
    { rewrite !elem_of_difference, !elem_of_singleton.
      intros [_ Hx]. by apply Hx. }
    intros f snd rcv. apply KqueueFacts.handle_ready_none. simpl.
    apply lookup_delete_eq.
  - intros s w Hfd. unfold IoUring.close.
    rewrite (proj2 (Z.leb_le _ _) Hfd). simpl.
    split; [done|]. split; [done|]. split; [|done].
    rewrite TraceFacts.calls_app. simpl. by rewrite app_nil_r.
Qed.

(** C8 (amended).  What a receive reports for a datagram [d], when the
    kernel answers the very call the code makes.

    Readiness and ring backends, with the datagram semantics of
    [Posix.recvfrom]: the code asks for the whole buffer of the caller --
    in the immediate attempt, in the retry of a stored receive, and in the
    record the receive entry of the ring points at -- and hands the count
    the kernel returns to the handler unchanged.  So a datagram longer than
    the buffer is reported with the capacity of the buffer, one that fits
    with its own length, in both cases without an error, and the datagram
    is consumed whole.

    Completion backend, with the datagram semantics of
    [Winsock.WSARecvFrom]: a datagram longer than the buffer fails the call
    with [WSAEMSGSIZE], and the handler is called at once with that error
    and a count of 0. *)
Theorem receive_of_oversized_datagram d queue buf h :
  0 ≤ size buf →
  Kqueue.EVFILT_WRITE ≠ Kqueue.EVFILT_READ →
  Iocp.WSAEMSGSIZE ≠ 0 →
  Iocp.WSAEMSGSIZE ≠ Iocp.WSA_IO_PENDING →
  let len := Z.of_nat (length (Posix.payload d)) in
  let n := if size buf <? len then size buf else len in
  (Posix.recvfrom Kqueue.EAGAIN (d :: queue) buf).2 = queue ∧
  (∀ s kev w rcv e t,
     Kqueue.trace (Kqueue.async_receive_from s buf h rcv kev w)
     = Kqueue.trace w ++ e :: t →
     Posix.served Kqueue.EAGAIN (d :: queue) e = Some rcv →
     Kqueue.trace (Kqueue.async_receive_from s buf h rcv kev w)
     = Kqueue.trace w
       ++ [ev_sys (sys_recvfrom (Kqueue.fd_ s) buf);
           ev_call (recv_done h 0 n (Kqueue.endpoint_from (Posix.sender d)))]) ∧
  (∀ s rcv0 kev0 w snd rcv e t,
     r_ret rcv0 < 0 →
     r_errno rcv0 = Kqueue.EAGAIN ∨ r_errno rcv0 = Kqueue.EWOULDBLOCK →
     0 ≤ ret kev0 →
     Kqueue.trace (Kqueue.handle_ready (Kqueue.fd_ s) Kqueue.EVFILT_READ snd rcv
                     (Kqueue.async_receive_from s buf h rcv0 kev0 w))
     = Kqueue.trace (Kqueue.async_receive_from s buf h rcv0 kev0 w) ++ e :: t →
     Posix.served Kqueue.EAGAIN (d :: queue) e = Some rcv →
     Kqueue.trace (Kqueue.handle_ready (Kqueue.fd_ s) Kqueue.EVFILT_READ snd rcv
                     (Kqueue.async_receive_from s buf h rcv0 kev0 w))
     = Kqueue.trace (Kqueue.async_receive_from s buf h rcv0 kev0 w)
       ++ [ev_sys (sys_recvfrom (Kqueue.fd_ s) buf);
           ev_call (recv_done h 0 n (Kqueue.endpoint_from (Posix.sender d)));
           ev_sys (sys_kevent_delete (Kqueue.global_kq_ w) (Kqueue.fd_ s)
                                     Kqueue.EVFILT_READ)]) ∧
  (∀ s w,
     IoUring.io_uring_get_sqe w = true →
     IoUring.sq (IoUring.ring_ w) = [] →
     IoUring.inflight (IoUring.ring_ w) = [] →
     IoUring.cq (IoUring.ring_ w) = [] →
     ∃ ev,
       Posix.ring_arrival d 0
         (IoUring.io_uring_submit
            (IoUring.set_running true (IoUring.async_receive_from s buf h w)))
       = Some ev ∧
       IoUring.trace (IoUring.run 1 [ev] (IoUring.async_receive_from s buf h w)).2
       = IoUring.trace w
         ++ [ev_new (IoUring.next w) h;
             ev_call (recv_done h 0 n (IoUring.endpoint_from (Posix.sender d)));
             ev_delete (IoUring.next w)]) ∧
  (∀ s w res e t,
     size buf < len →
     Iocp.trace (Iocp.async_receive_from s buf h res w)
     = Iocp.trace w ++ ev_new (Iocp.next w) h :: e :: t →
     Winsock.served (d :: queue) e = Some res →
     Iocp.trace (Iocp.async_receive_from s buf h res w)
     = Iocp.trace w
       ++ [ev_new (Iocp.next w) h;
           ev_sys (sys_recvfrom (Iocp.socket_ s) buf);
           ev_call (recv_done h Iocp.WSAEMSGSIZE 0 Iocp.uninit_endpoint);
           ev_delete (Iocp.next w)]).
Proof.
  intros Hcap Hne Hmsg0 Hmsgp len n.
  assert (Posix.stored d (size buf) = n) as Hn.
  { unfold Posix.stored, n. fold len. destruct (Z.ltb_spec (size buf) len); lia. }
  assert (0 ≤ n) as Hn0.
  { unfold n. destruct (Z.ltb_spec (size buf) len); lia. }
  split; [done|]. split; [|split; [|split]].
  - intros s kev w rcv e t Ht Hserved.
    destruct (KqueueFacts.async_receive_from_asks s buf h rcv kev w) as (t' & Ht').
    rewrite Ht' in Ht. apply app_inv_head in Ht. injection Ht as <- _.
    simpl in Hserved. injection Hserved as <-.
    rewrite KqueueFacts.async_receive_from_done by (simpl; lia).
    rewrite KqueueFacts.invoke_trace. simpl. rewrite Hn, <- app_assoc. done.
  - intros s rcv0 kev0 w snd rcv e t Hr He Hk Ht Hserved.
    rewrite (KqueueFacts.stored_receive_retry s buf h rcv0 kev0 w snd rcv
               Hne Hr He Hk) in Ht |- *.
    apply app_inv_head in Ht. injection Ht as <- _.
    simpl in Hserved. injection Hserved as <-. simpl.
    by rewrite Hn, (proj2 (Z.leb_le _ _) Hn0).
  - intros s w Hroom Hsq Hin Hcq.
    rewrite IoUringFacts.async_receive_from_room by done. cbv zeta.
    destruct w as [hp nx [sq0 n0 infl cq0 sqes0 tail0] rn tr dg].
    simpl in Hsq, Hin, Hcq. subst sq0 infl cq0.
    exists (IoUring.kernel_complete 0 n (Posix.sender d)). split.
    + unfold Posix.ring_arrival. simpl. rewrite lookup_insert_eq. by rewrite Hn.
    + unfold IoUring.run. rewrite IoUringFacts.run_wait_unfold. simpl.
      set (w3 := IoUring.kernel_complete_op _ _ _ _).
      assert (IoUring.heap w3 !! nx
              = Some (IoUring.receive_operation h (Posix.sender d)
                        IoUring.sizeof_sockaddr_storage (Some buf))) as Hop.
      { unfold w3, IoUring.kernel_complete_op. simpl.
        rewrite (proj2 (Z.leb_le _ _) Hn0).
        by rewrite lookup_alter_eq, lookup_insert_eq. }
      assert (IoUring.trace w3 = tr ++ [ev_new nx h]) as Htr by done.
      assert (IoUring.trace (IoUring.complete nx n w3)
              = tr ++ [ev_new nx h;
                       ev_call (recv_done h 0 n
                                  (IoUring.endpoint_from (Posix.sender d)));
                       ev_delete nx]) as Hdone.
      { rewrite (IoUringFacts.complete_receive _ _ _ _ _ _ _ Hop).
        rewrite (proj2 (Z.ltb_ge _ _) Hn0). simpl.
        rewrite IoUringFacts.ring_invoke_trace, Htr. by rewrite <- !app_assoc. }
      unfold IoUring.process. simpl.
      by destruct (IoUring.running_ (IoUring.complete nx n w3)).
  - intros s w res e t Hbig Ht Hserved.
    assert (∃ t', Iocp.trace (Iocp.async_receive_from s buf h res w)
                  = Iocp.trace w ++ ev_new (Iocp.next w) h
                      :: ev_sys (sys_recvfrom (Iocp.socket_ s) buf) :: t')
      as (t' & Ht').
    { unfold Iocp.async_receive_from. simpl.
      destruct (_ && _).
      - unfold Iocp.complete. simpl. rewrite lookup_insert_eq. simpl.
        rewrite IocpFacts.iocp_invoke_trace. simpl. rewrite <- !app_assoc.
        by eexists.
      - simpl. rewrite <- !app_assoc. by eexists. }
    rewrite Ht' in Ht. apply app_inv_head in Ht. injection Ht as <- _.
    simpl in Hserved. fold len in Hserved.
    rewrite (proj2 (Z.ltb_lt _ _) Hbig) in Hserved. injection Hserved as <-.
    unfold Iocp.async_receive_from. simpl.
    rewrite Z.eqb_refl, (proj2 (Z.eqb_neq _ _) Hmsgp). simpl.
    unfold Iocp.complete. simpl. rewrite lookup_insert_eq.
    rewrite (proj2 (Z.eqb_neq _ _) Hmsg0). simpl.
    rewrite (proj2 (Z.eqb_neq _ _) Hmsg0). simpl.
    rewrite IocpFacts.iocp_invoke_trace. simpl. by rewrite <- !app_assoc.
Qed.

(** C3.  What [stop()] does to a loop thread that is waiting, under the
    two backends where it does not end [run()].

    Readiness backend: [stop()] clears the flag and nothing else.  It makes
    no system call and leaves the registrations and the table as they are,
    so the kernel has nothing new to report: a thread blocked in [kevent]
    stays blocked for as long as no descriptor becomes ready, and [run()]
    returns only when [kevent] next returns for some other reason.

    Completion backend: the packet [stop()] posts carries no operation;
    [run()] dequeues it, skips it, and waits again, exactly as if [stop()]
    had not been called. *)
Theorem stop_leaves_loop_blocked :
  (∀ w,
     Kqueue.trace (Kqueue.stop w) = Kqueue.trace w ∧
     Kqueue.registered (Kqueue.stop w) = Kqueue.registered w ∧
     Kqueue.pending_operations_ (Kqueue.stop w) = Kqueue.pending_operations_ w ∧
     Kqueue.run_wait [] (Kqueue.stop w) = (Kqueue.Blocked, Kqueue.stop w) ∧
     ∀ o env, (Kqueue.run_wait (o :: env) (Kqueue.stop w)).1 = Kqueue.Returned) ∧
  (∀ fuel env w,
     Iocp.iocp_ w = [] →
     Iocp.run (S fuel) env (Iocp.stop w) = Iocp.run fuel env w).
Proof.
  split.
  - intros w. split; [done|]. split; [done|]. split; [done|]. split; [done|].
    intros o env. by apply KqueueFacts.run_wait_stopped.
  - intros fuel env w Hport.
    destruct w as [hp nx port infl tr]. simpl in Hport. subst port.
    cbn [Iocp.run]. by destruct env.
Qed.

(** C2 (amended).  Under the readiness and the ring backends, for handlers
    that are pairwise distinct closures.  While a handler runs it may call
    [async_send_to] and [async_receive_from], whose handlers may do the
    same in their turn, and [stop()]; under the ring backend it may also
    call [close()], and the kernel may complete operations in flight
    meanwhile.

    - Whatever the application, the loop, the kernel and the handlers do,
      no handler handed to [async_send_to] or [async_receive_from] is
      called twice; under the ring backend this is claimed of the
      executions in which no record is used after its destruction
      ([dangling] is empty), the only ones whose behaviour is defined.
    - Under the readiness backend a handler is called before the
      initiating call returns exactly when the immediate attempt succeeds
      or fails with a hard error, or when the registration fails, and it
      receives the byte count or the error code of that outcome; the calls
      its own calls make follow.  Under the ring backend a handler is
      called before the initiating call returns exactly when the submission
      queue is full, and it receives [EBUSY].
    - A handler is called from the loop when a block of [handle_ready]
      finds it stored for the notified direction, or when the loop consumes
      a completion that names its record while the record exists; it
      receives the result of the retry or of that completion.  When it has
      returned it is no longer stored, and the record is destroyed.  A
      completion that names no record calls nothing.
    - Under the readiness backend a stored handler is never called once a
      later call in the same direction on the same descriptor would block,
      or once [close()] has erased the entry of the descriptor; and no
      handler that has been handed over, has not been called and is no
      longer stored is ever called. *)
Theorem callback_at_most_once :
  0 < IoUring.EBUSY →
  (∀ kq steps,
     NoDup (steps ≫= Kqueue.step_handlers) →
     NoDup (called (Kqueue.trace
                      (foldl Kqueue.exec_with (Kqueue.initial kq) steps)))) ∧
  (∀ entries steps,
     NoDup (steps ≫= IoUring.step_handlers) →
     IoUring.dangling
       (foldl IoUring.exec_with (IoUring.initial entries) steps) = [] →
     NoDup (called (IoUring.trace
                      (foldl IoUring.exec_with (IoUring.initial entries) steps)))) ∧
  (∀ c w,
     calls (Kqueue.trace (Kqueue.perform c w))
     = calls (Kqueue.trace w) ++ Kqueue.call_invocations c) ∧
  (∀ cs s buf ep h w,
     ∃ tb, IoUring.trace (IoUring.perform (IoUring.call_send s buf ep h cs) w)
           = IoUring.trace w
             ++ ev_new (IoUring.next w) h
             :: (if IoUring.io_uring_get_sqe w then []
                 else ev_call (send_done h IoUring.EBUSY 0)
                      :: tb ++ [ev_delete (IoUring.next w)])) ∧
  (∀ cs s buf h w,
     ∃ tb, IoUring.trace (IoUring.perform (IoUring.call_receive s buf h cs) w)
           = IoUring.trace w
             ++ ev_new (IoUring.next w) h
             :: (if IoUring.io_uring_get_sqe w then []
                 else ev_call (recv_done h IoUring.EBUSY 0 endpoint_zero)
                      :: tb ++ [ev_delete (IoUring.next w)])) ∧
  (∀ n w,
     Kqueue.handle_ready_with n w
     = Kqueue.ready_read_with (Kqueue.performs (Kqueue.on_read n))
         (Kqueue.udata (Kqueue.n_ready n)) (Kqueue.filter (Kqueue.n_ready n))
         (Kqueue.recv_outcome (Kqueue.n_ready n))
         (Kqueue.ready_write_with (Kqueue.performs (Kqueue.on_write n))
            (Kqueue.udata (Kqueue.n_ready n)) (Kqueue.filter (Kqueue.n_ready n))
            (Kqueue.send_outcome (Kqueue.n_ready n)) w)) ∧
  (∀ cs fd f snd w,
     calls (Kqueue.trace
              (Kqueue.ready_write_with (Kqueue.performs cs) fd f snd w))
     = calls (Kqueue.trace w)
       ++ match Kqueue.pending_send w fd with
          | Some h =>
            if f =? Kqueue.EVFILT_WRITE
            then (if 0 <=? ret snd then send_done h 0 (ret snd)
                  else send_done h (errno snd) 0)
                 :: flat_map Kqueue.call_invocations cs
            else []
          | None => []
          end) ∧
  (∀ cs fd f rcv w,
     calls (Kqueue.trace
              (Kqueue.ready_read_with (Kqueue.performs cs) fd f rcv w))
     = calls (Kqueue.trace w)
       ++ match Kqueue.pending_recv w fd with
          | Some h =>
            if f =? Kqueue.EVFILT_READ
            then (if 0 <=? r_ret rcv
                  then recv_done h 0 (r_ret rcv)
                         (Kqueue.endpoint_from (r_addr rcv))
                  else recv_done h (r_errno rcv) 0 endpoint_zero)
                 :: flat_map Kqueue.call_invocations cs
            else []
          | None => []
          end) ∧
  (∀ body fd snd rcv w h,
     (Kqueue.pending_send w fd = Some h →
      Kqueue.pending_send
        (Kqueue.ready_write_with body fd Kqueue.EVFILT_WRITE snd w) fd
      ≠ Some h) ∧
     (Kqueue.pending_recv w fd = Some h →
      Kqueue.pending_recv
        (Kqueue.ready_read_with body fd Kqueue.EVFILT_READ rcv w) fd
      ≠ Some h)) ∧
  (∀ cs c w r op,
     IoUring.user_data c = Some r →
     IoUring.heap w !! r = Some op →
     (∃ tb, IoUring.trace (IoUring.process_with (IoUring.performs cs) c w)
            = IoUring.trace w
              ++ ev_call match op with
                         | IoUring.send_operation h _ _ =>
                           if IoUring.res c <? 0
                           then send_done h (- IoUring.res c) 0
                           else send_done h 0 (IoUring.res c)
                         | IoUring.receive_operation h addr _ _ =>
                           if IoUring.res c <? 0
                           then recv_done h (- IoUring.res c) 0 endpoint_zero
                           else recv_done h 0 (IoUring.res c)
                                  (IoUring.endpoint_from addr)
                         end
              :: tb ++ [ev_delete r]) ∧
     IoUring.heap (IoUring.process_with (IoUring.performs cs) c w) !! r = None) ∧
  (∀ body c w,
     IoUring.user_data c = None →
     IoUring.trace (IoUring.process_with body c w) = IoUring.trace w) ∧
  (∀ kq steps0 steps1 s buf ep h snd kev then_ h0,
     NoDup ((steps0 ++ Kqueue.step_call
                         (Kqueue.call_send s buf ep h snd kev then_) :: steps1)
              ≫= Kqueue.step_handlers) →
     Kqueue.pending_send (foldl Kqueue.exec_with (Kqueue.initial kq) steps0)
                         (Kqueue.fd_ s) = Some h0 →
     ret snd < 0 →
     errno snd = Kqueue.EAGAIN ∨ errno snd = Kqueue.EWOULDBLOCK →
     h0 ∉ called (Kqueue.trace
                    (foldl Kqueue.exec_with (Kqueue.initial kq)
                       (steps0 ++ Kqueue.step_call
                                    (Kqueue.call_send s buf ep h snd kev then_)
                               :: steps1)))) ∧
  (∀ kq steps0 steps1 s buf h rcv kev then_ h0,
     NoDup ((steps0 ++ Kqueue.step_call
                         (Kqueue.call_receive s buf h rcv kev then_) :: steps1)
              ≫= Kqueue.step_handlers) →
     Kqueue.pending_recv (foldl Kqueue.exec_with (Kqueue.initial kq) steps0)
                         (Kqueue.fd_ s) = Some h0 →
     r_ret rcv < 0 →
     r_errno rcv = Kqueue.EAGAIN ∨ r_errno rcv = Kqueue.EWOULDBLOCK →
     h0 ∉ called (Kqueue.trace
                    (foldl Kqueue.exec_with (Kqueue.initial kq)
                       (steps0 ++ Kqueue.step_call
                                    (Kqueue.call_receive s buf h rcv kev then_)
                               :: steps1)))) ∧
  (∀ kq steps0 steps1 s h0,
     NoDup ((steps0 ++ Kqueue.step_close s :: steps1) ≫= Kqueue.step_handlers) →
     Kqueue.pending_send (foldl Kqueue.exec_with (Kqueue.initial kq) steps0)
                         (Kqueue.fd_ s) = Some h0
     ∨ Kqueue.pending_recv (foldl Kqueue.exec_with (Kqueue.initial kq) steps0)
                           (Kqueue.fd_ s) = Some h0 →
     0 ≤ Kqueue.fd_ s →
     h0 ∉ called (Kqueue.trace
                    (foldl Kqueue.exec_with (Kqueue.initial kq)
                       (steps0 ++ Kqueue.step_close s :: steps1)))) ∧
  (∀ kq steps0 steps1 h0,
     NoDup ((steps0 ++ steps1) ≫= Kqueue.step_handlers) →
     h0 ∈ steps0 ≫= Kqueue.step_handlers →
     h0 ∉ called (Kqueue.trace
                    (foldl Kqueue.exec_with (Kqueue.initial kq) steps0)) →
     (∀ fd, Kqueue.pending_send
              (foldl Kqueue.exec_with (Kqueue.initial kq) steps0) fd ≠ Some h0
            ∧ Kqueue.pending_recv
                (foldl Kqueue.exec_with (Kqueue.initial kq) steps0) fd
              ≠ Some h0) →
     h0 ∉ called (Kqueue.trace
                    (foldl Kqueue.exec_with (Kqueue.initial kq)
                       (steps0 ++ steps1)))).
Proof.
  intros Hbusy.
  split. { intros kq steps Hnd. apply (acc_once _ _ _ _
             (KqueueCallFacts.accounted_execs_with kq steps Hnd)). }
  split. { intros entries steps Hnd _. apply (acc_once _ _ _ _
             (IoUringCallFacts.ring_accounted_execs_with entries steps Hnd)). }
  split; [apply KqueueCallFacts.calls_perform|].
  split; [intros; by apply IoUringCallFacts.ring_trace_send_with|].
  split; [intros; by apply IoUringCallFacts.ring_trace_receive_with|].
  split; [apply KqueueCallFacts.handle_ready_with_blocks|].
  split; [apply KqueueCallFacts.calls_ready_write_with|].
  split; [apply KqueueCallFacts.calls_ready_read_with|].
  split.
  { intros body fd snd rcv w h. split; intros _.
    - by rewrite KqueueCallFacts.ready_write_with_clears.
    - by rewrite KqueueCallFacts.ready_read_with_clears. }
  split; [intros; by apply IoUringCallFacts.ring_trace_process_with|].
  split.
  { intros body c w Hr.
    by rewrite IoUringCallFacts.ring_process_with_untagged. }
  split; [apply KqueueCallFacts.overwritten_send_never_called|].
  split; [apply KqueueCallFacts.overwritten_receive_never_called|].
  split; [apply KqueueCallFacts.erased_never_called|].
  intros kq steps0 steps1 h0 Hnd Hin Hnf Hns.
  apply (KqueueCallFacts.dropped_with kq steps0 steps1 h0 Hnd Hin Hnf).
  intros [fd [|]]; apply (Hns fd).
Qed.

(** C7 (amended).  Ring backend.  While a handler runs it may call
    [async_send_to] and [async_receive_from], whose handlers may do the
    same in their turn, [close()] and [stop()], and the kernel may complete
    operations in flight meanwhile.  In every world the application, the
    loop, the kernel and the handlers can reach from a fresh loop without
    using a record after its destruction ([dangling] is empty),

    - no record has been destroyed twice;
    - a record has been destroyed only after a call of the handler it was
      created with;
    - the records on the heap are those created and not yet destroyed;
    - the ring refers to every record on the heap.

    When the handlers make no call, a record has been destroyed only right
    after the call of its handler.

    [complete] calls the handler of its record and destroys the record
    when the handler has returned, whatever the result.  Each call of
    [async_send_to] or [async_receive_from] creates one record, and
    completes it on the spot when it finds the submission queue full;
    consuming a completion that names a record on the heap completes that
    record.  Under the completion backend [complete] likewise calls the
    handler of its record and then destroys it.  [close()] and [stop()]
    destroy nothing: a record whose completion has not been consumed stays
    on the heap. *)
Theorem record_lifetime :
  0 < IoUring.EBUSY →
  (∀ entries steps,
     IoUring.dangling
       (foldl IoUring.exec_with (IoUring.initial entries) steps) = [] →
     NoDup (deleted (IoUring.trace
                       (foldl IoUring.exec_with (IoUring.initial entries) steps))) ∧
     (∀ t1 t2 r,
        IoUring.trace (foldl IoUring.exec_with (IoUring.initial entries) steps)
        = t1 ++ ev_delete r :: t2 →
        ∃ ta tb i, t1 = ta ++ ev_call i :: tb ∧ ev_new r (handler_of i) ∈ ta) ∧
     (∀ r,
        is_Some (IoUring.heap
                   (foldl IoUring.exec_with (IoUring.initial entries) steps) !! r)
        ↔ r ∈ created (IoUring.trace
                         (foldl IoUring.exec_with (IoUring.initial entries) steps))
          ∧ r ∉ deleted (IoUring.trace
                           (foldl IoUring.exec_with (IoUring.initial entries)
                                  steps))) ∧
     (∀ r,
        is_Some (IoUring.heap
                   (foldl IoUring.exec_with (IoUring.initial entries) steps) !! r) →
        r ∈ IoUring.tags
              (foldl IoUring.exec_with (IoUring.initial entries) steps))) ∧
  (∀ entries acts t1 t2 r,
     IoUring.dangling (foldl IoUring.exec (IoUring.initial entries) acts) = [] →
     IoUring.trace (foldl IoUring.exec (IoUring.initial entries) acts)
     = t1 ++ ev_delete r :: t2 →
     ∃ t0 i, t1 = t0 ++ [ev_call i] ∧ ev_new r (handler_of i) ∈ t0) ∧
  (∀ body r result w op,
     IoUring.heap w !! r = Some op →
     ∃ i, handler_of i = IoUring.op_handler op ∧
          IoUring.complete_with body r result w
          = IoUring.delete_this r (body (IoUring.invoke i w))) ∧
  (∀ cs c w r op,
     IoUring.user_data c = Some r →
     IoUring.heap w !! r = Some op →
     (∃ tb i, handler_of i = IoUring.op_handler op ∧
              IoUring.trace (IoUring.process_with (IoUring.performs cs) c w)
              = IoUring.trace w ++ ev_call i :: tb ++ [ev_delete r]) ∧
     IoUring.heap (IoUring.process_with (IoUring.performs cs) c w) !! r = None) ∧
  (∀ cs s buf ep h w,
     ∃ tb, IoUring.trace (IoUring.perform (IoUring.call_send s buf ep h cs) w)
           = IoUring.trace w
             ++ ev_new (IoUring.next w) h
             :: (if IoUring.io_uring_get_sqe w then []
                 else ev_call (send_done h IoUring.EBUSY 0)
                      :: tb ++ [ev_delete (IoUring.next w)])) ∧
  (∀ cs s buf h w,
     ∃ tb, IoUring.trace (IoUring.perform (IoUring.call_receive s buf h cs) w)
           = IoUring.trace w
             ++ ev_new (IoUring.next w) h
             :: (if IoUring.io_uring_get_sqe w then []
                 else ev_call (recv_done h IoUring.EBUSY 0 endpoint_zero)
                      :: tb ++ [ev_delete (IoUring.next w)])) ∧
  (∀ s w,
     deleted (IoUring.trace (IoUring.close s w).2) = deleted (IoUring.trace w) ∧
     deleted (IoUring.trace (IoUring.stop w)) = deleted (IoUring.trace w)) ∧
  (∀ r bytes error w op,
     Iocp.heap w !! r = Some op →
     ∃ i, handler_of i = Iocp.op_handler op ∧
          error_of i = error ∧
          bytes_of i = bytes ∧
          Iocp.trace (Iocp.complete r bytes error w)
          = Iocp.trace w ++ [ev_call i; ev_delete r] ∧
          Iocp.heap (Iocp.complete r bytes error w) = delete r (Iocp.heap w)).
Proof.
  intros Hbusy.
  split; [|split; [|split; [|split; [|split; [|split; [|split]]]]]].
  - intros entries steps _.
    pose proof (IoUringCallFacts.inv_execs_with entries steps) as Hinv.
    set (w := foldl IoUring.exec_with (IoUring.initial entries) steps) in *.
    split; [apply (IoUring.inv_once _ _ Hinv)|].
    split; [apply (IoUring.inv_order _ _ Hinv)|].
    split.
    { intros r. rewrite <- (IoUring.inv_heap _ _ Hinv).
      unfold IoUring.held. by rewrite fmap_is_Some. }
    intros r Hr.
    destruct (IoUring.inv_live _ _ Hinv r) as [Hin|Hin]; [|done|].
    + unfold IoUring.held. by rewrite fmap_is_Some.
    + by apply elem_of_nil in Hin.
  - intros entries acts t1 t2 r _.
    apply IoUringFacts.lifecycle_delete,
      (IoUring.con_trace _ (IoUringFacts.consistent_execs entries acts)).
  - intros body r result w op Hop.
    apply IoUringCallFacts.complete_with_live. unfold IoUring.held.
    by rewrite Hop.
  - intros cs c w r op Hr Hop.
    destruct (IoUringCallFacts.ring_trace_process_with cs c w r op Hr Hop)
      as [(tb & Ht) Hgone].
    split; [|done]. exists tb. eexists. split; [|exact Ht].
    by destruct op; destruct (IoUring.res c <? 0).
  - intros. by apply IoUringCallFacts.ring_trace_send_with.
  - intros. by apply IoUringCallFacts.ring_trace_receive_with.
  - intros s w. split.
    + unfold IoUring.close. destruct (0 <=? IoUring.fd_ s); [|done]. simpl.
      rewrite TraceFacts.deleted_app. apply app_nil_r.
    + by rewrite IoUringFacts.stop_trace.
  - intros r bytes error w op Hop. by apply IocpFacts.iocp_complete_live.
Qed.

End Generic.

(** C10 at concrete inputs: a ring receive that fails with [ECONNREFUSED],
    an immediate receive from an [AF_INET6] sender, and a retried receive
    from an [AF_INET] sender. *)
Lemma receive_source_endpoint_witness :
  let h := mk_handler 1 false in
  let buf := mk_span 4096 64 in
  let wr := IoUring.async_receive_from (K:=linux) (IoUring.mk_socket 3) buf h
              (IoUring.initial 4) in
  let wk := Kqueue.async_receive_from (K:=bsd) (Kqueue.mk_socket 3 9) buf h
              (mk_recv_result (-1) 35 sockaddr_zero) (mk_sys_result 0 0)
              (Kqueue.initial 9) in
  sources (IoUring.trace (IoUring.complete (K:=linux) 0 (-111) wr))
  = [endpoint_zero] ∧
  sources (Kqueue.trace
             (Kqueue.async_receive_from (K:=bsd) (Kqueue.mk_socket 3 9) buf h
                (mk_recv_result 5 0 (mk_sockaddr_in 30 36895 1)) (mk_sys_result 0 0)
                (Kqueue.initial 9)))
  = [endpoint_zero] ∧
  sources (Kqueue.trace
             (Kqueue.handle_ready (K:=bsd) 3 (-1) (mk_sys_result 0 0)
                (mk_recv_result 5 0 (mk_sockaddr_in 2 36895 16777343)) wk))
  = [mk_endpoint 2130706433 8080 sockaddr_zero].
Proof.
  intros h buf wr wk.
  destruct (receive_source_endpoint (KQ:=bsd) (KR:=linux) ltac:(vm_compute; discriminate))
    as (Hring & Hfast & Hready).
  split; [|split].
  - destruct (Hring 0%nat (-111) wr h (IoUring.uninit_addr (constants:=linux))
                IoUring.sizeof_sockaddr_storage (Some buf) ltac:(reflexivity))
      as (H & _).
    exact (H ltac:(left; lia)).
  - destruct (Hfast (Kqueue.mk_socket 3 9) buf h
                (mk_recv_result 5 0 (mk_sockaddr_in 30 36895 1)) (mk_sys_result 0 0)
                (Kqueue.initial 9)) as (H & _).
    destruct (H ltac:(right; simpl; lia)) as [E|E]; [discriminate E|exact E].
  - destruct (Hready 3 (mk_sys_result 0 0)
                (mk_recv_result 5 0 (mk_sockaddr_in 2 36895 16777343)) wk
                (Kqueue.mk_pending_ops None span_empty endpoint_zero (Some h) buf) h
                ltac:(reflexivity) ltac:(reflexivity)) as (_ & H).
    exact (H ltac:(simpl; lia) ltac:(reflexivity)).
Defined.

(** C4 at concrete inputs: a send that would block is stored without a
    call; one whose registration fails with [ENOMEM] reports that at once
    and leaves nothing stored or registered; a retried send that fails with
    [ECONNREFUSED] reports it. *)
Lemma would_block_translated_on_fast_path_only_witness :
  let h := mk_handler 1 false in
  let s := Kqueue.mk_socket 3 9 in
  let ep := mk_endpoint 2130706433 8080 sockaddr_zero in
  let w1 := Kqueue.async_send_to (K:=bsd) s (mk_span 4096 5) ep h
              (mk_sys_result (-1) 35) (mk_sys_result 0 0) (Kqueue.initial 9) in
  let w2 := Kqueue.async_send_to (K:=bsd) s (mk_span 4096 5) ep h
              (mk_sys_result (-1) 35) (mk_sys_result (-1) 12) (Kqueue.initial 9) in
  (calls (Kqueue.trace w1) = [] ∧ Kqueue.pending_send w1 3 = Some h ∧
   Kqueue.registered w1 = {[ (3, -2) ]} ∪ ∅) ∧
  (calls (Kqueue.trace w2) = [send_done h 12 0] ∧
   Kqueue.pending_send w2 3 = None ∧
   Kqueue.registered w2 = ∅) ∧
  calls (Kqueue.trace (Kqueue.handle_ready (K:=bsd) 3 (-2) (mk_sys_result (-1) 61)
                         (mk_recv_result 0 0 sockaddr_zero) w1))
  = [send_done h 61 0].
Proof.
  intros h s ep w1 w2.
  destruct (would_block_translated_on_fast_path_only (KQ:=bsd) (KR:=linux)
              ltac:(vm_compute; discriminate)) as (Hfast & _ & Hready & _).
  split; [|split].
  - exact (proj1 (Hfast s (mk_span 4096 5) ep h (mk_sys_result (-1) 35)
                    (mk_sys_result 0 0) (Kqueue.initial 9)
                    ltac:(simpl; lia) ltac:(left; reflexivity))
             ltac:(simpl; lia)).
  - exact (proj2 (Hfast s (mk_span 4096 5) ep h (mk_sys_result (-1) 35)
                    (mk_sys_result (-1) 12) (Kqueue.initial 9)
                    ltac:(simpl; lia) ltac:(left; reflexivity))
             ltac:(simpl; lia)).
  - exact (Hready 3 (mk_sys_result (-1) 61) (mk_recv_result 0 0 sockaddr_zero) w1
             (Kqueue.mk_pending_ops (Some h) (mk_span 4096 5) ep None span_empty) h
             ltac:(reflexivity) ltac:(reflexivity) ltac:(simpl; lia)).
Defined.

(** The claim as stated fails: a send that would block is stored; the loop
    is told the descriptor is writable and retries; the retry would block
    again, and the handler is called with [EAGAIN]. *)
Lemma would_block_reaches_handler :
  let h := mk_handler 1 false in
  let s := Kqueue.mk_socket 3 9 in
  let ep := mk_endpoint 2130706433 8080 sockaddr_zero in
  let w1 := Kqueue.async_send_to (K:=bsd) s (mk_span 4096 5) ep h
              (mk_sys_result (-1) 35) (mk_sys_result 0 0) (Kqueue.initial 9) in
  let writable := Kqueue.mk_ready 3 (-2) (mk_sys_result (-1) 35)
                    (mk_recv_result 0 0 sockaddr_zero) in
  let w2 := (Kqueue.run (K:=bsd) [Kqueue.wait_events [writable]] w1).2 in
  calls (Kqueue.trace w2) = [send_done h 35 0] ∧
  Kqueue.pending_send w2 3 = None.
Proof. by vm_compute. Qed.

(** C1 at concrete inputs: a socket with a receive stored, and a ring socket
    with a receive written to the submission queue. *)
Lemma close_calls_no_handler_witness :
  let h := mk_handler 1 false in
  let buf := mk_span 4096 64 in
  let s := Kqueue.mk_socket 3 9 in
  let wk := Kqueue.async_receive_from (K:=bsd) s buf h
              (mk_recv_result (-1) 35 sockaddr_zero) (mk_sys_result 0 0)
              (Kqueue.initial 9) in
  let wr := IoUring.async_receive_from (K:=linux) (IoUring.mk_socket 3) buf h
              (IoUring.initial 4) in
  calls (Kqueue.trace (Kqueue.close (K:=bsd) s wk).2) = [] ∧
  IoUring.ring_ (IoUring.close (IoUring.mk_socket 3) wr).2 = IoUring.ring_ wr.
Proof.
  intros h buf s wk wr.
  destruct (close_calls_no_handler (KQ:=bsd)) as (Hk & Hr). split.
  - destruct (Hk s wk ltac:(simpl; lia)) as (_ & _ & E & _). exact E.
  - destruct (Hr (IoUring.mk_socket 3) wr ltac:(simpl; lia))
      as (_ & _ & _ & _ & E).
    exact E.
Defined.

(** The claim as stated fails: a receive is stored and its filter
    registered; the socket is closed; the handler has not been called, and
    it is not called when the loop afterwards runs, whatever the kernel
    reports for the descriptor. *)
Lemma close_drops_pending_receive :
  let h := mk_handler 1 false in
  let buf := mk_span 4096 64 in
  let s := Kqueue.mk_socket 3 9 in
  let w1 := Kqueue.async_receive_from (K:=bsd) s buf h
              (mk_recv_result (-1) 35 sockaddr_zero) (mk_sys_result 0 0)
              (Kqueue.initial 9) in
  let w2 := (Kqueue.close (K:=bsd) s w1).2 in
  let readable := Kqueue.mk_ready 3 (-1) (mk_sys_result 0 0)
                    (mk_recv_result (-1) 9 sockaddr_zero) in
  let w3 := (Kqueue.run (K:=bsd) [Kqueue.wait_events [readable];
                                  Kqueue.wait_error 9] w2).2 in
  Kqueue.pending_recv w1 3 = Some h ∧
  bool_decide ((3, -1) ∈ Kqueue.registered w1) = true ∧
  called (Kqueue.trace w2) = [] ∧
  Kqueue.pending_recv w2 3 = None ∧
  called (Kqueue.trace w3) = [].
Proof. by vm_compute. Qed.

(** C8 at concrete inputs: a 10-byte datagram received into a 4-byte
    buffer by the immediate attempt of the readiness backend; the 5-byte
    datagram "hello" received into a 1024-byte buffer through the ring; the
    10-byte datagram offered to a 4-byte buffer under the completion
    backend. *)
Lemma receive_of_oversized_datagram_witness :
  let h := mk_handler 1 false in
  let from := mk_sockaddr_in 2 36895 16777343 in
  let big := Posix.mk_datagram [1; 2; 3; 4; 5; 6; 7; 8; 9; 10] from in
  let hello := Posix.mk_datagram [104; 101; 108; 108; 111] from in
  Kqueue.trace
    (Kqueue.async_receive_from (K:=bsd) (Kqueue.mk_socket 3 9)
       (mk_span 4096 4) h (mk_recv_result 4 0 from)
       (mk_sys_result 0 0) (Kqueue.initial 9))
  = [ev_sys (sys_recvfrom 3 (mk_span 4096 4));
     ev_call (recv_done h 0 4 (mk_endpoint 2130706433 8080 sockaddr_zero))] ∧
  (∃ ev,
     Posix.ring_arrival (K:=linux) hello 0
       (IoUring.io_uring_submit
          (IoUring.set_running true
             (IoUring.async_receive_from (K:=linux) (IoUring.mk_socket 3)
                (mk_span 4096 1024) h (IoUring.initial 4))))
     = Some ev ∧
     IoUring.trace
       (IoUring.run (K:=linux) 1 [ev]
          (IoUring.async_receive_from (K:=linux) (IoUring.mk_socket 3)
             (mk_span 4096 1024) h (IoUring.initial 4))).2
     = [ev_new 0%nat h;
        ev_call (recv_done h 0 5 (mk_endpoint 2130706433 8080 from));
        ev_delete 0%nat]) ∧
  Iocp.trace
    (Iocp.async_receive_from (K:=windows) (Iocp.mk_socket 3) (mk_span 4096 4) h
       (mk_sys_result (-1) 10040) Iocp.initial)
  = [ev_new 0%nat h; ev_sys (sys_recvfrom 3 (mk_span 4096 4));
     ev_call (recv_done h 10040 0 (Iocp.uninit_endpoint (constants:=windows)));
     ev_delete 0%nat].
Proof.
  intros h from big hello. split; [|split].
  - destruct (receive_of_oversized_datagram (KQ:=bsd) (KR:=linux) (KW:=windows)
                big [] (mk_span 4096 4) h ltac:(simpl; lia)
                ltac:(vm_compute; discriminate) ltac:(vm_compute; discriminate)
                ltac:(vm_compute; discriminate)) as (_ & H & _).
    exact (H (Kqueue.mk_socket 3 9) (mk_sys_result 0 0) (Kqueue.initial 9)
             (mk_recv_result 4 0 from) _ _ ltac:(reflexivity) ltac:(reflexivity)).
  - destruct (receive_of_oversized_datagram (KQ:=bsd) (KR:=linux) (KW:=windows)
                hello [] (mk_span 4096 1024) h ltac:(simpl; lia)
                ltac:(vm_compute; discriminate) ltac:(vm_compute; discriminate)
                ltac:(vm_compute; discriminate)) as (_ & _ & _ & H & _).
    exact (H (IoUring.mk_socket 3) (IoUring.initial 4) ltac:(reflexivity)
             ltac:(reflexivity) ltac:(reflexivity) ltac:(reflexivity)).
  - destruct (receive_of_oversized_datagram (KQ:=bsd) (KR:=linux) (KW:=windows)
                big [] (mk_span 4096 4) h ltac:(simpl; lia)
                ltac:(vm_compute; discriminate) ltac:(vm_compute; discriminate)
                ltac:(vm_compute; discriminate)) as (_ & _ & _ & _ & H).
    exact (H (Iocp.mk_socket 3) Iocp.initial (mk_sys_result (-1) 10040) _ _
             ltac:(simpl; lia) ltac:(reflexivity) ltac:(reflexivity)).
Defined.

(** The claim as stated fails under the completion backend: a 10-byte
    datagram is queued and a receive is issued with a 4-byte buffer.  By
    [Winsock.WSARecvFrom] the call fails with [WSAEMSGSIZE]; the handler is
    called with that error and a count of 0, not with the capacity of the
    buffer and no error. *)
Lemma oversized_datagram_is_an_error_under_iocp :
  let h := mk_handler 1 false in
  let from := mk_sockaddr_in 2 36895 16777343 in
  let big := Posix.mk_datagram [1; 2; 3; 4; 5; 6; 7; 8; 9; 10] from in
  let buf := mk_span 4096 4 in
  let res := (Winsock.WSARecvFrom (K:=windows) [big] buf).1 in
  res = mk_sys_result (-1) 10040 ∧
  calls (Iocp.trace (Iocp.async_receive_from (K:=windows) (Iocp.mk_socket 3)
                       buf h res Iocp.initial))
  = [recv_done h 10040 0 (Iocp.uninit_endpoint (constants:=windows))] ∧
  error_of (recv_done h 10040 0 (Iocp.uninit_endpoint (constants:=windows))) ≠ 0 ∧
  bytes_of (recv_done h 10040 0 (Iocp.uninit_endpoint (constants:=windows)))
  ≠ size buf.
Proof. by vm_compute. Qed.

(** C3 at the failing inputs: a readiness loop blocked in [kevent] with a
    receive stored and nothing ready, and a completion loop waiting on an
    empty port; [stop()] is called from another thread, and the loop thread
    stays blocked. *)
Lemma stop_leaves_loop_blocked_witness :
  let h := mk_handler 1 false in
  let w := Kqueue.async_receive_from (K:=bsd) (Kqueue.mk_socket 3 9)
             (mk_span 4096 64) h (mk_recv_result (-1) 35 sockaddr_zero)
             (mk_sys_result 0 0) (Kqueue.set_running true (Kqueue.initial 9)) in
  Kqueue.pending_recv w 3 = Some h ∧
  (Kqueue.run_wait (K:=bsd) [] w).1 = Kqueue.Blocked ∧
  (Kqueue.run_wait (K:=bsd) [] (Kqueue.stop w)).1 = Kqueue.Blocked ∧
  Kqueue.trace (Kqueue.stop w) = Kqueue.trace w ∧
  (Iocp.run (K:=windows) 8 [] Iocp.initial).1 = Iocp.Blocked ∧
  (Iocp.run (K:=windows) 8 [] (Iocp.stop Iocp.initial)).1 = Iocp.Blocked.
Proof.
  intros h w.
  destruct (stop_leaves_loop_blocked (KQ:=bsd) (KW:=windows)) as (Hk & Hw).
  destruct (Hk w) as (Ht & _ & _ & Hb & _).
  split; [reflexivity|]. split; [reflexivity|].
  split; [by rewrite Hb|]. split; [exact Ht|]. split; [reflexivity|].
  by rewrite (Hw 7%nat [] Iocp.initial ltac:(reflexivity)).
Defined.

(** C2 at concrete inputs: two sends on one descriptor that both would
    block, then the loop with two write notifications; the handler called
    at the first starts a receive, which would block. *)
Lemma callback_at_most_once_witness :
  let h1 := mk_handler 1 false in
  let h2 := mk_handler 2 false in
  let h3 := mk_handler 3 false in
  let s := Kqueue.mk_socket 3 9 in
  let buf := mk_span 4096 5 in
  let ep := mk_endpoint 2130706433 8080 sockaddr_zero in
  let wb := mk_sys_result (-1) 35 in
  let ok := mk_sys_result 0 0 in
  let busy := mk_recv_result (-1) 35 sockaddr_zero in
  let writable := Kqueue.mk_ready 3 (-2) (mk_sys_result 5 0)
                    (mk_recv_result 0 0 sockaddr_zero) in
  let steps1 := [Kqueue.step_run
                   [Kqueue.wait_notices
                      [Kqueue.mk_notice writable
                         [Kqueue.call_receive s buf h3 busy ok []] []];
                    Kqueue.wait_notices [Kqueue.mk_notice writable [] []];
                    Kqueue.wait_error_with 9]] in
  let steps := [Kqueue.step_call (Kqueue.call_send s buf ep h1 wb ok [])]
               ++ Kqueue.step_call (Kqueue.call_send s buf ep h2 wb ok [])
               :: steps1 in
  NoDup (called (Kqueue.trace
                   (foldl (Kqueue.exec_with (K:=bsd)) (Kqueue.initial 9) steps))) ∧
  h1 ∉ called (Kqueue.trace
                 (foldl (Kqueue.exec_with (K:=bsd)) (Kqueue.initial 9) steps)).
Proof.
  intros h1 h2 h3 s buf ep wb ok busy writable steps1 steps.
  assert (NoDup (steps ≫= Kqueue.step_handlers)) as Hnd.
  { apply (bool_decide_unpack _). by vm_compute. }
  destruct (callback_at_most_once (KQ:=bsd) (KR:=linux) ltac:(simpl; lia))
    as (Honce & _ & _ & _ & _ & _ & _ & _ & _ & _ & _ & Hdrop & _).
  split.
  - exact (Honce 9 steps Hnd).
  - exact (Hdrop 9 [Kqueue.step_call (Kqueue.call_send s buf ep h1 wb ok [])]
             steps1 s buf ep h2 wb ok [] h1
             Hnd ltac:(reflexivity) ltac:(simpl; lia) ltac:(left; reflexivity)).
Defined.

(** The claim as stated fails: a send would block and is stored; a second
    send on the same socket would block too and takes its place; the loop is
    told twice that the socket is writable.  The second handler is called;
    the first is not, and is no longer held. *)
Lemma second_send_replaces_first :
  let h1 := mk_handler 1 false in
  let h2 := mk_handler 2 false in
  let s := Kqueue.mk_socket 3 9 in
  let buf := mk_span 4096 5 in
  let ep := mk_endpoint 2130706433 8080 sockaddr_zero in
  let wb := mk_sys_result (-1) 35 in
  let ok := mk_sys_result 0 0 in
  let writable := Kqueue.mk_ready 3 (-2) (mk_sys_result 5 0)
                    (mk_recv_result 0 0 sockaddr_zero) in
  let w := foldl (Kqueue.exec (K:=bsd)) (Kqueue.initial 9)
             [Kqueue.act_send s buf ep h1 wb ok;
              Kqueue.act_send s buf ep h2 wb ok;
              Kqueue.act_run [Kqueue.wait_events [writable];
                              Kqueue.wait_events [writable];
                              Kqueue.wait_error 9]] in
  calls (Kqueue.trace w) = [send_done h2 0 5] ∧
  Kqueue.pending_send w 3 = None ∧
  Kqueue.pending_recv w 3 = None.
Proof. by vm_compute. Qed.

(** C7 at concrete inputs: on a ring of four entries a receive is
    submitted and completes; its handler sends the datagram back and starts
    the next receive; then the completion of the send is consumed. *)
Lemma record_lifetime_witness :
  let s := IoUring.mk_socket 3 in
  let h1 := mk_handler 1 false in
  let h2 := mk_handler 2 false in
  let h3 := mk_handler 3 false in
  let buf := mk_span 4096 1024 in
  let from := mk_sockaddr_in 2 36895 16777343 in
  let peer := mk_endpoint 2130706433 8080 from in
  let echo := IoUring.call_send s (mk_span 4096 5) peer h3 [] in
  let rearm := IoUring.call_receive s buf h2 [] in
  let steps := [IoUring.step_call (IoUring.call_receive s buf h1 []);
                IoUring.step_run 2 [IoUring.kernel_complete 0 5 from]
                                 [[echo; rearm]]] in
  let w := foldl (IoUring.exec_with (K:=linux)) (IoUring.initial 4) steps in
  IoUring.dangling w = [] ∧
  NoDup (deleted (IoUring.trace w)) ∧
  2%nat ∈ IoUring.tags w ∧
  IoUring.heap
    (IoUring.process_with (K:=linux) (IoUring.performs (K:=linux) [])
       (IoUring.mk_cqe (Some 1%nat) 5) w) !! 1%nat = None.
Proof.
  intros s h1 h2 h3 buf from peer echo rearm steps w.
  destruct (record_lifetime (KR:=linux) (KW:=windows) ltac:(simpl; lia))
    as (Hring & _ & _ & Hproc & _).
  destruct (Hring 4%nat steps ltac:(reflexivity)) as (Honce & _ & _ & Hlive).
  split; [reflexivity|]. split; [exact Honce|]. split.
  - apply (Hlive 2%nat). eexists. reflexivity.
  - exact (proj2 (Hproc [] (IoUring.mk_cqe (Some 1%nat) 5) w 1%nat
                    (IoUring.send_operation h3 from IoUring.sizeof_sockaddr_in)
                    ltac:(reflexivity) ltac:(reflexivity))).
Defined.

(** The claim as stated fails: a receive is submitted and the loop waits
    for it; [stop()] is called; [run()] returns.  The record of the receive
    is still on the heap, its handler has not been called, and nothing has
    been destroyed. *)
Lemma record_alive_after_loop_stops :
  let h := mk_handler 1 false in
  let buf := mk_span 4096 64 in
  let w := foldl (IoUring.exec (K:=linux)) (IoUring.initial 4)
             [IoUring.act_receive (IoUring.mk_socket 3) buf h;
              IoUring.act_run 8 [];
              IoUring.act_stop] in
  (IoUring.run (K:=linux) 8 []
     (IoUring.async_receive_from (K:=linux) (IoUring.mk_socket 3) buf h
        (IoUring.initial 4))).1 = IoUring.Blocked ∧
  (IoUring.run_wait (K:=linux) 8 [] w).1 = IoUring.Returned ∧
  IoUring.heap (IoUring.run_wait (K:=linux) 8 [] w).2 !! 0%nat
  = Some (IoUring.receive_operation h (mk_sockaddr_in 43690 43690 43690) 128
            (Some buf)) ∧
  calls (IoUring.trace (IoUring.run_wait (K:=linux) 8 [] w).2) = [] ∧
  deleted (IoUring.trace (IoUring.run_wait (K:=linux) 8 [] w).2) = [].
Proof. by vm_compute. Qed.

End Claims.

(** ** Further properties of the three backends *)

Module Further.

(** *** Byte order *)

Lemma byte_split q r :
  0 ≤ r < 256 → (q * 256 + r) mod 256 = r ∧ (q * 256 + r) / 256 = q.
Proof.
  intros Hr. split.
  - rewrite Z.add_comm, Z.mod_add by lia. by apply Z.mod_small.
  - rewrite Z.add_comm, Z.div_add by lia. rewrite Z.div_small by done. lia.
Qed.

Lemma lor_shiftl_low a b k :
  0 ≤ k → 0 ≤ b < 2 ^ k → Z.lor (Z.shiftl a k) b = a * 2 ^ k + b.
Proof.
  intros Hk Hb.
  assert (Z.land (Z.shiftl a k) b = 0) as Hdisj.
  { apply Z.bits_inj'. intros n Hn. rewrite Z.land_spec, Z.bits_0.
    destruct (Z.lt_ge_cases n k) as [Hlt|Hge].
    - by rewrite Z.shiftl_spec_low.
    - destruct (Z.eq_dec b 0) as [->|Hb0]; [by rewrite Z.bits_0, andb_false_r|].
      rewrite (Z.bits_above_log2 b n); [apply andb_false_r|lia|].
      apply Z.log2_lt_pow2; [lia|].
      apply Z.lt_le_trans with (2 ^ k); [lia|].
      apply Z.pow_le_mono_r; lia. }
  rewrite <- Z.lxor_lor by done. rewrite <- Z.add_nocarry_lxor by done.
  by rewrite Z.shiftl_mul_pow2.
Qed.

Lemma land_255 x : Z.land x 255 = x mod 256.
Proof. change 255 with (Z.ones 8). by rewrite Z.land_ones. Qed.

Lemma bswap16_val x : bswap16 x = (x mod 256) * 256 + (x / 256) mod 256.
Proof.
  unfold bswap16. rewrite !land_255, Z.shiftr_div_pow2 by lia.
  rewrite lor_shiftl_low; [done|lia|].
  change (2 ^ 8) with 256. apply Z.mod_pos_bound. lia.
Qed.

Lemma bswap32_val x :
  bswap32 x
  = (((x mod 256) * 256 + (x / 256) mod 256) * 256 + (x / 65536) mod 256) * 256
    + (x / 16777216) mod 256.
Proof.
  unfold bswap32. rewrite !land_255, !Z.shiftr_div_pow2 by lia.
  change (2 ^ 8) with 256. change (2 ^ 16) with 65536.
  change (2 ^ 24) with 16777216.
  assert (∀ y, 0 ≤ y mod 256 < 256) as Hm by (intros; apply Z.mod_pos_bound; lia).
  pose proof (Hm x). pose proof (Hm (x / 256)). pose proof (Hm (x / 65536)).
  pose proof (Hm (x / 16777216)).
  rewrite (lor_shiftl_low _ ((x / 16777216) mod 256) 8)
    by (change (2 ^ 8) with 256; lia).
  change 24 with (8 + 16). rewrite <- (Z.shiftl_shiftl _ 8 16) by lia.
  rewrite <- Z.shiftl_lor.
  rewrite (lor_shiftl_low _ ((x / 256) mod 256) 8)
    by (change (2 ^ 8) with 256; lia).
  rewrite lor_shiftl_low;
    [|lia|change (2 ^ 8) with 256; change (2 ^ 16) with 65536; lia].
  change (2 ^ 8) with 256. change (2 ^ 16) with 65536. lia.
Qed.

Lemma bswap16_involutive x : 0 ≤ x < 65536 → bswap16 (bswap16 x) = x.
Proof.
  intros Hx. rewrite (bswap16_val x).
  assert (0 ≤ x mod 256 < 256) as Ha by (apply Z.mod_pos_bound; lia).
  assert (0 ≤ (x / 256) mod 256 < 256) as Hb by (apply Z.mod_pos_bound; lia).
  assert ((x / 256) mod 256 = x / 256) as Hhi.
  { apply Z.mod_small. split; [apply Z.div_pos; lia|].
    apply Z.div_lt_upper_bound; lia. }
  rewrite bswap16_val.
  destruct (byte_split (x mod 256) ((x / 256) mod 256) Hb) as [-> ->].
  rewrite (Z.mod_small (x mod 256)) by done. rewrite Hhi.
  pose proof (Z.div_mod x 256 ltac:(lia)). lia.
Qed.

Lemma bswap32_involutive x : 0 ≤ x < 4294967296 → bswap32 (bswap32 x) = x.
Proof.
  intros Hx. rewrite (bswap32_val x).
  set (a := x mod 256). set (b := (x / 256) mod 256).
  set (c := (x / 65536) mod 256). set (d := (x / 16777216) mod 256).
  assert (0 ≤ a < 256) as Ha by (apply Z.mod_pos_bound; lia).
  assert (0 ≤ b < 256) as Hb by (apply Z.mod_pos_bound; lia).
  assert (0 ≤ c < 256) as Hc by (apply Z.mod_pos_bound; lia).
  assert (0 ≤ d < 256) as Hd by (apply Z.mod_pos_bound; lia).
  assert (x = ((d * 256 + c) * 256 + b) * 256 + a) as Hxv.
  { assert (x / 65536 = x / 256 / 256) as E1.
    { change 65536 with (256 * 256). by rewrite Z.div_div by lia. }
    assert (x / 16777216 = x / 65536 / 256) as E2.
    { change 16777216 with (65536 * 256). by rewrite Z.div_div by lia. }
    assert (d = x / 16777216) as Ed.
    { apply Z.mod_small. split; [apply Z.div_pos; lia|].
      apply Z.div_lt_upper_bound; lia. }
    pose proof (Z.div_mod x 256 ltac:(lia)) as D1.
    pose proof (Z.div_mod (x / 256) 256 ltac:(lia)) as D2.
    pose proof (Z.div_mod (x / 65536) 256 ltac:(lia)) as D3.
    fold a in D1. fold b in D2. fold c in D3.
    rewrite <- E1 in D2. rewrite <- E2 in D3. lia. }
  set (y := ((a * 256 + b) * 256 + c) * 256 + d).
  rewrite bswap32_val.
  assert (y mod 256 = d ∧ y / 256 = (a * 256 + b) * 256 + c) as [Y0 Y1]
    by (by apply byte_split).
  assert (y / 65536 = a * 256 + b ∧ (y / 256) mod 256 = c) as [Y2 Y1'].
  { replace (y / 65536) with (y / 256 / 256)
      by (change 65536 with (256 * 256); by rewrite Z.div_div by lia).
    rewrite Y1. destruct (byte_split (a * 256 + b) c Hc) as [-> ->]. done. }
  assert (y / 16777216 = a ∧ (y / 65536) mod 256 = b) as [Y3 Y2'].
  { replace (y / 16777216) with (y / 65536 / 256)
      by (change 16777216 with (65536 * 256); by rewrite Z.div_div by lia).
    rewrite Y2. destruct (byte_split a b Hb) as [-> ->]. done. }
  rewrite Y0, Y1', Y2', Y3, (Z.mod_small a) by done. lia.
Qed.

(** X1.  Readiness backend: the endpoint [async_receive_from] builds from
    the address [async_send_to] builds for an endpoint has the address and
    the port of that endpoint, when they fit their 32 and 16 bits. *)
Theorem kqueue_endpoint_round_trip {K : Kqueue.constants} (ep : endpoint) :
  0 ≤ address ep < 4294967296 →
  0 ≤ port ep < 65536 →
  Kqueue.endpoint_from (Kqueue.sockaddr_of ep)
  = mk_endpoint (address ep) (port ep) sockaddr_zero.
Proof.
  intros Ha Hp. unfold Kqueue.endpoint_from, Kqueue.sockaddr_of. simpl.
  rewrite Z.eqb_refl. unfold ntohl, htonl, ntohs, htons.
  by rewrite bswap32_involutive, bswap16_involutive.
Qed.

Lemma kqueue_endpoint_round_trip_witness :
  Kqueue.endpoint_from (K:=bsd)
    (Kqueue.sockaddr_of (K:=bsd) (mk_endpoint 2130706433 8080 sockaddr_zero))
  = mk_endpoint 2130706433 8080 sockaddr_zero.
Proof.
  apply (kqueue_endpoint_round_trip (K:=bsd)
           (mk_endpoint 2130706433 8080 sockaddr_zero)); simpl; lia.
Defined.

(** X2.  Ring backend: [stop()] called while there is a free submission
    entry makes a loop that waits return at the first completion it
    consumes -- when consuming it uses no destroyed record: the no-op
    carries the tag its entry was left with.  With the submission queue
    full [stop()] submits nothing. *)
Theorem ring_stop_ends_waiting_run {K : IoUring.constants} :
  (∀ fuel env w,
     IoUring.io_uring_get_sqe w = true →
     IoUring.dangling (IoUring.run_wait (S fuel) env (IoUring.stop w)).2 = [] →
     (IoUring.run_wait (S fuel) env (IoUring.stop w)).1 = IoUring.Returned) ∧
  (∀ w,
     IoUring.io_uring_get_sqe w = false →
     IoUring.stop w = IoUring.set_running false w) ∧
  (∀ w,
     IoUring.io_uring_get_sqe w = true →
     IoUring.cq (IoUring.ring_ (IoUring.stop w))
     = IoUring.cq (IoUring.ring_ w)
       ++ map (fun q => IoUring.mk_cqe (IoUring.sqe_user_data q) 0)
              (List.filter IoUring.is_nop (IoUring.sq (IoUring.ring_ w)))
       ++ [IoUring.mk_cqe (IoUring.stale_user_data w) 0]).
Proof.
  split; [|split].
  - intros fuel env w Hroom _.
    destruct (IoUringFacts.stop_room_cq w Hroom) as (c & rest & Hcq).
    apply (IoUringFacts.ring_run_wait_stopped fuel env _ c rest Hcq).
    apply IoUringFacts.stop_running.
  - apply IoUringFacts.stop_full.
  - intros w Hroom. rewrite IoUringFacts.stop_room by done. simpl.
    by rewrite List.filter_app, List.map_app.
Qed.

Lemma ring_stop_ends_waiting_run_witness :
  (IoUring.run_wait (K:=linux) 1 [] (IoUring.stop (IoUring.initial 4))).1
  = IoUring.Returned.
Proof.
  apply (proj1 (ring_stop_ends_waiting_run (K:=linux)) 0%nat []
           (IoUring.initial 4)); reflexivity.
Defined.

(** X3.  Completion backend: when [WSASendTo] or [WSARecvFrom] fails with
    an error other than [WSA_IO_PENDING], the record just created is
    completed on the spot: its handler is called with that error and 0
    bytes, and the record is destroyed; otherwise nothing is called, and
    the record stays on the heap for the completion packet. *)
Theorem iocp_immediate_failure {K : Iocp.constants} :
  (∀ s buf ep h res w,
     ret res = Iocp.SOCKET_ERROR → errno res ≠ Iocp.WSA_IO_PENDING →
     Iocp.trace (Iocp.async_send_to s buf ep h res w)
     = Iocp.trace w
       ++ [ev_new (Iocp.next w) h;
           ev_sys (sys_sendto (Iocp.socket_ s) buf (Iocp.sockaddr_of ep));
           ev_call (send_done h (errno res) 0);
           ev_delete (Iocp.next w)] ∧
     Iocp.heap (Iocp.async_send_to s buf ep h res w) !! Iocp.next w = None ∧
     Iocp.inflight (Iocp.async_send_to s buf ep h res w) = Iocp.inflight w) ∧
  (∀ s buf ep h res w,
     ret res ≠ Iocp.SOCKET_ERROR ∨ errno res = Iocp.WSA_IO_PENDING →
     Iocp.trace (Iocp.async_send_to s buf ep h res w)
     = Iocp.trace w
       ++ [ev_new (Iocp.next w) h;
           ev_sys (sys_sendto (Iocp.socket_ s) buf (Iocp.sockaddr_of ep))] ∧
     Iocp.heap (Iocp.async_send_to s buf ep h res w) !! Iocp.next w
     = Some (Iocp.send_operation h buf) ∧
     Iocp.inflight (Iocp.async_send_to s buf ep h res w)
     = Iocp.inflight w ++ [Iocp.next w]) ∧
  (∀ s buf h res w,
     ret res = Iocp.SOCKET_ERROR → errno res ≠ Iocp.WSA_IO_PENDING →
     errno res ≠ 0 →
     Iocp.trace (Iocp.async_receive_from s buf h res w)
     = Iocp.trace w
       ++ [ev_new (Iocp.next w) h;
           ev_sys (sys_recvfrom (Iocp.socket_ s) buf);
           ev_call (recv_done h (errno res) 0 Iocp.uninit_endpoint);
           ev_delete (Iocp.next w)] ∧
     Iocp.heap (Iocp.async_receive_from s buf h res w) !! Iocp.next w = None ∧
     Iocp.inflight (Iocp.async_receive_from s buf h res w) = Iocp.inflight w) ∧
  (∀ s buf h res w,
     ret res ≠ Iocp.SOCKET_ERROR ∨ errno res = Iocp.WSA_IO_PENDING →
     Iocp.trace (Iocp.async_receive_from s buf h res w)
     = Iocp.trace w
       ++ [ev_new (Iocp.next w) h; ev_sys (sys_recvfrom (Iocp.socket_ s) buf)] ∧
     is_Some (Iocp.heap (Iocp.async_receive_from s buf h res w) !! Iocp.next w) ∧
     Iocp.inflight (Iocp.async_receive_from s buf h res w)
     = Iocp.inflight w ++ [Iocp.next w]).
Proof.
  assert (∀ res, ret res = Iocp.SOCKET_ERROR → errno res ≠ Iocp.WSA_IO_PENDING →
                 (ret res =? Iocp.SOCKET_ERROR)
                 && negb (errno res =? Iocp.WSA_IO_PENDING) = true) as Hfail.
  { intros res -> Hne. rewrite Z.eqb_refl. simpl.
    by rewrite (proj2 (Z.eqb_neq _ _) Hne). }
  assert (∀ res, ret res ≠ Iocp.SOCKET_ERROR ∨ errno res = Iocp.WSA_IO_PENDING →
                 (ret res =? Iocp.SOCKET_ERROR)
                 && negb (errno res =? Iocp.WSA_IO_PENDING) = false) as Hok.
  { intros res [Hne| ->].
    - by rewrite (proj2 (Z.eqb_neq _ _) Hne).
    - rewrite Z.eqb_refl. apply andb_false_r. }
  split; [|split; [|split]].
  - intros s buf ep h res w Hr He. unfold Iocp.async_send_to. simpl.
    rewrite (Hfail res Hr He). unfold Iocp.complete. simpl.
    rewrite lookup_insert_eq. simpl.
    assert ((if errno res =? 0 then 0 else errno res) = errno res) as ->.
    { destruct (Z.eqb_spec (errno res) 0); congruence. }
    rewrite !IocpFacts.iocp_invoke_trace, !IocpFacts.iocp_invoke_heap. simpl.
    rewrite <- !app_assoc. simpl. split; [done|]. split.
    + apply lookup_delete_eq.
    + unfold Iocp.invoke. by destruct (h_stops _).
  - intros s buf ep h res w Hres. unfold Iocp.async_send_to. simpl.
    rewrite (Hok res Hres). simpl. rewrite <- !app_assoc. simpl.
    split; [done|]. split; [apply lookup_insert_eq|done].
  - intros s buf h res w Hr He H0. unfold Iocp.async_receive_from. simpl.
    rewrite (Hfail res Hr He). unfold Iocp.complete. simpl.
    rewrite lookup_insert_eq. simpl.
    assert ((if errno res =? 0 then 0 else errno res) = errno res) as ->.
    { destruct (Z.eqb_spec (errno res) 0); congruence. }
    rewrite (proj2 (Z.eqb_neq _ _) H0). simpl.
    rewrite !IocpFacts.iocp_invoke_trace, !IocpFacts.iocp_invoke_heap. simpl.
    rewrite <- !app_assoc. simpl. split; [done|]. split.
    + apply lookup_delete_eq.
    + unfold Iocp.invoke. by destruct (h_stops _).
  - intros s buf h res w Hres. unfold Iocp.async_receive_from. simpl.
    rewrite (Hok res Hres). simpl. rewrite <- !app_assoc. simpl.
    split; [done|]. split; [|done]. rewrite lookup_insert_eq. by eexists.
Qed.

Lemma iocp_immediate_failure_witness :
  let h := mk_handler 1 false in
  let buf := mk_span 4096 5 in
  let ep := mk_endpoint 2130706433 8080 sockaddr_zero in
  calls (Iocp.trace (Iocp.async_send_to (K:=windows) (Iocp.mk_socket 3) buf ep h
                       (mk_sys_result (-1) 10054) Iocp.initial))
  = [send_done h 10054 0] ∧
  Iocp.inflight (Iocp.async_send_to (K:=windows) (Iocp.mk_socket 3) buf ep h
                   (mk_sys_result (-1) 997) Iocp.initial)
  = [0%nat].
Proof.
  intros h buf ep.
  destruct (iocp_immediate_failure (K:=windows)) as (Hfail & Hok & _).
  destruct (Hfail (Iocp.mk_socket 3) buf ep h (mk_sys_result (-1) 10054)
              Iocp.initial ltac:(reflexivity) ltac:(simpl; lia)) as (Ht & _).
  destruct (Hok (Iocp.mk_socket 3) buf ep h (mk_sys_result (-1) 997)
              Iocp.initial ltac:(right; reflexivity)) as (_ & _ & Hi).
  split; [by rewrite Ht|exact Hi].
Defined.





(** X6.  Ring backend: the endpoint a receive hands to its handler for an
    [AF_INET] sender carries the sender's address as the kernel stored it,
    and a send to that endpoint goes to exactly that address; for a sender
    of another family the handler gets the zero endpoint, and a send to it
    goes to address 0, port 0. *)
Theorem ring_reply_destination {K : IoUring.constants} (addr : sockaddr_in) :
  (sin_family addr = IoUring.AF_INET →
   IoUring.destination (IoUring.endpoint_from addr) = addr) ∧
  (sin_family addr ≠ IoUring.AF_INET → IoUring.AF_INET ≠ 0 →
   IoUring.destination (IoUring.endpoint_from addr)
   = mk_sockaddr_in IoUring.AF_INET 0 0).
Proof.
  unfold IoUring.destination, IoUring.endpoint_from. split.
  - intros Hf. rewrite Hf, Z.eqb_refl. simpl. by rewrite Hf, Z.eqb_refl.
  - intros Hf H0. rewrite (proj2 (Z.eqb_neq _ _) Hf). simpl.
    by destruct IoUring.AF_INET.
Qed.

Lemma ring_reply_destination_witness :
  IoUring.destination (K:=linux)
    (IoUring.endpoint_from (K:=linux) (mk_sockaddr_in 2 36895 16777343))
  = mk_sockaddr_in 2 36895 16777343.
Proof.
  apply (proj1 (ring_reply_destination (K:=linux)
                  (mk_sockaddr_in 2 36895 16777343))).
  reflexivity.
Defined.





End Further.
